(** * maskselector: the mask editing core of the in-browser segmentation tool

    A shallow embedding of the JavaScript sources (js/app.js, js/tools.js,
    js/segmentation.js and their earlier/later variants) and the proofs of
    the properties stated about them.

    Conventions of the embedding
    - a JavaScript number that holds an integer is a [Z]; pointer
      coordinates, which are fractional, are [Q] and are floored with
      [Qfloor] where the source calls [Math.floor];
    - a [Uint8ClampedArray] is a [list Z]: a read out of range gives
      [None] (JavaScript's [undefined]), a write out of range is dropped,
      a written value is clamped to 0..255;
    - an [ImageData] is a record of width, height and its RGBA array;
    - a canvas is represented by its RGBA pixel buffer, so
      [getImageData(0,0,w,h)] copies the buffer and [putImageData(img,0,0)]
      with an image of the canvas's size replaces it;
    - path filling and image compositing, which the browser implements, are
      the operations of the interface [Canvas2D], brush strokes those of
      [BrushCanvas]; what the pixels of a composed image are is stated under
      the laws of [Compositing], which hold whatever the rounding of the
      browser. *)

From Stdlib Require Import ZArith List Lia QArith Qround Btauto.
From stdpp Require Import base list gmap.

Open Scope Z_scope.

(** ** Typed arrays *)

(** Conversion applied by a [Uint8ClampedArray] store. *)
Definition u8 (v : Z) : Z := Z.max 0 (Z.min 255 v).

(** [a[i]] *)
Definition aget (a : list Z) (i : Z) : option Z :=
  if decide (0 <= i) then a !! Z.to_nat i else None.

(** [a[i] = v] *)
Definition aset (a : list Z) (i : Z) (v : Z) : list Z :=
  if decide (0 <= i) then <[Z.to_nat i := u8 v]> a else a.

(** [a[i] = b[j]] where the right-hand side may be [undefined], which a
    typed array stores as 0. *)
Definition aput (a : list Z) (i : Z) (o : option Z) : list Z :=
  aset a i (default 0 o).

(** [v > k] and [v < k] for a possibly undefined [v]: comparisons with
    [undefined] are false. *)
Definition js_gt (o : option Z) (k : Z) : bool :=
  match o with Some v => bool_decide (k < v) | None => false end.

Definition js_lt (o : option Z) (k : Z) : bool :=
  match o with Some v => bool_decide (v < k) | None => false end.

(** [a[i] === k] for a number [k] *)
Definition js_eq (o : option Z) (k : Z) : bool :=
  match o with Some v => bool_decide (v = k) | None => false end.

(** The offsets [0, 4, 8, ...] visited by [for (i = 0; i < n; i += 4)]. *)
Definition pixel_offsets (n : nat) : list Z :=
  (fun k : nat => 4 * Z.of_nat k) <$> seq 0 (Nat.div (n + 3) 4).

(** ** Image data and the canvas interface *)

Record ImageData := mkImageData {
  width : Z;
  height : Z;
  data : list Z
}.

(** [new ImageData(w, h)]: transparent black. *)
Definition newImageData (w h : Z) : ImageData :=
  mkImageData w h (replicate (Z.to_nat (4 * w * h)) 0).

(** The invariant every [ImageData] of the browser satisfies. *)
Definition wf_image (img : ImageData) : Prop :=
  0 <= width img /\ 0 <= height img /\
  Z.of_nat (length (data img)) = 4 * width img * height img.

Record Point := mkPoint { px : Q; py : Q }.

Inductive CompositeOp := SourceOver | DestinationOut | Lighter.

(** A fill style with the global alpha it is drawn with. *)
Record Paint := mkPaint { paint_rgb : Z * Z * Z; paint_alpha : Q }.

(** What the 2D context does for the tools: fill a closed path and draw
    one image over another under a composite operation. *)
Class Canvas2D := {
  fillPath : CompositeOp -> Paint -> list Point -> ImageData -> ImageData;
  drawImage : CompositeOp -> ImageData -> ImageData -> ImageData
}.

(** The fill and stroke style of a fresh context: [#000000]. *)
Definition defaultFill : Paint := mkPaint (0, 0, 0) 1.

Definition getImageData (canvas : ImageData) : ImageData := canvas.

Definition putImageData (img canvas : ImageData) : ImageData := img.

(** [ctx.clearRect(0, 0, canvas.width, canvas.height)] *)
Definition clearRect (canvas : ImageData) : ImageData :=
  mkImageData (width canvas) (height canvas)
              (replicate (length (data canvas)) 0).

(** ** js/tools.js: MaskTools *)

Module MaskTools.

Inductive Tool := Click | Brush | Erase | Lasso | LassoErase.

Global Instance Tool_eq_dec : EqDecision Tool.
Proof. solve_decision. Defined.

(** The colours by which the two magnifier variants of tools.js differ:
    the fill of a lasso and the pixel written for a selected pixel by
    [convertToGreenOverlay]. *)
Record Theme := mkTheme {
  lassoFill : Paint;
  overlayG : Z;
  overlayB : Z;
  overlayA : Z
}.

(** tools.js without magnifier: white at alpha 0.8 and (0, 255, 0, 180). *)
Definition classic : Theme := mkTheme (mkPaint (255, 255, 255) (8 # 10)) 255 0 180.

(** tools.js with magnifier: rgba(0, 255, 50, 0.95) and (0, 255, 50, 240). *)
Definition bright : Theme := mkTheme (mkPaint (0, 255, 50) (95 # 100)) 255 50 240.

(** tools.js with enhanced magnifier: rgba(0, 180, 20, 0.98) and (0, 180, 20, 250). *)
Definition dark : Theme := mkTheme (mkPaint (0, 180, 20) (98 # 100)) 180 20 250.

Record t := mk {
  maskCanvas : ImageData;
  overlayCanvas : ImageData;
  currentTool : Tool;
  history : list ImageData;
  historyStep : Z;
  maxHistorySize : Z;
  lassoPoints : list Point;
  isLassoActive : bool
}.

Definition set_maskCanvas (c : ImageData) (s : t) : t :=
  mk c (overlayCanvas s) (currentTool s) (history s) (historyStep s)
     (maxHistorySize s) (lassoPoints s) (isLassoActive s).

Definition set_history (h : list ImageData) (step : Z) (s : t) : t :=
  mk (maskCanvas s) (overlayCanvas s) (currentTool s) h step
     (maxHistorySize s) (lassoPoints s) (isLassoActive s).

(** [arr.slice(0, e)] *)
Definition slice0 {A} (e : Z) (l : list A) : list A :=
  if decide (0 <= e) then take (Z.to_nat e) l
  else take (Z.to_nat (Z.of_nat (length l) + e)) l.

Definition saveState (s : t) : t :=
  let h1 := if decide (historyStep s < Z.of_nat (length (history s)) - 1)
            then slice0 (historyStep s + 1) (history s)
            else history s in
  let h2 := h1 ++ [getImageData (maskCanvas s)] in
  if decide (maxHistorySize s < Z.of_nat (length h2))
  then set_history (tail h2) (historyStep s) s
  else set_history h2 (historyStep s + 1) s.

(** The state the constructor leaves: empty history, step -1, then
    [saveState()] for the initial snapshot. *)
Definition create_with (capacity : Z) (mask overlay : ImageData) : t :=
  saveState (mk mask overlay Click [] (-1) capacity [] false).

Definition create (mask overlay : ImageData) : t :=
  create_with 20 mask overlay.

(** [undo()] and [redo()] return the new state and the boolean result;
    [None] is the TypeError of [putImageData(undefined, 0, 0)]. *)
Definition undo (s : t) : option (t * bool) :=
  if decide (0 < historyStep s) then
    let step := historyStep s - 1 in
    match history s !! Z.to_nat step with
    | Some imageData =>
        Some (set_maskCanvas (putImageData imageData (maskCanvas s))
                (set_history (history s) step s), true)
    | None => None
    end
  else Some (s, false).

Definition redo (s : t) : option (t * bool) :=
  if decide (historyStep s < Z.of_nat (length (history s)) - 1) then
    let step := historyStep s + 1 in
    match (if decide (0 <= step) then history s !! Z.to_nat step else None) with
    | Some imageData =>
        Some (set_maskCanvas (putImageData imageData (maskCanvas s))
                (set_history (history s) step s), true)
    | None => None
    end
  else Some (s, false).

Definition canUndo (s : t) : bool := bool_decide (0 < historyStep s).

Definition canRedo (s : t) : bool :=
  bool_decide (historyStep s < Z.of_nat (length (history s)) - 1).

Definition clearOverlay (s : t) : t :=
  mk (maskCanvas s) (clearRect (overlayCanvas s)) (currentTool s) (history s)
     (historyStep s) (maxHistorySize s) (lassoPoints s) (isLassoActive s).

Definition cancelLasso (s : t) : t :=
  clearOverlay
    (mk (maskCanvas s) (overlayCanvas s) (currentTool s) (history s)
        (historyStep s) (maxHistorySize s) [] false).

Definition clearMask (s : t) : t :=
  saveState (set_maskCanvas (clearRect (maskCanvas s)) s).

Section Drawing.
  Context `{Canvas2D} (theme : Theme).

  (** The overlay drawing of the lasso preview is decoration and is not
      modelled: [startLasso] and [addLassoPoint] only record the vertex. *)
Definition startLasso (p : Point) (s : t) : t :=
    mk (maskCanvas s) (overlayCanvas s) (currentTool s) (history s)
       (historyStep s) (maxHistorySize s) [p] true.

Definition addLassoPoint (p : Point) (s : t) : t :=
    mk (maskCanvas s) (overlayCanvas s) (currentTool s) (history s)
       (historyStep s) (maxHistorySize s) (lassoPoints s ++ [p]) (isLassoActive s).

  (** The erasing lasso, a tool of the variants with magnifier, sets no
      fill style: it fills with the style the context has, which no code
      changes outside a save/restore pair, the initial opaque black. *)
Definition completeLasso (s : t) : t :=
    if decide (length (lassoPoints s) < 3)%nat then cancelLasso s
    else
      let isErase := bool_decide (currentTool s = LassoErase) in
      let op := if isErase then DestinationOut else SourceOver in
      let fillStyle := if isErase then defaultFill else lassoFill theme in
      let filled := fillPath op fillStyle (lassoPoints s) (maskCanvas s) in
      saveState (cancelLasso (set_maskCanvas filled s)).

Definition handleDoubleClick (s : t) : t :=
    if bool_decide (currentTool s = Lasso \/ currentTool s = LassoErase)
       && isLassoActive s
    then completeLasso s else s.

Definition setTool (tool : Tool) (s : t) : t :=
    let s1 := if bool_decide (currentTool s = Lasso \/ currentTool s = LassoErase)
                 && isLassoActive s
              then cancelLasso s else s in
    clearOverlay
      (mk (maskCanvas s1) (overlayCanvas s1) tool (history s1)
          (historyStep s1) (maxHistorySize s1) (lassoPoints s1) (isLassoActive s1)).

  (** One step of [convertToGreenOverlay]'s loop, at offset [i]. *)
Definition green_step (d : list Z) (i : Z) : list Z :=
    if js_gt (aget d i) 128
    then aset (aset (aset (aset d i 0) (i + 1) (overlayG theme))
                 (i + 2) (overlayB theme)) (i + 3) (overlayA theme)
    else aset d (i + 3) 0.

Definition convertToGreenOverlay (imageData : ImageData) : ImageData :=
    mkImageData (width imageData) (height imageData)
      (fold_left green_step (pixel_offsets (length (data imageData)))
                 (data imageData)).

  (** One step of [getMaskData]'s loop, at offset [i]. *)
Definition binary_step (d : list Z) (i : Z) : list Z :=
    let hasGreen := js_gt (aget d (i + 1)) 50 in
    let value := if hasGreen then 255 else 0 in
    aset (aset (aset (aset d i value) (i + 1) value) (i + 2) value) (i + 3) 255.

Definition getMaskData (s : t) : ImageData :=
    let imageData := getImageData (maskCanvas s) in
    mkImageData (width imageData) (height imageData)
      (fold_left binary_step (pixel_offsets (length (data imageData)))
                 (data imageData)).

Definition applySegmentation (imageData : ImageData) (additive : bool) (s : t) : t :=
    let s1 := if additive then s else clearMask s in
    let greenImageData := convertToGreenOverlay imageData in
    let op := if additive then Lighter else SourceOver in
    saveState (set_maskCanvas (drawImage op greenImageData (maskCanvas s1)) s1).

End Drawing.

End MaskTools.

(** ** js/segmentation.js: the click mask *)

(** Linear index of pixel [(x, y)] in an image of width [w]. *)
Definition pixel_index (w x y : Z) : Z := y * w + x.

(** The earlier segmentation.js: every non-background pixel is selected. *)
Module Segmentation.

Definition background_step (m : list Z) (i : Z) : list Z :=
    aset (aset (aset (aset m i 0) (i + 1) 0) (i + 2) 0) (i + 3) 255.

Definition class_step (d : list Z) (m : list Z) (i : Z) : list Z :=
    let isTargetClass := js_gt (aget d i) 0 in
    let maskValue := if isTargetClass then 255 else 0 in
    aset (aset (aset (aset m i maskValue) (i + 1) maskValue) (i + 2) maskValue)
         (i + 3) 255.

Definition createClickMask (segmentationData : ImageData) (clickX clickY : Q)
    : ImageData :=
    let w := width segmentationData in
    let h := height segmentationData in
    let d := data segmentationData in
    let pixelIndex := (Qfloor clickY * w + Qfloor clickX) * 4 in
    let clickedClass := aget d pixelIndex in
    let maskData := newImageData w h in
    let maskArray := data maskData in
    if js_eq clickedClass 0
    then mkImageData w h
           (fold_left background_step (pixel_offsets (length maskArray)) maskArray)
    else mkImageData w h
           (fold_left (class_step d) (pixel_offsets (length d)) maskArray).

End Segmentation.

(** The later segmentation.js: the 4-connected component of the click. *)
Module SegmentationCC.

Record FillState := mkFill {
    queue : list (Z * Z);
    visited : gset Z;
    maskArray : list Z
  }.

  (** [a === b] on two values that are numbers or [undefined]. *)
Definition js_same (a b : option Z) : bool := bool_decide (a = b).

  Section Fill.
    Variables (d : list Z) (w h : Z) (targetClass : option Z).

    (** One iteration of the [while (queue.length > 0)] loop on the state
        whose queue is [(x, y) :: rest]. *)
Definition fill_body (x y : Z) (rest : list (Z * Z)) (st : FillState)
      : FillState :=
      if decide (x < 0 \/ w <= x \/ y < 0 \/ h <= y)
      then mkFill rest (visited st) (maskArray st)
      else
        let idx := y * w + x in
        let pixelIdx := idx * 4 in
        if decide (idx ∈ visited st)
        then mkFill rest (visited st) (maskArray st)
        else
          let visited' := {[idx]} ∪ visited st in
          let pixelClass := aget d pixelIdx in
          if js_same pixelClass targetClass
          then
            let m := aset (aset (aset (aset (maskArray st) pixelIdx 255)
                                   (pixelIdx + 1) 255)
                             (pixelIdx + 2) 255)
                       (pixelIdx + 3) 255 in
            mkFill (rest ++ [(x + 1, y); (x - 1, y); (x, y + 1); (x, y - 1)])
                   visited' m
          else mkFill rest visited' (maskArray st).

    (** The loop, run for at most [fuel] iterations; [None] when the fuel
        is used up before the queue is empty. *)
Fixpoint fill_loop (fuel : nat) (st : FillState) : option FillState :=
      match queue st with
      | [] => Some st
      | (x, y) :: rest =>
          match fuel with
          | O => None
          | S fuel' => fill_loop fuel' (fill_body x y rest st)
          end
      end.

Definition fill_start (m : list Z) (startX startY : Z) : FillState :=
      mkFill [(startX, startY)] ∅ m.

    (** Every iteration pops one entry and at most [w * h] iterations push
        four, so [4 * w * h + 1] iterations drain the queue. *)
Definition fill_fuel : nat := S (Z.to_nat (4 * (w * h))).

Definition _findConnectedComponent (m : list Z) (startX startY : Z)
      : option (list Z) :=
      maskArray <$> fill_loop fill_fuel (fill_start m startX startY).
  End Fill.

  (** [createClickMask(segmentationResult, clickX, clickY)], on the
      [imageData] of the segmentation result. *)
Definition createClickMask (imageData : ImageData) (clickX clickY : Q)
    : option ImageData :=
    let w := width imageData in
    let h := height imageData in
    let d := data imageData in
    let pixelIndex := (Qfloor clickY * w + Qfloor clickX) * 4 in
    let clickedClass := aget d pixelIndex in
    let maskData := newImageData w h in
    let maskArray := data maskData in
    if js_eq clickedClass 0
    then Some (mkImageData w h
           (fold_left Segmentation.background_step
                      (pixel_offsets (length maskArray)) maskArray))
    else mkImageData w h <$>
           _findConnectedComponent d w h clickedClass maskArray
             (Qfloor clickX) (Qfloor clickY).

End SegmentationCC.

(** ** js/app.js: the application *)

(** The 3x3 neighbourhood in the order of the [dy], [dx] loops. *)
Definition neighborhood : list (Z * Z) :=
  dy ← [-1; 0; 1]; dx ← [-1; 0; 1]; [(dy, dx)].

(** The pixels visited by [for y in 1..h-2, for x in 1..w-2], in order. *)
Definition interior (w h : Z) : list (Z * Z) :=
  y ← seqZ 1 (h - 2); x ← seqZ 1 (w - 2); [(x, y)].

(** The inner loops with their early exit: some pixel of the 3x3
    neighbourhood of [(x, y)] is above, respectively below, 128. *)
Definition hasWhiteNeighbor (d : list Z) (w x y : Z) : bool :=
  existsb (fun '(dy, dx) => js_gt (aget d (((y + dy) * w + (x + dx)) * 4)) 128)
          neighborhood.

Definition hasBlackNeighbor (d : list Z) (w x y : Z) : bool :=
  existsb (fun '(dy, dx) => js_lt (aget d (((y + dy) * w + (x + dx)) * 4)) 128)
          neighborhood.

(** [a[i] = v; a[i+1] = v; a[i+2] = v] *)
Definition set_rgb (a : list Z) (i v : Z) : list Z :=
  aset (aset (aset a i v) (i + 1) v) (i + 2) v.

(** [a[i] = b[i]; a[i+1] = b[i+1]; a[i+2] = b[i+2]] *)
Definition copy_rgb (a b : list Z) (i : Z) : list Z :=
  aput (aput (aput a i (aget b i)) (i + 1) (aget b (i + 1)))
       (i + 2) (aget b (i + 2)).

(** [createBinaryMask], the same in both variants of app.js. *)
Definition threshold_step (d : list Z) (b : list Z) (i : Z) : list Z :=
  let isSelected := js_gt (aget d i) 128 in
  let value := if isSelected then 255 else 0 in
  aset (aset (aset (aset b i value) (i + 1) value) (i + 2) value) (i + 3) 255.

Definition createBinaryMask (maskData : ImageData) : ImageData :=
  let d := data maskData in
  let binaryData := replicate (length d) 0 in
  mkImageData (width maskData) (height maskData)
    (fold_left (threshold_step d) (pixel_offsets (length d)) binaryData).

(** The object mask has a selection: some red channel is above 0. *)
Definition hasSelection (objectMask : ImageData) : bool :=
  existsb (fun i => js_gt (aget (data objectMask) i) 0)
          (pixel_offsets (length (data objectMask))).

(** The original app.js, with the tools.js that has no magnifier. *)
Module App.

Record t := mk {
    maskTools : option MaskTools.t;
    currentImage : bool;
    modelLoaded : bool;
    isProcessing : bool;
    cachedSegmentation : option ImageData
  }.

Definition set_maskTools (mt : MaskTools.t) (app : t) : t :=
    mk (Some mt) (currentImage app) (modelLoaded app) (isProcessing app)
       (cachedSegmentation app).

Definition set_cachedSegmentation (seg : ImageData) (app : t) : t :=
    mk (maskTools app) (currentImage app) (modelLoaded app) (isProcessing app)
       (Some seg).

Definition dilate_step (d : list Z) (w : Z) (dilated : list Z) (p : Z * Z)
    : list Z :=
    let '(x, y) := p in
    let idx := (y * w + x) * 4 in
    if js_gt (aget d idx) 128 then dilated
    else if hasWhiteNeighbor d w x y then set_rgb dilated idx 255
         else dilated.

Definition erode_step (dilated : list Z) (w : Z) (d : list Z) (p : Z * Z)
    : list Z :=
    let '(x, y) := p in
    let idx := (y * w + x) * 4 in
    if js_lt (aget dilated idx) 128 then d
    else if hasBlackNeighbor dilated w x y then set_rgb d idx 0
         else copy_rgb d dilated idx.

  (** One round of the [iter] loop: dilation into a copy, then erosion
      back into [data]. *)
Definition closing_pass (w h : Z) (d : list Z) : list Z :=
    let dilated := fold_left (dilate_step d w) (interior w h) d in
    fold_left (erode_step dilated w) (interior w h) d.

Definition refineMaskEdges (maskData : ImageData) (iterations : nat)
    : ImageData :=
    let w := width maskData in
    let h := height maskData in
    mkImageData w h (Nat.iter iterations (closing_pass w h) (data maskData)).

  Section Handlers.
    Context `{Canvas2D}.

    (** What [await this.segmentation.segmentImage(this.imageCanvas)]
        yields for the loaded image; [None] when it throws. *)
    Variable segmentImage : option ImageData.

Definition subtractMaskFromSelection (objectMask : ImageData)
               (mt : MaskTools.t) : MaskTools.t :=
      MaskTools.saveState
        (MaskTools.set_maskCanvas
           (drawImage DestinationOut objectMask (MaskTools.maskCanvas mt)) mt).

    (** The click handler up to the end of its [try] block; the guards
        return early, a thrown error is caught and reported, and
        [isProcessing] is false again when the handler is done. *)
Definition handleCanvasClick (x y : Q) (app : t) : t :=
      if negb (currentImage app) || negb (modelLoaded app) || isProcessing app
      then app
      else
        let currentTool :=
          match maskTools app with
          | Some mt => MaskTools.currentTool mt
          | None => MaskTools.Click
          end in
        if negb (bool_decide (currentTool = MaskTools.Click)) then app
        else
          match (match cachedSegmentation app with
                 | Some r => Some r
                 | None => segmentImage
                 end) with
          | None => app
          | Some segmentationData =>
              let app1 := set_cachedSegmentation segmentationData app in
              match maskTools app with
              | None => app1
              | Some mt =>
                  let maskData := MaskTools.getMaskData mt in
                  let pixelIndex :=
                    (Qfloor y * width maskData + Qfloor x) * 4 in
                  let isInSelection :=
                    js_gt (aget (data maskData) pixelIndex) 128 in
                  let objectMask :=
                    Segmentation.createClickMask segmentationData x y in
                  if hasSelection objectMask then
                    if isInSelection
                    then set_maskTools
                           (subtractMaskFromSelection objectMask mt) app1
                    else set_maskTools
                           (MaskTools.applySegmentation MaskTools.classic
                              objectMask true mt) app1
                  else app1
              end
          end.

Definition handleRefine (app : t) : t :=
      match maskTools app with
      | None => app
      | Some mt =>
          let currentMask := MaskTools.getMaskData mt in
          let refinedMask := refineMaskEdges currentMask 1 in
          set_maskTools
            (MaskTools.saveState
               (MaskTools.set_maskCanvas
                  (putImageData refinedMask (MaskTools.maskCanvas mt)) mt))
            app
      end.

    (** The pure binary mask that [handleDownload] writes to the file. *)
Definition handleDownload (app : t) : option ImageData :=
      match maskTools app with
      | None => None
      | Some mt => Some (createBinaryMask (MaskTools.getMaskData mt))
      end.
  End Handlers.

End App.

(** The enhanced app.js, with the tools.js that has the magnifier. *)
Module AppEnhanced.

Record t := mk {
    maskTools : option MaskTools.t;
    currentImage : bool;
    modelLoaded : bool;
    isProcessing : bool;
    cachedSegmentation : option ImageData;
    isCtrlPressed : bool;
    clickCount : Z
  }.

Definition set_maskTools (mt : MaskTools.t) (app : t) : t :=
    mk (Some mt) (currentImage app) (modelLoaded app) (isProcessing app)
       (cachedSegmentation app) (isCtrlPressed app) (clickCount app).

Definition set_cachedSegmentation (seg : ImageData) (app : t) : t :=
    mk (maskTools app) (currentImage app) (modelLoaded app) (isProcessing app)
       (Some seg) (isCtrlPressed app) (clickCount app).

Definition set_clickCount (n : Z) (app : t) : t :=
    mk (maskTools app) (currentImage app) (modelLoaded app) (isProcessing app)
       (cachedSegmentation app) (isCtrlPressed app) n.

Definition erode_step (d : list Z) (w : Z) (eroded : list Z) (p : Z * Z)
    : list Z :=
    let '(x, y) := p in
    let idx := (y * w + x) * 4 in
    if js_lt (aget d idx) 128 then eroded
    else if hasBlackNeighbor d w x y then set_rgb eroded idx 0
         else eroded.

Definition dilate_step (eroded : list Z) (w : Z) (d : list Z) (p : Z * Z)
    : list Z :=
    let '(x, y) := p in
    let idx := (y * w + x) * 4 in
    if js_gt (aget eroded idx) 128 then d
    else if hasWhiteNeighbor eroded w x y then set_rgb d idx 255
         else copy_rgb d eroded idx.

  (** One round of the [iter] loop: erosion into a copy, then dilation
      back into [data]. *)
Definition opening_pass (w h : Z) (d : list Z) : list Z :=
    let eroded := fold_left (erode_step d w) (interior w h) d in
    fold_left (dilate_step eroded w) (interior w h) d.

Definition refineMaskEdgesEnhanced (maskData : ImageData) (iterations : nat)
    : ImageData :=
    let w := width maskData in
    let h := height maskData in
    mkImageData w h (Nat.iter iterations (opening_pass w h) (data maskData)).

  (** One step of the inversion loop of [handleInvert], at offset [i]. *)
Definition invert_step (d : list Z) (i : Z) : list Z :=
    let invertedValue := match aget d i with Some v => 255 - v | None => 0 end in
    aset (aset (aset d i invertedValue) (i + 1) invertedValue)
         (i + 2) invertedValue.

  Section Handlers.
    Context `{Canvas2D} (theme : MaskTools.Theme).
    Variable segmentImage : option ImageData.

Definition subtractMaskFromSelection (objectMask : ImageData)
               (mt : MaskTools.t) : MaskTools.t :=
      let greenMask := MaskTools.convertToGreenOverlay theme objectMask in
      MaskTools.saveState
        (MaskTools.set_maskCanvas
           (drawImage DestinationOut greenMask (MaskTools.maskCanvas mt)) mt).

    (** The click handler up to the end of its [try] block. A click mask
        that is never returned leaves the handler without a result. *)
Definition handleCanvasClick (x y : Q) (app : t) : option t :=
      if negb (currentImage app) || negb (modelLoaded app) || isProcessing app
      then Some app
      else
        let currentTool :=
          match maskTools app with
          | Some mt => MaskTools.currentTool mt
          | None => MaskTools.Click
          end in
        if negb (bool_decide (currentTool = MaskTools.Click)) then Some app
        else
          match (match cachedSegmentation app with
                 | Some r => Some r
                 | None => segmentImage
                 end) with
          | None => Some app
          | Some segmentationResult =>
              let app1 := set_cachedSegmentation segmentationResult app in
              match SegmentationCC.createClickMask segmentationResult x y with
              | None => None
              | Some objectMask =>
                  if hasSelection objectMask then
                    let app2 := set_clickCount (clickCount app1 + 1) app1 in
                    match maskTools app with
                    | None => Some app2
                    | Some mt =>
                        if isCtrlPressed app
                        then Some (set_maskTools
                                     (subtractMaskFromSelection objectMask mt)
                                     app2)
                        else Some (set_maskTools
                                     (MaskTools.applySegmentation theme
                                        objectMask true mt) app2)
                    end
                  else Some app1
              end
          end.

Definition handleInvert (app : t) : t :=
      match maskTools app with
      | None => app
      | Some mt =>
          let currentMask := MaskTools.getMaskData mt in
          let d := fold_left invert_step
                     (pixel_offsets (length (data currentMask)))
                     (data currentMask) in
          let inverted :=
            mkImageData (width currentMask) (height currentMask) d in
          let cleared := clearRect (MaskTools.maskCanvas mt) in
          let greenMask := MaskTools.convertToGreenOverlay theme inverted in
          set_maskTools
            (MaskTools.saveState
               (MaskTools.set_maskCanvas (putImageData greenMask cleared) mt))
            app
      end.

Definition handleRefine (app : t) : t :=
      match maskTools app with
      | None => app
      | Some mt =>
          let currentMask := MaskTools.getMaskData mt in
          let refinedMask := refineMaskEdgesEnhanced currentMask 2 in
          let cleared := clearRect (MaskTools.maskCanvas mt) in
          let greenMask := MaskTools.convertToGreenOverlay theme refinedMask in
          set_maskTools
            (MaskTools.saveState
               (MaskTools.set_maskCanvas (putImageData greenMask cleared) mt))
            app
      end.

Definition handleDownload (app : t) : option ImageData :=
      match maskTools app with
      | None => None
      | Some mt => Some (createBinaryMask (MaskTools.getMaskData mt))
      end.
  End Handlers.

End AppEnhanced.

(** ** A reference canvas

    An instance of [Canvas2D] for the examples: Porter-Duff compositing on
    8-bit straight-alpha pixels and polygon filling by the non-zero winding
    rule at pixel centres, without antialiasing. The theorems below hold for
    every instance; those about the pixels of a composed image hold for
    every instance with the laws of [Compositing], which this one has. *)
Module ReferenceCanvas.

Definition get_pixel (d : list Z) (k : Z) : Z * Z * Z * Z :=
    (default 0 (aget d (4 * k)), default 0 (aget d (4 * k + 1)),
     default 0 (aget d (4 * k + 2)), default 0 (aget d (4 * k + 3))).

Definition blend (op : CompositeOp) (s d : Z * Z * Z * Z) : Z * Z * Z * Z :=
    let '(sr, sg, sb, sa) := s in
    let '(dr, dg, db, da) := d in
    match op with
    | SourceOver =>
        let a := sa + da * (255 - sa) / 255 in
        let c := fun cs cd => (cs * sa * 255 + cd * da * (255 - sa)) / (255 * a) in
        if decide (a = 0) then (0, 0, 0, 0) else (c sr dr, c sg dg, c sb db, a)
    | DestinationOut =>
        let a := da * (255 - sa) / 255 in
        if decide (a = 0) then (0, 0, 0, 0) else (dr, dg, db, a)
    | Lighter =>
        let a := Z.min 255 (sa + da) in
        let c := fun cs cd => Z.min 255 ((cs * sa + cd * da) / a) in
        if decide (a = 0) then (0, 0, 0, 0) else (c sr dr, c sg dg, c sb db, a)
    end.

Definition pixel_bytes (p : Z * Z * Z * Z) : list Z :=
    let '(r, g, b, a) := p in [u8 r; u8 g; u8 b; u8 a].

  (** Repaint every pixel of [dst] from its coordinates and old value. *)
Definition repaint (f : Z -> Z -> Z * Z * Z * Z -> Z * Z * Z * Z)
             (dst : ImageData) : ImageData :=
    let w := width dst in
    mkImageData w (height dst)
      (k ← seqZ 0 (w * height dst);
       pixel_bytes (f (k `mod` w) (k `div` w) (get_pixel (data dst) k))).

Definition Qlt_bool (a b : Q) : bool := negb (Qle_bool b a).

  (** Contribution of the edge from [a] to [b] to the winding number of the
      point [(cx, cy)]. *)
Definition edge_winding (cx cy : Q) (e : Point * Point) : Z :=
    let '(a, b) := e in
    let side := ((px b - px a) * (cy - py a) - (cx - px a) * (py b - py a))%Q in
    if Qle_bool (py a) cy && Qlt_bool cy (py b) && Qlt_bool 0 side then 1
    else if Qle_bool (py b) cy && Qlt_bool cy (py a) && Qlt_bool side 0 then -1
         else 0.

Definition inside (pts : list Point) (x y : Z) : bool :=
    let cx := (inject_Z x + (1 # 2))%Q in
    let cy := (inject_Z y + (1 # 2))%Q in
    let edges := zip pts (tail pts ++ take 1 pts) in
    negb (bool_decide (foldr Z.add 0 (edge_winding cx cy <$> edges) = 0)).

Definition paint_pixel (p : Paint) : Z * Z * Z * Z :=
    let '(r, g, b) := paint_rgb p in
    (r, g, b, Qfloor (paint_alpha p * 255 + (1 # 2))%Q).

Global Instance canvas : Canvas2D := {
    fillPath op paint pts dst :=
      repaint (fun x y d =>
                 if inside pts x y then blend op (paint_pixel paint) d else d)
              dst;
    drawImage op src dst :=
      repaint (fun x y d =>
                 if bool_decide (x < width src /\ y < height src)
                 then blend op (get_pixel (data src) (y * width src + x)) d
                 else d)
              dst
  }.

End ReferenceCanvas.

(** ** Regions of a class buffer *)

Definition in_bounds (img : ImageData) (x y : Z) : Prop :=
  0 <= x < width img /\ 0 <= y < height img.

(** The class stored for pixel [(x, y)]: the red channel. *)
Definition class_at (img : ImageData) (x y : Z) : option Z :=
  aget (data img) (pixel_index (width img) x y * 4).

Definition adjacent4 (x y x' y' : Z) : Prop :=
  (x' = x + 1 /\ y' = y) \/ (x' = x - 1 /\ y' = y) \/
  (x' = x /\ y' = y + 1) \/ (x' = x /\ y' = y - 1).

(** [(x, y)] is reachable from the seed [(sx, sy)] by steps to 4-neighbours
    through pixels of the seed's class. *)
Inductive connected (img : ImageData) (sx sy : Z) : Z -> Z -> Prop :=
| connected_seed :
    in_bounds img sx sy -> connected img sx sy sx sy
| connected_step x y x' y' :
    connected img sx sy x y ->
    adjacent4 x y x' y' ->
    in_bounds img x' y' ->
    class_at img x' y' = class_at img sx sy ->
    connected img sx sy x' y'.

(** A pixel of a mask is selected when its red channel is above 0, the test
    of [handleCanvasClick]. *)
Definition selected (mask : ImageData) (x y : Z) : bool :=
  js_gt (aget (data mask) (pixel_index (width mask) x y * 4)) 0.

(** ** Morphology on selections

    The refinement of the mask as the specification words it, on the
    selection a buffer stands for, to be compared with the loops of
    [refineMaskEdges] and [refineMaskEdgesEnhanced]. *)

(** The selection a buffer of width [w] stands for: red above 128. *)
Definition sel (w : Z) (d : list Z) (x y : Z) : bool :=
  js_gt (aget d ((y * w + x) * 4)) 128.

Definition neighbours8 : list (Z * Z) :=
  [(-1, -1); (-1, 0); (-1, 1); (0, -1); (0, 1); (1, -1); (1, 0); (1, 1)].

(** Pixels with a full 3x3 neighbourhood; the others form the border ring. *)
Definition is_interior (w h x y : Z) : bool :=
  bool_decide (1 <= x < w - 1 /\ 1 <= y < h - 1).

(** Dilation: an unselected pixel with a selected 8-neighbour becomes
    selected; border pixels are left as they are. *)
Definition dilation (w h : Z) (S : Z -> Z -> bool) (x y : Z) : bool :=
  if is_interior w h x y
  then S x y || existsb (fun '(dy, dx) => S (x + dx) (y + dy)) neighbours8
  else S x y.

(** Erosion: a selected pixel with an unselected 8-neighbour becomes
    unselected; border pixels are left as they are. *)
Definition erosion (w h : Z) (S : Z -> Z -> bool) (x y : Z) : bool :=
  if is_interior w h x y
  then S x y && forallb (fun '(dy, dx) => S (x + dx) (y + dy)) neighbours8
  else S x y.

Definition closing (w h : Z) (S : Z -> Z -> bool) : Z -> Z -> bool :=
  erosion w h (dilation w h S).

Definition opening (w h : Z) (S : Z -> Z -> bool) : Z -> Z -> bool :=
  dilation w h (erosion w h S).

(** A binary mask: every red channel is 0 or 255, as [getMaskData()]
    returns it. *)
Definition two_level (w h : Z) (d : list Z) : Prop :=
  forall x y, 0 <= x < w -> 0 <= y < h ->
    aget d ((y * w + x) * 4) = Some 0 \/ aget d ((y * w + x) * 4) = Some 255.

(** A committed mutation: the tool leaves [m] on the mask canvas and calls
    [saveState()]. *)
Definition commit (m : ImageData) (s : MaskTools.t) : MaskTools.t :=
  MaskTools.saveState (MaskTools.set_maskCanvas m s).

Definition commits (ms : list ImageData) (s : MaskTools.t) : MaskTools.t :=
  fold_left (fun s m => commit m s) ms s.

(** The operations that act on the history: a committed mutation,
    [undo()], [redo()] and [clearMask()]. *)
Inductive HistoryOp :=
| OpCommit (m : ImageData)
| OpUndo
| OpRedo
| OpClear.

(** [None] is a thrown TypeError. *)
Definition run_op (op : HistoryOp) (s : MaskTools.t) : option MaskTools.t :=
  match op with
  | OpCommit m => Some (commit m s)
  | OpUndo => fst <$> MaskTools.undo s
  | OpRedo => fst <$> MaskTools.redo s
  | OpClear => Some (MaskTools.clearMask s)
  end.

Fixpoint run_ops (ops : list HistoryOp) (s : MaskTools.t) : option MaskTools.t :=
  match ops with
  | [] => Some s
  | op :: rest =>
      match run_op op s with
      | Some s' => run_ops rest s'
      | None => None
      end
  end.

(** [n] calls of [undo()], each of which has to return true. *)
Fixpoint undo_times (n : nat) (s : MaskTools.t) : option MaskTools.t :=
  match n with
  | O => Some s
  | S n' =>
      match MaskTools.undo s with
      | Some (s', true) => undo_times n' s'
      | _ => None
      end
  end.

(** ** js/segmentation.js: from the model's answer to the class buffer *)

(** [a || d] on a number that may be missing: [undefined] and 0 are falsy. *)
Definition js_or (o : option Z) (d : Z) : Z :=
  match o with
  | Some v => if bool_decide (v = 0) then d else v
  | None => d
  end.

Module SegmentationData.

(** The body of the loop over class indices of the later segmentation.js:
    the class goes to the three colour channels. *)
Definition class_store (segData : list Z) (d : list Z) (i : Z) : list Z :=
  let pixelIndex := i * 4 in
  let classValue := aget segData i in
  aset (aput (aput (aput d pixelIndex classValue) (pixelIndex + 1) classValue)
          (pixelIndex + 2) classValue) (pixelIndex + 3) 255.

(** The same loop of the earlier segmentation.js: background is black,
    every other class white. *)
Definition gray_store (segData : list Z) (d : list Z) (i : Z) : list Z :=
  let pixelIndex := i * 4 in
  let classValue := aget segData i in
  let grayValue := if js_gt classValue 0 then 255 else 0 in
  aset (aset (aset (aset d pixelIndex grayValue) (pixelIndex + 1) grayValue)
          (pixelIndex + 2) grayValue) (pixelIndex + 3) 255.

Section Process.
  (** [_resizeImageData] scales the image through a canvas. *)
  Variable _resizeImageData : ImageData -> Z -> Z -> ImageData.
  Variable store : list Z -> list Z -> Z -> list Z.

  (** [_processSegmentationResult(predictions, width, height)] when
      [predictions.segmentationMap] is an array of bytes; [pwidth] and
      [pheight] are [predictions.width] and [predictions.height]. The
      result is the [imageData] of the returned object. *)
Definition _processSegmentationResult (segmentationMap : list Z)
             (pwidth pheight : option Z) (width height : Z) : ImageData :=
    let segWidth := js_or pwidth width in
    let segHeight := js_or pheight height in
    let imageData := newImageData segWidth segHeight in
    let filled :=
      if bool_decide (Z.of_nat (length segmentationMap) = segWidth * segHeight * 4)
      then mkImageData segWidth segHeight (u8 <$> segmentationMap)
      else mkImageData segWidth segHeight
             (fold_left (store segmentationMap)
                        (seqZ 0 (Z.of_nat (length segmentationMap)))
                        (data imageData)) in
    if bool_decide (segWidth <> width \/ segHeight <> height)
    then _resizeImageData filled width height
    else filled.
End Process.

(** The three pixels [_imageDataEqual] looks at. *)
Definition sampleIndices (data1 : ImageData) : list Z :=
  [0; Z.of_nat (length (data data1)) `div` 4; Z.of_nat (length (data data1)) - 4].

Definition _imageDataEqual (data1 data2 : ImageData) : bool :=
  if bool_decide (width data1 <> width data2 \/ height data1 <> height data2)
  then false
  else forallb (fun idx =>
                  forallb (fun i =>
                             SegmentationCC.js_same (aget (data data1) (idx + i))
                                                    (aget (data data2) (idx + i)))
                          [0; 1; 2; 3])
               (sampleIndices data1).

(** The fields of the segmentation object that [segmentImage] uses. The
    segmentation result is represented by its [imageData]. *)
Record Cache := mkCache {
  isModelLoaded : bool;
  lastImageData : option ImageData;
  lastSegmentation : option ImageData
}.

(** [segmentImage(canvas)]. [answer] is what the model and
    [_processSegmentationResult] yield for the canvas, [None] when they
    throw. The result is [None] when [segmentImage] throws; the value
    returned is [None] when it is [null]. *)
Definition segmentImage (answer : option ImageData) (canvas : ImageData)
           (st : Cache) : option (option ImageData * Cache) :=
  if negb (isModelLoaded st) then None
  else
    let imageData := getImageData canvas in
    let hit := match lastImageData st with
               | Some l => _imageDataEqual imageData l
               | None => false
               end in
    if hit then Some (lastSegmentation st, st)
    else
      match answer with
      | None => None
      | Some result =>
          Some (Some result, mkCache (isModelLoaded st) (Some imageData) (Some result))
      end.

End SegmentationData.

(** ** js/tools.js: the pointer handlers of the variants with magnifier *)

(** What the 2D context does for the brush: stroke a segment with round
    caps at a line width, and fill a disc of a diameter. *)
Class BrushCanvas := {
  strokeLine : CompositeOp -> Paint -> Z -> Point -> Point ->
               ImageData -> ImageData;
  fillDisc : CompositeOp -> Paint -> Z -> Point -> ImageData -> ImageData
}.

Module Pointer.

(** The tools with the fields of the brush. *)
Record t := mk {
  tools : MaskTools.t;
  brushSize : Z;
  isDrawing : bool;
  lastPoint : option Point
}.

Definition set_tools (mt : MaskTools.t) (s : t) : t :=
  mk mt (brushSize s) (isDrawing s) (lastPoint s).

Section Handlers.
  Context `{Canvas2D} `{BrushCanvas} (theme : MaskTools.Theme).

  (** The brush draws with the rgba() literal of the lasso fill; erasing
      sets no style and draws with the one the context has. *)
Definition drawBrushStroke (point : Point) (isErase : bool) (s : t) : t :=
    let op := if isErase then DestinationOut else SourceOver in
    let style := if isErase then defaultFill else MaskTools.lassoFill theme in
    let canvas := MaskTools.maskCanvas (tools s) in
    let canvas' :=
      match lastPoint s with
      | Some l => strokeLine op style (brushSize s) l point canvas
      | None => fillDisc op style (brushSize s) point canvas
      end in
    set_tools (MaskTools.set_maskCanvas canvas' (tools s)) s.

Definition handlePointerDown (point : Point) (s : t) : t :=
    match MaskTools.currentTool (tools s) with
    | MaskTools.Click => s
    | MaskTools.Brush =>
        drawBrushStroke point false (mk (tools s) (brushSize s) true (Some point))
    | MaskTools.Erase =>
        drawBrushStroke point true (mk (tools s) (brushSize s) true (Some point))
    | MaskTools.Lasso | MaskTools.LassoErase =>
        if negb (MaskTools.isLassoActive (tools s))
        then set_tools (MaskTools.startLasso point (tools s)) s
        else set_tools (MaskTools.addLassoPoint point (tools s)) s
    end.

  (** The magnifier, the cursor preview and the lasso preview are
      decoration and are not modelled. *)
Definition handlePointerMove (point : Point) (s : t) : t :=
    match MaskTools.currentTool (tools s) with
    | MaskTools.Brush =>
        if isDrawing s && bool_decide (is_Some (lastPoint s))
        then let s1 := drawBrushStroke point false s in
             mk (tools s1) (brushSize s1) (isDrawing s1) (Some point)
        else s
    | MaskTools.Erase =>
        if isDrawing s && bool_decide (is_Some (lastPoint s))
        then let s1 := drawBrushStroke point true s in
             mk (tools s1) (brushSize s1) (isDrawing s1) (Some point)
        else s
    | _ => s
    end.

Definition handlePointerUp (s : t) : t :=
    match MaskTools.currentTool (tools s) with
    | MaskTools.Brush | MaskTools.Erase =>
        if isDrawing s
        then mk (MaskTools.saveState (tools s)) (brushSize s) false None
        else s
    | _ => s
    end.

Definition handleDoubleClick (s : t) : t :=
    set_tools (MaskTools.handleDoubleClick theme (tools s)) s.
End Handlers.

End Pointer.

(** A reference brush on the reference canvas: a pixel is covered when its
    centre is within half the width of the segment. *)
Module ReferenceBrush.

Definition clamp01 (t : Q) : Q :=
  if Qle_bool t 0 then 0%Q else if Qle_bool 1 t then 1%Q else t.

Definition covered (size : Z) (a b : Point) (x y : Z) : bool :=
  let cx := (inject_Z x + (1 # 2))%Q in
  let cy := (inject_Z y + (1 # 2))%Q in
  let dx := (px b - px a)%Q in
  let dy := (py b - py a)%Q in
  let len2 := (dx * dx + dy * dy)%Q in
  let t := if Qle_bool len2 0 then 0%Q
           else clamp01 (((cx - px a) * dx + (cy - py a) * dy) / len2)%Q in
  let ex := (cx - (px a + t * dx))%Q in
  let ey := (cy - (py a + t * dy))%Q in
  Qle_bool (4 * (ex * ex + ey * ey))%Q (inject_Z (size * size)).

Global Instance canvas : BrushCanvas := {
  strokeLine op style size a b dst :=
    ReferenceCanvas.repaint
      (fun x y d => if covered size a b x y
                    then ReferenceCanvas.blend op (ReferenceCanvas.paint_pixel style) d
                    else d)
      dst;
  fillDisc op style size c dst :=
    ReferenceCanvas.repaint
      (fun x y d => if covered size c c x y
                    then ReferenceCanvas.blend op (ReferenceCanvas.paint_pixel style) d
                    else d)
      dst
}.

End ReferenceBrush.

(** The canvas after the brush has gone from [last] through [points]. *)
Fixpoint stroke_path `{BrushCanvas} (op : CompositeOp) (style : Paint)
         (size : Z) (last : Point) (points : list Point) (canvas : ImageData)
  : ImageData :=
  match points with
  | [] => canvas
  | p :: rest =>
      stroke_path op style size p rest (strokeLine op style size last p canvas)
  end.

(** The pointer events of the tools. *)
Inductive PointerEvent :=
| Down (p : Point)
| Move (p : Point)
| Up
| DoubleClick.

Definition run_event `{Canvas2D} `{BrushCanvas} (theme : MaskTools.Theme)
           (e : PointerEvent) (s : Pointer.t) : Pointer.t :=
  match e with
  | Down p => Pointer.handlePointerDown theme p s
  | Move p => Pointer.handlePointerMove theme p s
  | Up => Pointer.handlePointerUp s
  | DoubleClick => Pointer.handleDoubleClick theme s
  end.

Definition run_events `{Canvas2D} `{BrushCanvas} (theme : MaskTools.Theme)
           (es : list PointerEvent) (s : Pointer.t) : Pointer.t :=
  fold_left (fun s e => run_event theme e s) es s.

(** ** What compositing guarantees *)

(** The four bytes of the pixel at offset [i]. *)
Definition pixel_at (d : list Z) (i : Z) (p : Z * Z * Z * Z) : Prop :=
  let '(r, g, b, a) := p in
  aget d i = Some r /\ aget d (i + 1) = Some g /\
  aget d (i + 2) = Some b /\ aget d (i + 3) = Some a.


(** A canvas buffer as [getImageData] returns it: every value is a byte
    and a transparent pixel has no colour. *)
Definition canvas_buffer (c : ImageData) : Prop :=
  wf_image c /\
  (forall v, v ∈ data c -> 0 <= v <= 255) /\
  forall x y, in_bounds c x y ->
    aget (data c) ((y * width c + x) * 4 + 3) = Some 0 ->
    pixel_at (data c) ((y * width c + x) * 4) (0, 0, 0, 0).

Definition same_size (a b : ImageData) : Prop :=
  width a = width b /\ height a = height b.

(** [drawImage] of an image of the canvas's own size at the origin composes
    pixel by pixel. Whatever the arithmetic of the browser, a transparent
    source pixel leaves the canvas pixel as it is; under [lighter] the green
    of the result is at least the source's green weighted by its alpha, less
    one unit of rounding; and under [destination-out] an opaque source pixel
    leaves a transparent pixel. *)
Class Compositing (C : Canvas2D) : Prop := {
  drawImage_size op src dst :
    canvas_buffer dst -> wf_image src -> same_size src dst ->
    wf_image (drawImage op src dst) /\ same_size (drawImage op src dst) dst;
  drawImage_transparent op src dst x y p :
    canvas_buffer dst -> wf_image src -> same_size src dst ->
    in_bounds dst x y ->
    aget (data src) ((y * width dst + x) * 4 + 3) = Some 0 ->
    pixel_at (data dst) ((y * width dst + x) * 4) p ->
    pixel_at (data (drawImage op src dst)) ((y * width dst + x) * 4) p;
  drawImage_lighter src dst x y r g b a :
    canvas_buffer dst -> wf_image src -> same_size src dst ->
    in_bounds dst x y ->
    pixel_at (data src) ((y * width dst + x) * 4) (r, g, b, a) ->
    0 <= g <= 255 -> 0 <= a <= 255 ->
    exists g', aget (data (drawImage Lighter src dst)) ((y * width dst + x) * 4 + 1)
               = Some g' /\
               g * a - 255 <= 255 * g';
  drawImage_erase src dst x y :
    canvas_buffer dst -> wf_image src -> same_size src dst ->
    in_bounds dst x y ->
    aget (data src) ((y * width dst + x) * 4 + 3) = Some 255 ->
    pixel_at (data (drawImage DestinationOut src dst)) ((y * width dst + x) * 4)
             (0, 0, 0, 0)
}.

(** The selection as [getMaskData()] reads it off the mask canvas. *)
Definition reading (mt : MaskTools.t) (x y : Z) : bool :=
  sel (width (MaskTools.maskCanvas mt)) (data (MaskTools.getMaskData mt)) x y.

(** The pixel [(x, y)] of the mask canvas is the same in [mt] and [mt']. *)
Definition same_pixel (mt mt' : MaskTools.t) (x y : Z) : Prop :=
  forall p,
    pixel_at (data (MaskTools.maskCanvas mt))
             ((y * width (MaskTools.maskCanvas mt) + x) * 4) p ->
    pixel_at (data (MaskTools.maskCanvas mt'))
             ((y * width (MaskTools.maskCanvas mt') + x) * 4) p.

(** [mt'] is [mt] after one committed drawing that leaves every pixel
    outside [region] as it was. *)
Definition drawn_within (region : Z -> Z -> bool) (mt mt' : MaskTools.t) : Prop :=
  (exists c, mt' = commit c mt) /\
  forall x y, in_bounds (MaskTools.maskCanvas mt) x y -> region x y = false ->
    same_pixel mt mt' x y /\ reading mt' x y = reading mt x y.

(** [mt'] is [mt] after one committed drawing that unions [region] into the
    selection: the pixels of the region are selected, the others are as
    they were. *)
Definition unioned (region : Z -> Z -> bool) (mt mt' : MaskTools.t) : Prop :=
  drawn_within region mt mt' /\
  forall x y, in_bounds (MaskTools.maskCanvas mt) x y -> region x y = true ->
    reading mt' x y = true.

(** The points of the pointer-down events, in order. *)
Definition downs (es : list PointerEvent) : list Point :=
  omap (fun e => match e with Down p => Some p | _ => None end) es.

(** Events of a pointer that hovers: moves and releases. *)
Definition hovers (e : PointerEvent) : bool :=
  match e with Move _ | Up => true | _ => false end.

(** What of the tools bears on the mask: the canvas, the history with its
    cursor, and the polygon in progress. The overlay only shows previews. *)
Definition mask_state (mt : MaskTools.t)
  : ImageData * list ImageData * Z * list Point * bool :=
  (MaskTools.maskCanvas mt, MaskTools.history mt, MaskTools.historyStep mt,
   MaskTools.lassoPoints mt, MaskTools.isLassoActive mt).

(** The tools with an active lasso through [points]. *)
Definition with_lasso (points : list Point) (mt : MaskTools.t) : MaskTools.t :=
  MaskTools.mk (MaskTools.maskCanvas mt) (MaskTools.overlayCanvas mt)
    (MaskTools.currentTool mt) (MaskTools.history mt) (MaskTools.historyStep mt)
    (MaskTools.maxHistorySize mt) points true.

(** Events other than the double click. *)
Definition no_double_click (e : PointerEvent) : bool :=
  match e with DoubleClick => false | _ => true end.

(** * Proofs *)

(** ** The history stack *)

Section History.
  Import MaskTools.

  (** The cursor is a valid index, the stack respects its capacity and the
      snapshot under the cursor is what the canvas shows. *)
Definition hist_inv (s : t) : Prop :=
    1 <= maxHistorySize s /\
    0 <= historyStep s < Z.of_nat (length (history s)) /\
    Z.of_nat (length (history s)) <= maxHistorySize s /\
    history s !! Z.to_nat (historyStep s) = Some (maskCanvas s).

Definition at_tip (s : t) : Prop :=
    historyStep s = Z.of_nat (length (history s)) - 1.

Lemma saveState_spec (s : t) :
    1 <= maxHistorySize s ->
    -1 <= historyStep s < Z.of_nat (length (history s)) ->
    Z.of_nat (length (history s)) <= maxHistorySize s ->
    let s' := saveState s in
    let kept := take (Z.to_nat (historyStep s + 1)) (history s) in
    maskCanvas s' = maskCanvas s /\
    maxHistorySize s' = maxHistorySize s /\
    at_tip s' /\
    Z.of_nat (length (history s')) = Z.min (historyStep s + 2) (maxHistorySize s) /\
    history s' !! Z.to_nat (historyStep s') = Some (maskCanvas s) /\
    (historyStep s + 2 <= maxHistorySize s ->
       history s' = kept ++ [maskCanvas s] /\ historyStep s' = historyStep s + 1) /\
    (maxHistorySize s < historyStep s + 2 ->
       history s' = tail (history s) ++ [maskCanvas s] /\
       historyStep s' = historyStep s).
  Proof.
    intros Hcap Hstep Hlen. cbn zeta.
    assert (Hkept : (if decide (historyStep s < Z.of_nat (length (history s)) - 1)
                     then slice0 (historyStep s + 1) (history s)
                     else history s)
                    = take (Z.to_nat (historyStep s + 1)) (history s)).
    { case_decide.
      - unfold slice0. case_decide; [done | lia].
      - rewrite take_ge; [done | lia]. }
    unfold saveState. rewrite Hkept. clear Hkept. unfold getImageData.
    set (kept := take (Z.to_nat (historyStep s + 1)) (history s)).
    assert (Hk : length kept = Z.to_nat (historyStep s + 1)).
    { unfold kept. rewrite length_take. lia. }
    rewrite length_app, Hk. cbn [length].
    case_decide as Hfull.
    - (* eviction: the stack was full and the cursor at its tip *)
      assert (Hs : historyStep s = maxHistorySize s - 1) by lia.
      assert (Hall : kept = history s).
      { unfold kept. rewrite take_ge; [done | lia]. }
      rewrite Hall in *.
      destruct (history s) as [|h0 hs] eqn:Hh; [cbn in *; lia |].
      cbn [tail app]. unfold at_tip. cbn.
      rewrite length_app. cbn [length] in *.
      repeat split; try lia; try done.
      rewrite lookup_app_r by lia.
      replace (Z.to_nat (historyStep s) - length hs)%nat with 0%nat by lia.
      done.
    - unfold at_tip. cbn. rewrite length_app, Hk. cbn [length].
      repeat split; try lia; try done.
      rewrite lookup_app_r by lia.
      replace (Z.to_nat (historyStep s + 1) - length kept)%nat with 0%nat by lia.
      done.
  Qed.

Lemma create_with_inv (C : Z) (mask overlay : ImageData) :
    1 <= C ->
    let s := create_with C mask overlay in
    hist_inv s /\ at_tip s /\ maxHistorySize s = C /\ history s = [mask].
  Proof.
    intros HC. cbn zeta. unfold create_with.
    set (s0 := mk mask overlay Click [] (-1) C [] false).
    destruct (saveState_spec s0 ltac:(cbn; lia) ltac:(cbn; lia) ltac:(cbn; lia))
      as (Hc & Hm & Ht & Hl & Hlast & Hpush & _).
    cbn in Hc, Hm, Hl, Hlast, Hpush.
    destruct Hpush as [Hh Hs]; [lia |].
    unfold hist_inv. rewrite Hm, Hh, Hs, Hc. cbn.
    repeat split; try lia; try done.
  Qed.

Lemma commit_inv (m : ImageData) (s : t) :
    hist_inv s ->
    let s' := commit m s in
    hist_inv s' /\ at_tip s' /\ maskCanvas s' = m /\
    maxHistorySize s' = maxHistorySize s /\
    Z.of_nat (length (history s')) = Z.min (historyStep s + 2) (maxHistorySize s).
  Proof.
    intros (Hcap & Hstep & Hlen & Hcur). cbn zeta. unfold commit.
    destruct (saveState_spec (set_maskCanvas m s)
                ltac:(cbn; lia) ltac:(cbn; lia) ltac:(cbn; lia))
      as (Hc & Hm & Ht & Hl & Hlast & _).
    cbn in Hc, Hm, Hl, Hlast.
    unfold hist_inv. rewrite Hm, Hc, Hl, Hlast.
    unfold at_tip in Ht.
    repeat split; try lia; try done.
  Qed.

Lemma commits_inv (ms : list ImageData) (s : t) :
    hist_inv s -> at_tip s ->
    let s' := commits ms s in
    hist_inv s' /\ at_tip s' /\
    maxHistorySize s' = maxHistorySize s /\
    Z.of_nat (length (history s')) =
      Z.min (Z.of_nat (length (history s)) + Z.of_nat (length ms)) (maxHistorySize s).
  Proof.
    revert s. induction ms as [|m ms IH]; intros s Hinv Htip; cbn zeta.
    - cbn. destruct Hinv as (? & ? & ? & ?). repeat split; try done; lia.
    - cbn [commits fold_left].
      destruct (commit_inv m s Hinv) as (Hinv' & Htip' & _ & Hm & Hl).
      destruct (IH _ Hinv' Htip') as (Hi & Ht & Hm2 & Hl2).
      fold (commits ms (commit m s)).
      split; [done |]. split; [done |]. split; [congruence |].
      rewrite Hl2, Hl, Hm. unfold at_tip in Htip. cbn [length].
      destruct Hinv as (? & ? & ? & ?). lia.
  Qed.

Lemma undo_redo_inv (s s1 : t) :
    hist_inv s ->
    undo s = Some (s1, true) ->
    redo s1 = Some (s, true).
  Proof.
    intros (Hcap & Hstep & Hlen & Hcur) Hu. unfold undo in Hu.
    case_decide as Hpos; [| congruence].
    destruct (history s !! Z.to_nat (historyStep s - 1)) as [img|] eqn:Himg;
      [| congruence].
    inversion Hu; subst s1; clear Hu.
    unfold redo. cbn.
    case_decide; [| lia].
    case_decide; [| lia].
    replace (historyStep s - 1 + 1) with (historyStep s) by lia.
    rewrite Hcur. unfold putImageData. destruct s; cbn. done.
  Qed.

End History.

(** ** Typed arrays and pixel loops *)

Lemma u8_range (v : Z) : 0 <= u8 v <= 255.
Proof. unfold u8. lia. Qed.

Lemma u8_id (v : Z) : 0 <= v <= 255 -> u8 v = v.
Proof. unfold u8. lia. Qed.

Lemma aget_neg (a : list Z) (i : Z) : i < 0 -> aget a i = None.
Proof. intros. unfold aget. case_decide; [lia | done]. Qed.

Lemma aget_Some_range (a : list Z) (i v : Z) :
  aget a i = Some v -> 0 <= i < Z.of_nat (length a).
Proof.
  unfold aget. case_decide; [| done].
  intros Hl. apply lookup_lt_Some in Hl. lia.
Qed.

Lemma aget_is_Some (a : list Z) (i : Z) :
  0 <= i < Z.of_nat (length a) -> is_Some (aget a i).
Proof.
  intros. unfold aget. case_decide; [| lia].
  apply lookup_lt_is_Some. lia.
Qed.

Lemma aget_None_ge (a : list Z) (i : Z) :
  Z.of_nat (length a) <= i -> aget a i = None.
Proof.
  intros. unfold aget. case_decide; [| done].
  apply lookup_ge_None. lia.
Qed.

Lemma length_aset (a : list Z) (i v : Z) : length (aset a i v) = length a.
Proof. unfold aset. case_decide; [apply length_insert | done]. Qed.

Lemma length_aput (a : list Z) (i : Z) (o : option Z) :
  length (aput a i o) = length a.
Proof. apply length_aset. Qed.

Lemma aget_aset (a : list Z) (i j v : Z) :
  aget (aset a i v) j =
  if decide (i = j /\ 0 <= j < Z.of_nat (length a)) then Some (u8 v) else aget a j.
Proof.
  unfold aget, aset.
  destruct (decide (0 <= j)) as [Hj|Hj]; [| case_decide; [lia | done]].
  destruct (decide (0 <= i)) as [Hi|Hi]; [| case_decide; [lia | done]].
  destruct (decide (i = j)) as [->|Hne].
  - case_decide as Hin.
    + apply list_lookup_insert_eq. lia.
    + rewrite list_insert_ge; [done | lia].
  - case_decide; [lia |]. apply list_lookup_insert_ne. lia.
Qed.

Lemma aget_aput (a : list Z) (i j : Z) (o : option Z) :
  aget (aput a i o) j =
  if decide (i = j /\ 0 <= j < Z.of_nat (length a))
  then Some (u8 (default 0 o)) else aget a j.
Proof. apply aget_aset. Qed.

Lemma aget_replicate (n : nat) (v i : Z) :
  aget (replicate n v) i =
  if decide (0 <= i < Z.of_nat n) then Some v else None.
Proof.
  unfold aget. case_decide as Hi.
  - case_decide.
    + apply lookup_replicate_2. lia.
    + apply lookup_ge_None. rewrite length_replicate. lia.
  - case_decide; [lia | done].
Qed.

Lemma aget_ext (a b : list Z) :
  (forall i, 0 <= i -> aget a i = aget b i) -> a = b.
Proof.
  intros Hab. apply list_eq. intros k.
  specialize (Hab (Z.of_nat k) ltac:(lia)). unfold aget in Hab.
  case_decide; [| lia]. by rewrite Nat2Z.id in Hab.
Qed.

(** Rewriting reads of written arrays, then deciding the index cases. *)
Ltac array_simp :=
  repeat first
    [ rewrite aget_aset | rewrite aget_aput | rewrite aget_replicate
    | rewrite length_aset | rewrite length_aput | rewrite length_replicate ].

Ltac array_cases :=
  array_simp; repeat case_decide; try done; try lia.

Lemma aget_aset_eq (a : list Z) (i v : Z) :
  0 <= i < Z.of_nat (length a) -> aget (aset a i v) i = Some (u8 v).
Proof. intros Hi. rewrite aget_aset. by rewrite decide_True by lia. Qed.

Lemma aget_aset_ne (a : list Z) (i j v : Z) :
  i <> j -> aget (aset a i v) j = aget a j.
Proof. intros Hij. rewrite aget_aset. by rewrite decide_False by lia. Qed.

(** The bytes of a pixel after a chain of writes at known offsets. *)
Ltac array_pixel :=
  unfold aput;
  repeat split;
  repeat first
    [ rewrite aget_aset_ne by lia
    | rewrite aget_aset_eq by (rewrite ?length_aset, ?length_replicate; lia) ];
  first [done | array_cases].

Section PixelFold.
  Context {A : Type} (off : A -> Z) (step : list Z -> A -> list Z).

  (** [step d p] writes only into the four bytes at [off p], and what it
      writes there depends only on those four bytes of [d]. *)
  Hypothesis step_frame : forall d p j,
    ~ (off p <= j <= off p + 3) -> aget (step d p) j = aget d j.

  Hypothesis step_local : forall d d' p,
    (forall j, off p <= j <= off p + 3 -> aget d j = aget d' j) ->
    forall j, off p <= j <= off p + 3 -> aget (step d p) j = aget (step d' p) j.

Lemma fold_pixels_frame (ps : list A) (d : list Z) (j : Z) :
    (forall p, p ∈ ps -> ~ (off p <= j <= off p + 3)) ->
    aget (fold_left step ps d) j = aget d j.
  Proof.
    revert d. induction ps as [|q ps IH]; intros d Hout; [done |].
    cbn [fold_left]. rewrite IH.
    - apply step_frame, Hout. left.
    - intros p Hp. apply Hout. by right.
  Qed.

Lemma fold_pixels_at (ps : list A) (d : list Z) (p : A) (j : Z) :
    (forall q, q ∈ ps -> off q `mod` 4 = 0) ->
    NoDup (off <$> ps) ->
    p ∈ ps ->
    off p <= j <= off p + 3 ->
    aget (fold_left step ps d) j = aget (step d p) j.
  Proof.
    revert d. induction ps as [|q ps IH]; intros d Hal Hnd Hp Hj.
    - by apply elem_of_nil in Hp.
    - cbn [fold_left]. rewrite fmap_cons in Hnd. apply NoDup_cons in Hnd as [Hq Hnd].
      assert (Hdisj : forall r, r ∈ ps -> off r <> off p ->
                 forall k, off p <= k <= off p + 3 -> ~ (off r <= k <= off r + 3)).
      { intros r Hr Hne k Hk.
        pose proof (Hal r ltac:(by right)). pose proof (Hal p Hp).
        Z.div_mod_to_equations. lia. }
      apply elem_of_cons in Hp as [->|Hp].
      + apply fold_pixels_frame. intros r Hr. apply Hdisj; [done | | done].
        intros Heq. apply Hq. rewrite <- Heq. by apply list_elem_of_fmap_2.
      + rewrite IH; [| intros; apply Hal; by right | done | done | done].
        destruct (decide (off q = off p)) as [Heq|Hne].
        * exfalso. apply Hq. rewrite Heq. by apply list_elem_of_fmap_2.
        * apply step_local; [| done]. intros k Hk. apply step_frame.
          pose proof (Hal q ltac:(by left)).
          pose proof (Hal p ltac:(by right)).
          Z.div_mod_to_equations. lia.
  Qed.

Lemma fold_pixels_length (ps : list A) (d : list Z) :
    (forall d p, length (step d p) = length d) ->
    length (fold_left step ps d) = length d.
  Proof.
    intros Hlen. revert d. induction ps as [|q ps IH]; intros d; [done |].
    cbn [fold_left]. by rewrite IH, Hlen.
  Qed.
End PixelFold.

Lemma elem_of_pixel_offsets (n : nat) (i : Z) :
  i ∈ pixel_offsets n <-> 0 <= i < Z.of_nat n /\ i `mod` 4 = 0.
Proof.
  unfold pixel_offsets. rewrite list_elem_of_fmap. split.
  - intros (k & -> & Hk). apply elem_of_seq in Hk.
    pose proof (Nat.Div0.mul_div_le (n + 3) 4).
    split; [lia |]. rewrite Z.mul_comm. apply Z_mod_mult.
  - intros [Hi Hm]. exists (Z.to_nat (i `div` 4)).
    apply Z_div_exact_full_2 in Hm; [| lia].
    split; [lia |].
    apply elem_of_seq. split; [lia |].
    apply (Nat.div_le_lower_bound (n + 3) 4 (S (Z.to_nat (i `div` 4)))); lia.
Qed.

Lemma NoDup_pixel_offsets (n : nat) : NoDup (pixel_offsets n).
Proof.
  unfold pixel_offsets. apply NoDup_fmap_2; [| apply NoDup_seq].
  intros a b. lia.
Qed.

Lemma aget_aset_fmap (a : list Z) (i j v : Z) :
  aget (aset a i v) j =
  if decide (i = j) then (fun _ => u8 v) <$> aget a j else aget a j.
Proof.
  rewrite aget_aset. destruct (decide (i = j)) as [->|Hne].
  - case_decide as Hin.
    + destruct (aget_is_Some a j) as [x Hx]; [lia |]. by rewrite Hx.
    + destruct (decide (0 <= j)).
      * rewrite aget_None_ge; [done | lia].
      * rewrite aget_neg; [done | lia].
  - case_decide; [lia | done].
Qed.

Lemma pixel_at_exists (d : list Z) (i : Z) :
  0 <= i -> i + 3 < Z.of_nat (length d) -> exists p, pixel_at d i p.
Proof.
  intros Hi Hlen.
  destruct (aget_is_Some d i) as [r Hr]; [lia |].
  destruct (aget_is_Some d (i + 1)) as [g Hg]; [lia |].
  destruct (aget_is_Some d (i + 2)) as [b Hb]; [lia |].
  destruct (aget_is_Some d (i + 3)) as [a Ha]; [lia |].
  by exists (r, g, b, a).
Qed.

Lemma pixel_at_inj (d : list Z) (i : Z) (p q : Z * Z * Z * Z) :
  pixel_at d i p -> pixel_at d i q -> p = q.
Proof.
  destruct p as [[[r g] b] a], q as [[[r' g'] b'] a'].
  intros (? & ? & ? & ?) (? & ? & ? & ?). congruence.
Qed.

Lemma pixel_at_range (d : list Z) (i : Z) (p : Z * Z * Z * Z) :
  pixel_at d i p -> 0 <= i /\ i + 3 < Z.of_nat (length d).
Proof.
  destruct p as [[[r g] b] a]. intros (Hr & _ & _ & Ha).
  apply aget_Some_range in Hr, Ha. lia.
Qed.

Section PixelLoop.
  Variable step : list Z -> Z -> list Z.
  Hypothesis step_frame : forall d i j,
    ~ (i <= j <= i + 3) -> aget (step d i) j = aget d j.
  Hypothesis step_local : forall d d' i,
    (forall j, i <= j <= i + 3 -> aget d j = aget d' j) ->
    forall j, i <= j <= i + 3 -> aget (step d i) j = aget (step d' i) j.
  Hypothesis step_length : forall d i, length (step d i) = length d.

Lemma pixel_loop_length (n : nat) (d : list Z) :
    length (fold_left step (pixel_offsets n) d) = length d.
  Proof. by apply fold_pixels_length. Qed.

  (** Every byte of the result is the one the step of its own pixel
      writes on the input array. *)
Lemma pixel_loop_get (d : list Z) (j : Z) :
    0 <= j < Z.of_nat (length d) ->
    aget (fold_left step (pixel_offsets (length d)) d) j =
    aget (step d (4 * (j `div` 4))) j.
  Proof.
    intros Hj.
    apply (fold_pixels_at (fun i => i) step step_frame step_local).
    - intros q Hq. by apply elem_of_pixel_offsets in Hq as [_ ?].
    - rewrite list_fmap_id. apply NoDup_pixel_offsets.
    - apply elem_of_pixel_offsets. split.
      + Z.div_mod_to_equations. lia.
      + rewrite Z.mul_comm. apply Z_mod_mult.
    - Z.div_mod_to_equations. lia.
  Qed.

Lemma pixel_loop_pixel (d : list Z) (i : Z) (p : Z * Z * Z * Z) :
    0 <= i -> i `mod` 4 = 0 -> i + 3 < Z.of_nat (length d) ->
    pixel_at (step d i) i p ->
    pixel_at (fold_left step (pixel_offsets (length d)) d) i p.
  Proof.
    intros Hi Hm Hlen. destruct p as [[[r g] b] a]. unfold pixel_at.
    assert (Hd : forall c, 0 <= c <= 3 -> 4 * ((i + c) `div` 4) = i).
    { intros c Hc. Z.div_mod_to_equations. lia. }
    rewrite !pixel_loop_get by lia.
    rewrite !Hd by lia.
    pose proof (Hd 0 ltac:(lia)) as H0. rewrite Z.add_0_r in H0.
    by rewrite H0.
  Qed.
End PixelLoop.

Ltac step_frame_tac :=
  intros;
  repeat match goal with
         | |- context [if ?b then _ else _] => destruct b
         end;
  rewrite ?aget_aset_fmap; repeat case_decide; first [done | lia].

Ltac step_local_tac Hag :=
  rewrite ?Hag by lia;
  repeat match goal with
         | |- context [if ?b then _ else _] =>
             lazymatch b with
             | decide _ => fail
             | _ => destruct b
             end
         end;
  rewrite ?aget_aset_fmap; repeat case_decide; rewrite ?Hag by lia; done.

Ltac step_length_tac :=
  intros;
  repeat match goal with
         | |- context [if ?b then _ else _] => destruct b
         end;
  by rewrite ?length_aset.

Section StepLemmas.
  Import MaskTools.

Lemma binary_step_frame d i j :
    ~ (i <= j <= i + 3) -> aget (binary_step d i) j = aget d j.
  Proof. unfold binary_step. step_frame_tac. Qed.

Lemma binary_step_local d d' i :
    (forall j, i <= j <= i + 3 -> aget d j = aget d' j) ->
    forall j, i <= j <= i + 3 ->
    aget (binary_step d i) j = aget (binary_step d' i) j.
  Proof. intros Hag j Hj. unfold binary_step. step_local_tac Hag. Qed.

Lemma binary_step_length d i : length (binary_step d i) = length d.
  Proof. unfold binary_step. step_length_tac. Qed.

Lemma green_step_frame theme d i j :
    ~ (i <= j <= i + 3) -> aget (green_step theme d i) j = aget d j.
  Proof. unfold green_step. step_frame_tac. Qed.

Lemma green_step_local theme d d' i :
    (forall j, i <= j <= i + 3 -> aget d j = aget d' j) ->
    forall j, i <= j <= i + 3 ->
    aget (green_step theme d i) j = aget (green_step theme d' i) j.
  Proof. intros Hag j Hj. unfold green_step. step_local_tac Hag. Qed.

Lemma green_step_length theme d i : length (green_step theme d i) = length d.
  Proof. unfold green_step. step_length_tac. Qed.

Lemma invert_step_frame d i j :
    ~ (i <= j <= i + 3) -> aget (AppEnhanced.invert_step d i) j = aget d j.
  Proof. unfold AppEnhanced.invert_step. intros. cbn zeta. step_frame_tac. Qed.

Lemma invert_step_local d d' i :
    (forall j, i <= j <= i + 3 -> aget d j = aget d' j) ->
    forall j, i <= j <= i + 3 ->
    aget (AppEnhanced.invert_step d i) j = aget (AppEnhanced.invert_step d' i) j.
  Proof.
    intros Hag j Hj. unfold AppEnhanced.invert_step. cbn zeta.
    rewrite (Hag i) by lia.
    rewrite ?aget_aset_fmap; repeat case_decide; rewrite ?Hag by lia; done.
  Qed.

Lemma invert_step_length d i : length (AppEnhanced.invert_step d i) = length d.
  Proof. unfold AppEnhanced.invert_step. cbn zeta. by rewrite !length_aset. Qed.

Lemma threshold_step_frame src b i j :
    ~ (i <= j <= i + 3) -> aget (threshold_step src b i) j = aget b j.
  Proof. unfold threshold_step. step_frame_tac. Qed.

Lemma threshold_step_local src b b' i :
    (forall j, i <= j <= i + 3 -> aget b j = aget b' j) ->
    forall j, i <= j <= i + 3 ->
    aget (threshold_step src b i) j = aget (threshold_step src b' i) j.
  Proof. intros Hag j Hj. unfold threshold_step. step_local_tac Hag. Qed.

Lemma threshold_step_length src b i : length (threshold_step src b i) = length b.
  Proof. unfold threshold_step. step_length_tac. Qed.

  (** What the three loops make of one pixel. *)
Lemma getMaskData_pixel (s : t) (i r g b a : Z) :
    i `mod` 4 = 0 ->
    pixel_at (data (maskCanvas s)) i (r, g, b, a) ->
    let v := if bool_decide (50 < g) then 255 else 0 in
    pixel_at (data (getMaskData s)) i (v, v, v, 255).
  Proof.
    intros Hm Hp. pose proof (pixel_at_range _ _ _ Hp) as [Hi Hlen].
    destruct Hp as (Hr & Hg & Hb & Ha). cbn zeta.
    unfold getMaskData, getImageData. cbn [data].
    apply (pixel_loop_pixel _ binary_step_frame binary_step_local); try done.
    unfold binary_step, pixel_at. rewrite Hg. cbn [js_gt].
    destruct (bool_decide (50 < g)); array_pixel.
  Qed.

Lemma convertToGreenOverlay_pixel theme (img : ImageData) (i r g b a : Z) :
    i `mod` 4 = 0 ->
    pixel_at (data img) i (r, g, b, a) ->
    pixel_at (data (convertToGreenOverlay theme img)) i
      (if bool_decide (128 < r)
       then (0, u8 (overlayG theme), u8 (overlayB theme), u8 (overlayA theme))
       else (r, g, b, 0)).
  Proof.
    intros Hm Hp. pose proof (pixel_at_range _ _ _ Hp) as [Hi Hlen].
    destruct Hp as (Hr & Hg & Hb & Ha).
    unfold convertToGreenOverlay. cbn [data].
    apply (pixel_loop_pixel _ (green_step_frame theme) (green_step_local theme));
      try done.
    unfold green_step, pixel_at. rewrite Hr. cbn [js_gt].
    destruct (bool_decide (128 < r)); array_pixel.
  Qed.

Lemma invert_pixel (d : list Z) (i r g b a : Z) :
    i `mod` 4 = 0 ->
    pixel_at d i (r, g, b, a) ->
    pixel_at (fold_left AppEnhanced.invert_step (pixel_offsets (length d)) d) i
      (u8 (255 - r), u8 (255 - r), u8 (255 - r), a).
  Proof.
    intros Hm Hp. pose proof (pixel_at_range _ _ _ Hp) as [Hi Hlen].
    destruct Hp as (Hr & Hg & Hb & Ha).
    apply (pixel_loop_pixel _ invert_step_frame invert_step_local); try done.
    unfold AppEnhanced.invert_step, pixel_at. rewrite Hr. cbn zeta.
    array_pixel.
  Qed.

Lemma createBinaryMask_pixel (img : ImageData) (i r g b a : Z) :
    i `mod` 4 = 0 ->
    pixel_at (data img) i (r, g, b, a) ->
    let v := if bool_decide (128 < r) then 255 else 0 in
    pixel_at (data (createBinaryMask img)) i (v, v, v, 255).
  Proof.
    intros Hm Hp. pose proof (pixel_at_range _ _ _ Hp) as [Hi Hlen].
    destruct Hp as (Hr & Hg & Hb & Ha). cbn zeta.
    unfold createBinaryMask. cbn [data].
    rewrite <- (length_replicate (length (data img)) 0) at 1.
    apply (pixel_loop_pixel _ (threshold_step_frame (data img))
             (threshold_step_local (data img)));
      rewrite ?length_replicate; try done.
    unfold threshold_step, pixel_at. rewrite Hr. cbn [js_gt].
    destruct (bool_decide (128 < r)); array_pixel.
  Qed.

Lemma length_getMaskData (s : t) :
    length (data (getMaskData s)) = length (data (maskCanvas s)).
  Proof.
    unfold getMaskData, getImageData. cbn [data].
    apply pixel_loop_length, binary_step_length.
  Qed.

Lemma length_convertToGreenOverlay theme (img : ImageData) :
    length (data (convertToGreenOverlay theme img)) = length (data img).
  Proof.
    unfold convertToGreenOverlay. cbn [data].
    apply pixel_loop_length, green_step_length.
  Qed.

Lemma length_createBinaryMask (img : ImageData) :
    length (data (createBinaryMask img)) = length (data img).
  Proof.
    unfold createBinaryMask. cbn [data].
    rewrite pixel_loop_length by apply threshold_step_length.
    apply length_replicate.
  Qed.
End StepLemmas.

Lemma aget_of_nat (a : list Z) (k : nat) : aget a (Z.of_nat k) = a !! k.
Proof. unfold aget. case_decide; [by rewrite Nat2Z.id | lia]. Qed.

Lemma createBinaryMask_values (img : ImageData) (j : nat) (v : Z) :
  data (createBinaryMask img) !! j = Some v -> v = 0 \/ v = 255.
Proof.
  intros Hv. rewrite <- aget_of_nat in Hv.
  pose proof (aget_Some_range _ _ _ Hv) as Hj.
  rewrite length_createBinaryMask in Hj.
  unfold createBinaryMask in Hv. cbn [data] in Hv.
  rewrite <- (length_replicate (length (data img)) 0) in Hv at 1.
  rewrite (pixel_loop_get _ (threshold_step_frame (data img))
             (threshold_step_local (data img))) in Hv
    by (rewrite length_replicate; lia).
  assert (Hc : exists c, 0 <= c <= 3 /\
                 Z.of_nat j = 4 * (Z.of_nat j `div` 4) + c).
  { exists (Z.of_nat j `mod` 4). Z.div_mod_to_equations. lia. }
  destruct Hc as (c & Hc & Hjc).
  set (i := 4 * (Z.of_nat j `div` 4)) in *. clearbody i.
  unfold threshold_step in Hv.
  destruct (js_gt (aget (data img) i) 128);
    rewrite !aget_aset, aget_replicate in Hv;
    repeat case_decide; try lia; inversion Hv; auto.
Qed.

(** C6: the buffer exported for download is strictly two-level. Whatever
    the mask canvas holds (tinted, partially transparent or antialiased
    pixels), [createBinaryMask(getMaskData())], which is what both
    [handleDownload] variants write to the file, has the canvas's dimensions,
    holds no value other than 0 and 255, and each of its pixels has three
    equal colour channels and alpha 255. *)
Theorem export_is_binary (mt : MaskTools.t) :
  let img := createBinaryMask (MaskTools.getMaskData mt) in
  (forall app, App.maskTools app = Some mt -> App.handleDownload app = Some img) /\
  (forall app, AppEnhanced.maskTools app = Some mt ->
               AppEnhanced.handleDownload app = Some img) /\
  width img = width (MaskTools.maskCanvas mt) /\
  height img = height (MaskTools.maskCanvas mt) /\
  length (data img) = length (data (MaskTools.maskCanvas mt)) /\
  (forall (j : nat) (v : Z), data img !! j = Some v -> v = 0 \/ v = 255) /\
  (forall k : nat, (4 * k + 3 < length (data img))%nat ->
     exists v, (v = 0 \/ v = 255) /\
       data img !! (4 * k)%nat = Some v /\
       data img !! (4 * k + 1)%nat = Some v /\
       data img !! (4 * k + 2)%nat = Some v /\
       data img !! (4 * k + 3)%nat = Some 255).
Proof.
  cbn zeta. split; [| split; [| split; [| split; [| split; [| split]]]]].
  - intros app Happ. unfold App.handleDownload. by rewrite Happ.
  - intros app Happ. unfold AppEnhanced.handleDownload. by rewrite Happ.
  - done.
  - done.
  - by rewrite length_createBinaryMask, length_getMaskData.
  - apply createBinaryMask_values.
  - intros k Hk. rewrite length_createBinaryMask in Hk.
    destruct (pixel_at_exists (data (MaskTools.getMaskData mt)) (4 * Z.of_nat k))
      as ([[[r g] b] a] & Hp); [lia | lia |].
    apply createBinaryMask_pixel in Hp; [| rewrite Z.mul_comm; apply Z_mod_mult].
    cbn zeta in Hp. destruct Hp as (Hr & Hg & Hb & Ha).
    exists (if bool_decide (128 < r) then 255 else 0).
    split; [case_bool_decide; auto |].
    rewrite <- !aget_of_nat.
    replace (Z.of_nat (4 * k)) with (4 * Z.of_nat k) by lia.
    replace (Z.of_nat (4 * k + 1)) with (4 * Z.of_nat k + 1) by lia.
    replace (Z.of_nat (4 * k + 2)) with (4 * Z.of_nat k + 2) by lia.
    replace (Z.of_nat (4 * k + 3)) with (4 * Z.of_nat k + 3) by lia.
    done.
Qed.

Lemma pixels_eq (d d' : list Z) :
  length d = length d' ->
  Z.of_nat (length d) `mod` 4 = 0 ->
  (forall i, i `mod` 4 = 0 -> 0 <= i -> i + 3 < Z.of_nat (length d) ->
             exists p, pixel_at d i p /\ pixel_at d' i p) ->
  d = d'.
Proof.
  intros Hlen Hm Hpx. apply aget_ext. intros j Hj.
  destruct (decide (j < Z.of_nat (length d))) as [Hin|Hout].
  - destruct (Hpx (4 * (j `div` 4))) as ([[[r g] b] a] & Hp & Hp').
    + rewrite Z.mul_comm. apply Z_mod_mult.
    + Z.div_mod_to_equations. lia.
    + Z.div_mod_to_equations. lia.
    + destruct Hp as (H0 & H1 & H2 & H3), Hp' as (H0' & H1' & H2' & H3').
      assert (Hc : j = 4 * (j `div` 4) \/ j = 4 * (j `div` 4) + 1 \/
                   j = 4 * (j `div` 4) + 2 \/ j = 4 * (j `div` 4) + 3)
        by (Z.div_mod_to_equations; lia).
      set (i := 4 * (j `div` 4)) in *. clearbody i.
      destruct Hc as [-> | [-> | [-> | ->]]]; congruence.
  - rewrite !aget_None_ge; [done | lia | lia].
Qed.

Section Invert.
  Import MaskTools.
  Variable theme : Theme.
  Hypothesis theme_green : 50 < overlayG theme.

  (** The canvas [handleInvert] leaves. *)
Definition inverted_canvas (mt : t) : ImageData :=
    let currentMask := getMaskData mt in
    convertToGreenOverlay theme
      (mkImageData (width currentMask) (height currentMask)
         (fold_left AppEnhanced.invert_step
            (pixel_offsets (length (data currentMask))) (data currentMask))).

Lemma maskCanvas_saveState (s : t) : maskCanvas (saveState s) = maskCanvas s.
  Proof. unfold saveState. by case_decide. Qed.

Lemma handleInvert_canvas (app : AppEnhanced.t) (mt : t) :
    AppEnhanced.maskTools app = Some mt ->
    exists mt', AppEnhanced.maskTools (AppEnhanced.handleInvert theme app) = Some mt' /\
                maskCanvas mt' = inverted_canvas mt.
  Proof.
    intros Hmt. unfold AppEnhanced.handleInvert. rewrite Hmt.
    eexists. split; [done |]. by rewrite maskCanvas_saveState.
  Qed.

Lemma length_inverted_canvas (mt : t) :
    length (data (inverted_canvas mt)) = length (data (maskCanvas mt)).
  Proof.
    unfold inverted_canvas. rewrite length_convertToGreenOverlay. cbn [data].
    rewrite pixel_loop_length by apply invert_step_length.
    apply length_getMaskData.
  Qed.

  (** Inversion flips the reading of every pixel. *)
Lemma inverted_canvas_pixel (mt : t) (i r g b a : Z) :
    i `mod` 4 = 0 ->
    pixel_at (data (maskCanvas mt)) i (r, g, b, a) ->
    exists r' g' b' a',
      pixel_at (data (inverted_canvas mt)) i (r', g', b', a') /\
      bool_decide (50 < g') = negb (bool_decide (50 < g)).
  Proof.
    intros Hm Hp.
    apply getMaskData_pixel in Hp; [| done]. cbn zeta in Hp.
    apply invert_pixel in Hp; [| done].
    apply (convertToGreenOverlay_pixel theme
             (mkImageData (width (getMaskData mt)) (height (getMaskData mt)) _))
      in Hp; [| done].
    fold (inverted_canvas mt) in Hp.
    destruct (bool_decide (50 < g)) eqn:Hg; cbn in Hp.
    - exists 0, 0, 0, 0. split; [done |]. done.
    - exists 0, (u8 (overlayG theme)), (u8 (overlayB theme)), (u8 (overlayA theme)).
      split; [done |]. cbn. apply bool_decide_eq_true. unfold u8. lia.
  Qed.

Lemma getMaskData_inverted_twice (mt mt1 mt2 : t) :
    Z.of_nat (length (data (maskCanvas mt))) `mod` 4 = 0 ->
    maskCanvas mt1 = inverted_canvas mt ->
    maskCanvas mt2 = inverted_canvas mt1 ->
    data (getMaskData mt2) = data (getMaskData mt).
  Proof.
    intros Hwf H1 H2.
    assert (Hl1 : length (data (maskCanvas mt1)) = length (data (maskCanvas mt)))
      by (rewrite H1; apply length_inverted_canvas).
    assert (Hl2 : length (data (maskCanvas mt2)) = length (data (maskCanvas mt)))
      by (rewrite H2, length_inverted_canvas; done).
    apply pixels_eq.
    - by rewrite !length_getMaskData.
    - by rewrite length_getMaskData, Hl2.
    - intros i Hm Hi Hlen. rewrite length_getMaskData, Hl2 in Hlen.
      destruct (pixel_at_exists (data (maskCanvas mt)) i)
        as ([[[r g] b] a] & Hp); [done | done |].
      destruct (inverted_canvas_pixel mt i r g b a Hm Hp)
        as (r1 & g1 & b1 & a1 & Hp1 & Hg1).
      rewrite <- H1 in Hp1.
      destruct (inverted_canvas_pixel mt1 i r1 g1 b1 a1 Hm Hp1)
        as (r2 & g2 & b2 & a2 & Hp2 & Hg2).
      rewrite <- H2 in Hp2.
      apply getMaskData_pixel in Hp, Hp2; try done. cbn zeta in Hp, Hp2.
      rewrite Hg2, Hg1, negb_involutive in Hp2.
      eexists. split; [exact Hp2 | exact Hp].
  Qed.
End Invert.

(** Example states: a one-pixel session with the dark-green theme. *)
Definition example_green : ImageData := mkImageData 1 1 [0; 180; 20; 250].
Definition example_blank : ImageData := mkImageData 1 1 [0; 0; 0; 0].

Definition example_tools : MaskTools.t :=
  commit example_green (MaskTools.create example_blank example_blank).

Definition example_app : AppEnhanced.t :=
  AppEnhanced.mk (Some example_tools) true true false None false 0.

(** C9: inverting twice gives back the original selection. For a mask
    canvas of whole pixels and an overlay colour that reads as selected
    (green above 50, as in every variant of tools.js), two runs of
    [handleInvert] leave a canvas whose binary reading [getMaskData()], and
    with it the exported [createBinaryMask], is that of the original. *)
Theorem invert_involutive (theme : MaskTools.Theme) (app : AppEnhanced.t)
        (mt : MaskTools.t) :
  AppEnhanced.maskTools app = Some mt ->
  wf_image (MaskTools.maskCanvas mt) ->
  50 < MaskTools.overlayG theme ->
  exists mt2,
    AppEnhanced.maskTools
      (AppEnhanced.handleInvert theme (AppEnhanced.handleInvert theme app))
    = Some mt2 /\
    MaskTools.getMaskData mt2 = MaskTools.getMaskData mt /\
    createBinaryMask (MaskTools.getMaskData mt2)
    = createBinaryMask (MaskTools.getMaskData mt).
Proof.
  intros Hmt (Hw & Hh & Hlen) Hgreen.
  destruct (handleInvert_canvas theme app mt Hmt) as (mt1 & Hmt1 & Hc1).
  destruct (handleInvert_canvas theme _ mt1 Hmt1) as (mt2 & Hmt2 & Hc2).
  exists mt2. split; [exact Hmt2 |].
  assert (Heq : MaskTools.getMaskData mt2 = MaskTools.getMaskData mt).
  { assert (Hd : data (MaskTools.getMaskData mt2) = data (MaskTools.getMaskData mt)).
    { apply (getMaskData_inverted_twice theme Hgreen mt mt1 mt2); try done.
      rewrite Hlen. replace (4 * width (MaskTools.maskCanvas mt) *
                             height (MaskTools.maskCanvas mt))
        with (width (MaskTools.maskCanvas mt) *
              height (MaskTools.maskCanvas mt) * 4) by lia.
      apply Z_mod_mult. }
    assert (Hdim : forall m, width (inverted_canvas theme m)
                             = width (MaskTools.maskCanvas m) /\
                             height (inverted_canvas theme m)
                             = height (MaskTools.maskCanvas m)) by done.
    unfold MaskTools.getMaskData, getImageData in *. cbn [data] in Hd.
    rewrite Hd. f_equal.
    - rewrite Hc2, (proj1 (Hdim mt1)), Hc1. apply Hdim.
    - rewrite Hc2, (proj2 (Hdim mt1)), Hc1. apply Hdim. }
  split; [exact Heq | by rewrite Heq].
Qed.

Lemma invert_involutive_witness :
  exists mt2,
    AppEnhanced.maskTools
      (AppEnhanced.handleInvert MaskTools.dark
         (AppEnhanced.handleInvert MaskTools.dark example_app))
    = Some mt2 /\
    MaskTools.getMaskData mt2 = MaskTools.getMaskData example_tools /\
    createBinaryMask (MaskTools.getMaskData mt2)
    = createBinaryMask (MaskTools.getMaskData example_tools).
Proof.
  apply (invert_involutive MaskTools.dark example_app example_tools).
  - reflexivity.
  - vm_compute. repeat split; discriminate.
  - vm_compute. reflexivity.
Defined.

(** C4: undo followed by redo is a round trip. After any sequence of
    committed mutations from the initial state, if [undo()] returns true
    then the [redo()] that follows returns true as well and restores the
    mask canvas (indeed the whole state) that preceded the undo. *)
Theorem undo_redo_round_trip (C : Z) (mask overlay : ImageData)
        (ms : list ImageData) (s1 : MaskTools.t) :
  1 <= C ->
  let s := commits ms (MaskTools.create_with C mask overlay) in
  MaskTools.undo s = Some (s1, true) ->
  exists s2, MaskTools.redo s1 = Some (s2, true) /\
             MaskTools.maskCanvas s2 = MaskTools.maskCanvas s /\ s2 = s.
Proof.
  intros HC s Hundo.
  destruct (create_with_inv C mask overlay HC) as (Hinv & Htip & _).
  destruct (commits_inv ms _ Hinv Htip) as (Hinv' & _).
  exists s. split; [| done].
  by apply undo_redo_inv.
Qed.

Lemma undo_redo_round_trip_witness :
  exists s2,
    MaskTools.redo
      (MaskTools.set_maskCanvas example_blank
         (MaskTools.set_history [example_blank; example_green] 0 example_tools))
    = Some (s2, true) /\
    MaskTools.maskCanvas s2 = MaskTools.maskCanvas example_tools /\
    s2 = example_tools.
Proof.
  apply (undo_redo_round_trip 20 example_blank example_blank [example_green]).
  - lia.
  - reflexivity.
Defined.

(** C5: the history is bounded. From the initial state, which holds the
    snapshot of the empty mask, [N] commits with capacity [C >= 1] leave
    [min (N + 1) C] snapshots, and the cursor is the index of the last one,
    which is the current canvas. A commit on a full history drops the oldest
    snapshot, appends the new one and leaves the cursor where it is, on the
    new snapshot. *)
Theorem history_bounds (C : Z) (mask overlay : ImageData)
        (ms : list ImageData) :
  1 <= C ->
  let s := commits ms (MaskTools.create_with C mask overlay) in
  Z.of_nat (length (MaskTools.history s)) = Z.min (Z.of_nat (length ms) + 1) C /\
  0 <= MaskTools.historyStep s < Z.of_nat (length (MaskTools.history s)) /\
  MaskTools.historyStep s = Z.of_nat (length (MaskTools.history s)) - 1 /\
  MaskTools.history s !! Z.to_nat (MaskTools.historyStep s)
    = Some (MaskTools.maskCanvas s) /\
  forall m : ImageData,
    Z.of_nat (length (MaskTools.history s)) = C ->
    MaskTools.history (commit m s) = tail (MaskTools.history s) ++ [m] /\
    MaskTools.historyStep (commit m s) = MaskTools.historyStep s /\
    MaskTools.history (commit m s) !! Z.to_nat (MaskTools.historyStep (commit m s))
      = Some m.
Proof.
  intros HC s.
  destruct (create_with_inv C mask overlay HC) as (Hinv & Htip & Hcap & Hone).
  destruct (commits_inv ms _ Hinv Htip) as (Hinv' & Htip' & Hcap' & Hlen).
  fold s in Hinv', Htip', Hcap', Hlen.
  rewrite Hone, Hcap in Hlen. cbn [length] in Hlen.
  destruct Hinv' as (Hc1 & Hstep & Hle & Hcur).
  split; [lia |]. split; [done |]. split; [exact Htip' |]. split; [done |].
  intros m Hfull. unfold commit.
  destruct (saveState_spec (MaskTools.set_maskCanvas m s)
              ltac:(cbn; lia) ltac:(cbn; lia) ltac:(cbn; lia))
    as (_ & _ & _ & _ & Hlast & _ & Hevict).
  cbn in Hevict, Hlast. unfold at_tip in Htip'.
  destruct Hevict as [Hh Hs]; [lia |].
  rewrite Hs, Hh. split; [done |]. split; [done |].
  rewrite Hs, Hh in Hlast. done.
Qed.

Lemma history_bounds_witness :
  let s := commits [example_green; example_blank]
             (MaskTools.create_with 2 example_blank example_blank) in
  Z.of_nat (length (MaskTools.history s)) = Z.min (Z.of_nat 2 + 1) 2 /\
  0 <= MaskTools.historyStep s < Z.of_nat (length (MaskTools.history s)) /\
  MaskTools.historyStep s = Z.of_nat (length (MaskTools.history s)) - 1 /\
  MaskTools.history s !! Z.to_nat (MaskTools.historyStep s)
    = Some (MaskTools.maskCanvas s) /\
  forall m : ImageData,
    Z.of_nat (length (MaskTools.history s)) = 2 ->
    MaskTools.history (commit m s) = tail (MaskTools.history s) ++ [m] /\
    MaskTools.historyStep (commit m s) = MaskTools.historyStep s /\
    MaskTools.history (commit m s) !! Z.to_nat (MaskTools.historyStep (commit m s))
      = Some m.
Proof.
  apply (history_bounds 2 example_blank example_blank
           [example_green; example_blank]).
  lia.
Defined.

(** Scenario C on the reference canvas: the lasso [(1,1),(1,5),(5,5),(5,1)]
    selects the pixels whose centre lies inside the square. *)
Example lasso_square_reference :
  let s0 := MaskTools.create (newImageData 6 6) (newImageData 6 6) in
  let s1 := MaskTools.mk (MaskTools.maskCanvas s0) (MaskTools.overlayCanvas s0)
              MaskTools.Lasso (MaskTools.history s0) (MaskTools.historyStep s0)
              (MaskTools.maxHistorySize s0)
              [mkPoint 1 1; mkPoint 1 5; mkPoint 5 5; mkPoint 5 1] true in
  let s2 := MaskTools.completeLasso MaskTools.dark s1 in
  aget (data (MaskTools.getMaskData s2)) (4 * pixel_index 6 2 3) = Some 255 /\
  aget (data (MaskTools.getMaskData s2)) (4 * pixel_index 6 0 3) = Some 0 /\
  length (MaskTools.history s2) = 2%nat /\
  MaskTools.lassoPoints s2 = [].
Proof. vm_compute. repeat split. Qed.

(** On the reference canvas the erasing lasso over the square just filled
    erases it: it fills with the opaque style of the context under
    destination-out, and the pixels inside read as unselected again. *)
Example lasso_erase_reference :
  let s0 := MaskTools.create (newImageData 6 6) (newImageData 6 6) in
  let square := [mkPoint 1 1; mkPoint 1 5; mkPoint 5 5; mkPoint 5 1] in
  let s1 := MaskTools.mk (MaskTools.maskCanvas s0) (MaskTools.overlayCanvas s0)
              MaskTools.Lasso (MaskTools.history s0) (MaskTools.historyStep s0)
              (MaskTools.maxHistorySize s0) square true in
  let s2 := MaskTools.completeLasso MaskTools.dark s1 in
  let s3 := MaskTools.mk (MaskTools.maskCanvas s2) (MaskTools.overlayCanvas s2)
              MaskTools.LassoErase (MaskTools.history s2) (MaskTools.historyStep s2)
              (MaskTools.maxHistorySize s2) square true in
  let s4 := MaskTools.completeLasso MaskTools.dark s3 in
  aget (data (MaskTools.getMaskData s2)) (4 * pixel_index 6 2 3) = Some 255 /\
  aget (data (MaskTools.getMaskData s4)) (4 * pixel_index 6 2 3) = Some 0 /\
  MaskTools.maskCanvas s4 = MaskTools.maskCanvas s0 /\
  length (MaskTools.history s4) = 3%nat.
Proof. vm_compute. repeat split. Qed.

(** ** The lasso *)

Definition example_lasso : MaskTools.t :=
  MaskTools.mk example_green example_blank MaskTools.LassoErase
    [example_blank; example_green] 1 20 [mkPoint 0 0; mkPoint 1 0] true.

(** C8: completing a lasso of fewer than three vertices is a silent
    no-op. [completeLasso] then only cancels the lasso: the mask canvas, the
    history and its cursor are untouched, the polygon is discarded and the
    lasso is no longer active; the function returns normally. The double
    click that completes a lasso or an erasing lasso does exactly this. *)
Theorem lasso_short_is_noop `{Canvas2D} (theme : MaskTools.Theme)
        (s : MaskTools.t) :
  (length (MaskTools.lassoPoints s) < 3)%nat ->
  let s' := MaskTools.completeLasso theme s in
  MaskTools.maskCanvas s' = MaskTools.maskCanvas s /\
  MaskTools.history s' = MaskTools.history s /\
  MaskTools.historyStep s' = MaskTools.historyStep s /\
  MaskTools.maxHistorySize s' = MaskTools.maxHistorySize s /\
  MaskTools.currentTool s' = MaskTools.currentTool s /\
  MaskTools.lassoPoints s' = [] /\
  MaskTools.isLassoActive s' = false /\
  ((MaskTools.currentTool s = MaskTools.Lasso \/
    MaskTools.currentTool s = MaskTools.LassoErase) ->
   MaskTools.isLassoActive s = true ->
   MaskTools.handleDoubleClick theme s = s').
Proof.
  intros Hshort. cbn zeta. unfold MaskTools.completeLasso.
  case_decide; [| lia]. cbn.
  repeat split.
  intros Htool Hactive. unfold MaskTools.handleDoubleClick.
  rewrite Hactive, bool_decide_eq_true_2 by done. cbn.
  unfold MaskTools.completeLasso. case_decide; [done | lia].
Qed.

Lemma lasso_short_is_noop_witness :
  let s' := MaskTools.completeLasso MaskTools.dark example_lasso in
  MaskTools.maskCanvas s' = MaskTools.maskCanvas example_lasso /\
  MaskTools.history s' = MaskTools.history example_lasso /\
  MaskTools.historyStep s' = MaskTools.historyStep example_lasso /\
  MaskTools.maxHistorySize s' = MaskTools.maxHistorySize example_lasso /\
  MaskTools.currentTool s' = MaskTools.currentTool example_lasso /\
  MaskTools.lassoPoints s' = [] /\
  MaskTools.isLassoActive s' = false /\
  ((MaskTools.currentTool example_lasso = MaskTools.Lasso \/
    MaskTools.currentTool example_lasso = MaskTools.LassoErase) ->
   MaskTools.isLassoActive example_lasso = true ->
   MaskTools.handleDoubleClick MaskTools.dark example_lasso = s').
Proof.
  apply (lasso_short_is_noop MaskTools.dark example_lasso).
  cbn. lia.
Defined.

(** ** The flood fill *)

Section FillTermination.
  Import SegmentationCC.
  Variables (d : list Z) (w h : Z) (targetClass : option Z).
  Hypothesis w_nonneg : 0 <= w.
  Hypothesis h_nonneg : 0 <= h.

Definition visited_in_range (st : FillState) : Prop :=
    forall idx, idx ∈ visited st -> 0 <= idx < w * h.

  (** Four times the number of pixels not yet visited, plus the length of
      the queue: every iteration makes it smaller. *)
Definition fill_measure (st : FillState) : nat :=
    4 * (Z.to_nat (w * h) - size (visited st)) + length (queue st).

Lemma index_in_range (x y : Z) :
    0 <= x < w -> 0 <= y < h -> 0 <= y * w + x < w * h.
  Proof using w_nonneg h_nonneg. intros Hx Hy. nia. Qed.

Lemma size_in_range (V : gset Z) :
    (forall idx, idx ∈ V -> 0 <= idx < w * h) -> (size V <= Z.to_nat (w * h))%nat.
  Proof using w_nonneg h_nonneg.
    intros HV.
    assert (Hsub : V ⊆ list_to_set (seqZ 0 (w * h))).
    { intros idx Hidx. apply elem_of_list_to_set, elem_of_seqZ.
      specialize (HV idx Hidx). lia. }
    apply subseteq_size in Hsub.
    rewrite size_list_to_set in Hsub by apply NoDup_seqZ.
    rewrite length_seqZ in Hsub. done.
  Qed.

  (** What one iteration does: the entry is discarded, or its index is
      fresh, is marked visited, and at most four entries are pushed. *)
Lemma fill_body_cases (x y : Z) (rest : list (Z * Z)) (st : FillState) :
    let st' := fill_body d w h targetClass x y rest st in
    (visited st' = visited st /\ queue st' = rest /\
     maskArray st' = maskArray st /\
     ((x < 0 \/ w <= x \/ y < 0 \/ h <= y) \/ y * w + x ∈ visited st)) \/
    (0 <= x < w /\ 0 <= y < h /\ (y * w + x ∉ visited st) /\
     visited st' = {[y * w + x]} ∪ visited st /\
     ((js_same (aget d ((y * w + x) * 4)) targetClass = false /\
       queue st' = rest /\ maskArray st' = maskArray st) \/
      (js_same (aget d ((y * w + x) * 4)) targetClass = true /\
       queue st' = rest ++ [(x + 1, y); (x - 1, y); (x, y + 1); (x, y - 1)] /\
       maskArray st' =
         aset (aset (aset (aset (maskArray st) ((y * w + x) * 4) 255)
                       ((y * w + x) * 4 + 1) 255)
                 ((y * w + x) * 4 + 2) 255)
           ((y * w + x) * 4 + 3) 255))).
  Proof using w_nonneg h_nonneg.
    cbn zeta. unfold fill_body.
    destruct (decide (x < 0 \/ w <= x \/ y < 0 \/ h <= y)) as [Hout|Hin].
    { left. cbn. auto. }
    destruct (decide (y * w + x ∈ visited st)) as [Hseen|Hfresh].
    { left. cbn. auto. }
    right. split; [lia |]. split; [lia |]. split; [done |].
    destruct (js_same (aget d ((y * w + x) * 4)) targetClass) eqn:Hc; cbn; auto.
  Qed.

Lemma fill_body_in_range (x y : Z) (rest : list (Z * Z)) (st : FillState) :
    visited_in_range st ->
    visited_in_range (fill_body d w h targetClass x y rest st).
  Proof using w_nonneg h_nonneg.
    intros Hr.
    destruct (fill_body_cases x y rest st)
      as [(Hv & _) | (Hx & Hy & _ & Hv & _)];
      unfold visited_in_range; rewrite Hv; [done |].
    intros idx Hidx. apply elem_of_union in Hidx as [Hidx|Hidx]; [| by apply Hr].
    apply elem_of_singleton in Hidx as ->. by apply index_in_range.
  Qed.

Lemma fill_body_decreases (x y : Z) (rest : list (Z * Z)) (st : FillState) :
    visited_in_range st ->
    queue st = (x, y) :: rest ->
    (fill_measure (fill_body d w h targetClass x y rest st) < fill_measure st)%nat.
  Proof using w_nonneg h_nonneg.
    intros Hr Hq.
    pose proof (fill_body_in_range x y rest st Hr) as Hr'.
    apply size_in_range in Hr'.
    unfold fill_measure. rewrite Hq. cbn [length].
    destruct (fill_body_cases x y rest st)
      as [(Hv & Hq' & _) | (Hx & Hy & Hfresh & Hv & Hq')].
    - rewrite Hv, Hq'. lia.
    - rewrite Hv in Hr' |- *.
      rewrite size_union in Hr' |- * by (by apply disjoint_singleton_l).
      rewrite size_singleton in Hr' |- *.
      destruct Hq' as [(_ & -> & _) | (_ & -> & _)];
        rewrite ?length_app; cbn [length]; lia.
  Qed.

Lemma fill_loop_drains (fuel : nat) (st : FillState) :
    visited_in_range st ->
    (fill_measure st <= fuel)%nat ->
    exists st', fill_loop d w h targetClass fuel st = Some st' /\ queue st' = [].
  Proof using w_nonneg h_nonneg.
    revert st. induction fuel as [|fuel IH]; intros st Hr Hm.
    - unfold fill_measure in Hm.
      destruct (queue st) as [|p rest] eqn:Hq; [| cbn in Hm; lia].
      exists st. cbn. by rewrite Hq.
    - cbn [fill_loop]. destruct (queue st) as [|[x y] rest] eqn:Hq.
      + by exists st.
      + apply IH.
        * by apply fill_body_in_range.
        * pose proof (fill_body_decreases x y rest st Hr Hq). lia.
  Qed.

Lemma fill_start_measure (m : list Z) (sx sy : Z) :
    visited_in_range (fill_start m sx sy) /\
    (fill_measure (fill_start m sx sy) <= fill_fuel w h)%nat.
  Proof using w_nonneg h_nonneg.
    split.
    - intros idx Hidx. cbn in Hidx. set_solver.
    - unfold fill_measure, fill_fuel. cbn. rewrite size_empty. lia.
  Qed.
End FillTermination.

(** C10: the flood fill terminates. From any seed, on a buffer of any
    contents, the [while] loop of [_findConnectedComponent] empties its queue
    within [4 * width * height + 1] iterations, so the function returns.
    Each iteration pops one entry; the entry is discarded when it is out of
    bounds or its index was visited, otherwise its index is fresh, is added
    to the visited set and at most four entries are pushed; and the measure
    [fill_measure] strictly decreases. *)
Theorem flood_fill_terminates (d m : list Z) (w h : Z) (targetClass : option Z)
        (startX startY : Z) :
  0 <= w -> 0 <= h ->
  (exists st,
     SegmentationCC.fill_loop d w h targetClass (SegmentationCC.fill_fuel w h)
       (SegmentationCC.fill_start m startX startY) = Some st /\
     SegmentationCC.queue st = [] /\
     SegmentationCC._findConnectedComponent d w h targetClass m startX startY
     = Some (SegmentationCC.maskArray st)) /\
  (forall (st : SegmentationCC.FillState) (x y : Z) (rest : list (Z * Z)),
     visited_in_range w h st ->
     SegmentationCC.queue st = (x, y) :: rest ->
     let st' := SegmentationCC.fill_body d w h targetClass x y rest st in
     visited_in_range w h st' /\
     (fill_measure w h st' < fill_measure w h st)%nat /\
     ((SegmentationCC.visited st' = SegmentationCC.visited st /\
       SegmentationCC.queue st' = rest) \/
      ((y * w + x ∉ SegmentationCC.visited st) /\
       SegmentationCC.visited st' = {[y * w + x]} ∪ SegmentationCC.visited st /\
       (length (SegmentationCC.queue st') <= length rest + 4)%nat))).
Proof.
  intros Hw Hh. split.
  - destruct (fill_start_measure w h Hw Hh m startX startY) as [Hr Hm].
    destruct (fill_loop_drains d w h targetClass Hw Hh _ _ Hr Hm) as (st & Hst & Hq).
    exists st. split; [done |]. split; [done |].
    unfold SegmentationCC._findConnectedComponent. by rewrite Hst.
  - intros st x y rest Hr Hq. cbn zeta.
    split; [by apply fill_body_in_range |].
    split; [by apply fill_body_decreases |].
    destruct (fill_body_cases d w h targetClass Hw Hh x y rest st)
      as [(Hv & Hq' & _) | (Hx & Hy & Hfresh & Hv & Hq')].
    + left. done.
    + right. split; [done |]. split; [done |].
      destruct Hq' as [(_ & -> & _) | (_ & -> & _)];
        rewrite ?length_app; cbn [length]; lia.
Qed.

Lemma pixel_index_inj (w x y x' y' : Z) :
  0 <= x < w -> 0 <= x' < w -> y * w + x = y' * w + x' -> x = x' /\ y = y'.
Proof.
  intros Hx Hx' Heq.
  assert (y = y') by nia. subst. lia.
Qed.

Section FillCorrect.
  Import SegmentationCC.
  Variables (img : ImageData) (sx sy : Z).
  Hypothesis img_wf : wf_image img.
  Hypothesis seed_in : in_bounds img sx sy.

  Local Abbreviation w := (width img).
  Local Abbreviation h := (height img).
  Local Abbreviation d := (data img).
  Local Abbreviation target := (class_at img sx sy).

  (** The pixel was visited and has the seed's class. *)
Definition painted (V : gset Z) (x y : Z) : bool :=
    bool_decide (y * w + x ∈ V) && js_same (class_at img x y) target.

Definition fill_inv (st : FillState) : Prop :=
    visited_in_range w h st /\
    (forall x y, (x, y) ∈ queue st -> in_bounds img x y ->
                 class_at img x y = target -> connected img sx sy x y) /\
    (forall x y, in_bounds img x y -> y * w + x ∈ visited st ->
                 class_at img x y = target ->
                 connected img sx sy x y /\
                 forall x' y', adjacent4 x y x' y' ->
                   (x', y') ∈ queue st \/ ~ in_bounds img x' y' \/
                   y' * w + x' ∈ visited st) /\
    ((sx, sy) ∈ queue st \/ sy * w + sx ∈ visited st) /\
    Z.of_nat (length (maskArray st)) = 4 * w * h /\
    (forall x y c, in_bounds img x y -> 0 <= c <= 3 ->
       aget (maskArray st) ((y * w + x) * 4 + c)
       = Some (if painted (visited st) x y then 255 else 0)).

Lemma js_same_true (a b : option Z) : js_same a b = true <-> a = b.
  Proof. unfold js_same. apply bool_decide_eq_true. Qed.

Lemma fill_inv_start :
    fill_inv (fill_start (data (newImageData w h)) sx sy).
  Proof using img_wf seed_in.
    destruct img_wf as (Hw & Hh & Hlen).
    unfold fill_inv, fill_start. cbn.
    split; [intros idx Hidx; set_solver |].
    split.
    { intros x y Hxy Hin Hc. apply list_elem_of_singleton in Hxy.
      inversion Hxy; subst. by constructor. }
    split; [intros x y _ Hv; set_solver |].
    split; [left; apply list_elem_of_singleton; done |].
    split; [rewrite length_replicate; lia |].
    intros x y c [Hx Hy] Hc. rewrite aget_replicate.
    pose proof (index_in_range w h Hw Hh x y Hx Hy).
    case_decide; [| lia].
    unfold painted. rewrite bool_decide_eq_false_2 by set_solver. done.
  Qed.

Lemma painted_other (V : gset Z) (x y x0 y0 : Z) :
    in_bounds img x y -> in_bounds img x0 y0 ->
    (x0, y0) <> (x, y) ->
    painted ({[y * w + x]} ∪ V) x0 y0 = painted V x0 y0.
  Proof.
    intros [Hx Hy] [Hx0 Hy0] Hne. unfold painted. f_equal.
    apply bool_decide_ext. split; [| intros; apply elem_of_union; by right].
    intros Hin. apply elem_of_union in Hin as [Hin|Hin]; [| done].
    apply elem_of_singleton in Hin.
    apply pixel_index_inj in Hin as [-> ->]; done.
  Qed.

Lemma fill_inv_body (x y : Z) (rest : list (Z * Z)) (st : FillState) :
    fill_inv st ->
    queue st = (x, y) :: rest ->
    fill_inv (fill_body d w h target x y rest st).
  Proof using img_wf seed_in.
    intros (Hr & Hqs & Hvs & Hseed & Hlen & Hmask) Hq.
    destruct img_wf as (Hw & Hh & _).
    pose proof (fill_body_in_range d w h target Hw Hh x y rest st Hr) as Hr'.
    assert (Hpop : forall a b, (a, b) ∈ queue st -> (a, b) = (x, y) \/ (a, b) ∈ rest).
    { intros a b Hab. rewrite Hq in Hab. by apply elem_of_cons in Hab. }
    assert (Hrest : forall p, p ∈ rest -> p ∈ queue st).
    { intros p Hp. rewrite Hq. by right. }
    destruct (fill_body_cases d w h target Hw Hh x y rest st)
      as [(Hv & Hq' & Hm & Hwhy) | (Hx & Hy & Hfresh & Hv & Hcase)].
    - (* the entry is discarded *)
      unfold fill_inv. rewrite Hv, Hq', Hm.
      split; [done |]. split; [intros a b Hab; apply Hqs, Hrest, Hab |].
      split.
      { intros a b Hin Hvis Hc. destruct (Hvs a b Hin Hvis Hc) as [Hconn Hcl].
        split; [done |]. intros a' b' Hadj.
        destruct (Hcl a' b' Hadj) as [Hab | [Hab | Hab]]; auto.
        apply Hpop in Hab as [Hab | Hab]; auto.
        inversion Hab; subst a' b'.
        destruct Hwhy as [Hout | Hseen]; [| auto].
        right; left. unfold in_bounds. lia. }
      split; [| done].
      destruct Hseed as [Hs | Hs]; [| auto].
      apply Hpop in Hs as [Hs | Hs]; auto.
      inversion Hs; subst x y.
      destruct Hwhy as [Hout | Hseen]; [| auto].
      destruct seed_in. lia.
    - (* the entry is a fresh pixel *)
      assert (Hin : in_bounds img x y) by done.
      assert (Hvis' : forall a b, in_bounds img a b ->
                 b * w + a ∈ ({[y * w + x]} ∪ visited st : gset Z) ->
                 (a, b) = (x, y) \/ b * w + a ∈ visited st).
      { intros a b [Ha Hb] Hab. apply elem_of_union in Hab as [Hab | Hab]; auto.
        apply elem_of_singleton in Hab.
        apply pixel_index_inj in Hab as [-> ->]; auto. }
      destruct Hcase as [(Hother & Hq' & Hm) | (Hsame & Hq' & Hm)].
      + (* of another class: visited, not painted *)
        unfold fill_inv. rewrite Hv, Hq', Hm.
        split; [exact Hr' |].
        split; [intros a b Hab; apply Hqs, Hrest, Hab |].
        split.
        { intros a b Hab Hvis Hc.
          apply Hvis' in Hvis as [Heq | Hvis]; [| | done].
          { inversion Heq; subst a b. fold (pixel_index w x y) in Hother.
            fold (class_at img x y) in Hother.
            apply js_same_true in Hc. congruence. }
          destruct (Hvs a b Hab Hvis Hc) as [Hconn Hcl].
          split; [done |]. intros a' b' Hadj.
          destruct (Hcl a' b' Hadj) as [Hn | [Hn | Hn]]; auto.
          - apply Hpop in Hn as [Hn | Hn]; auto.
            inversion Hn; subst a' b'. right; right. set_solver.
          - right; right. set_solver. }
        split.
        { destruct Hseed as [Hs | Hs]; [| right; set_solver].
          apply Hpop in Hs as [Hs | Hs]; auto.
          inversion Hs; subst x y. right. set_solver. }
        split; [done |].
        intros a b c Hab Hc. rewrite Hmask by done. f_equal.
        destruct (decide ((a, b) = (x, y))) as [Heq | Hne].
        * inversion Heq; subst a b. unfold painted.
          fold (pixel_index w x y) in Hother. fold (class_at img x y) in Hother.
          rewrite Hother. by rewrite !andb_false_r.
        * by rewrite painted_other.
      + (* of the seed's class: painted, neighbours pushed *)
        fold (pixel_index w x y) in Hsame. fold (class_at img x y) in Hsame.
        assert (Hclass : class_at img x y = target) by by apply js_same_true.
        assert (Hconn : connected img sx sy x y).
        { apply Hqs; [| done | done]. rewrite Hq. by left. }
        unfold fill_inv. rewrite Hv, Hq', Hm.
        split; [exact Hr' |].
        split.
        { intros a b Hab Hin' Hc. apply elem_of_app in Hab as [Hab | Hab].
          - apply Hqs; [by apply Hrest | done | done].
          - apply (connected_step img sx sy x y a b); try done.
            unfold adjacent4.
            repeat (apply elem_of_cons in Hab as [Hab | Hab];
                    [inversion Hab; subst; lia |]).
            by apply elem_of_nil in Hab. }
        split.
        { intros a b Hab Hvis Hc.
          apply Hvis' in Hvis as [Heq | Hvis]; [| | done].
          - inversion Heq; subst a b. split; [done |].
            intros a' b' Hadj. left. apply elem_of_app. right.
            destruct Hadj as [[-> ->] | [[-> ->] | [[-> ->] | [-> ->]]]];
              set_solver.
          - destruct (Hvs a b Hab Hvis Hc) as [Hconn' Hcl].
            split; [done |]. intros a' b' Hadj.
            destruct (Hcl a' b' Hadj) as [Hn | [Hn | Hn]]; auto.
            + apply Hpop in Hn as [Hn | Hn].
              * inversion Hn; subst a' b'. right; right. set_solver.
              * left. apply elem_of_app. by left.
            + right; right. set_solver. }
        split.
        { destruct Hseed as [Hs | Hs]; [| right; set_solver].
          apply Hpop in Hs as [Hs | Hs].
          - inversion Hs; subst x y. right. set_solver.
          - left. apply elem_of_app. by left. }
        split; [by rewrite !length_aset |].
        intros a b c Hab Hc.
        pose proof (index_in_range w h Hw Hh x y Hx Hy) as Hidx.
        destruct (decide ((a, b) = (x, y))) as [Heq | Hne].
        * inversion Heq; subst a b.
          assert (Hp : painted ({[y * w + x]} ∪ visited st) x y = true).
          { unfold painted. rewrite Hsame, andb_true_r.
            apply bool_decide_eq_true. set_solver. }
          rewrite Hp. rewrite !aget_aset, !length_aset.
          repeat case_decide; try done; lia.
        * rewrite painted_other by done.
          rewrite <- (Hmask a b c Hab Hc).
          assert (b * w + a <> y * w + x).
          { intros Heq. destruct Hab.
            apply pixel_index_inj in Heq as [-> ->]; done. }
          rewrite !aget_aset. repeat case_decide; try done; lia.
  Qed.

Lemma fill_inv_loop (fuel : nat) (st st' : FillState) :
    fill_inv st ->
    fill_loop d w h target fuel st = Some st' ->
    fill_inv st' /\ queue st' = [].
  Proof using img_wf seed_in.
    revert st. induction fuel as [|fuel IH]; intros st Hinv Hrun.
    - cbn in Hrun. destruct (queue st) as [|[x y] rest] eqn:Hq; [| done].
      by inversion Hrun; subst.
    - cbn [fill_loop] in Hrun. destruct (queue st) as [|[x y] rest] eqn:Hq.
      + by inversion Hrun; subst.
      + apply (IH _ (fill_inv_body x y rest st Hinv Hq) Hrun).
  Qed.

Lemma connected_class (x y : Z) :
    connected img sx sy x y -> in_bounds img x y /\ class_at img x y = target.
  Proof. induction 1; auto. Qed.

  (** With the queue empty the visited pixels of the seed's class are
      exactly the connected ones. *)
Lemma fill_inv_complete (st : FillState) (x y : Z) :
    fill_inv st -> queue st = [] ->
    connected img sx sy x y -> y * w + x ∈ visited st.
  Proof.
    intros (_ & _ & Hvs & Hseed & _) Hq. induction 1 as [| x y x' y' Hc IH Hadj Hin Hcl].
    - destruct Hseed as [Hs | Hs]; [| done].
      rewrite Hq in Hs. by apply elem_of_nil in Hs.
    - destruct (connected_class x y Hc) as [Hin0 Hcl0].
      destruct (Hvs x y Hin0 IH Hcl0) as [_ Hclose].
      destruct (Hclose x' y' Hadj) as [Hn | [Hn | Hn]]; [| done | done].
      rewrite Hq in Hn. by apply elem_of_nil in Hn.
  Qed.

Lemma fill_result (m : list Z) :
    _findConnectedComponent d w h target (data (newImageData w h)) sx sy = Some m ->
    Z.of_nat (length m) = 4 * w * h /\
    forall x y c, in_bounds img x y -> 0 <= c <= 3 ->
      aget m ((y * w + x) * 4 + c) = Some 255 /\ connected img sx sy x y \/
      aget m ((y * w + x) * 4 + c) = Some 0 /\ ~ connected img sx sy x y.
  Proof using img_wf seed_in.
    unfold _findConnectedComponent. intros Hrun.
    destruct (fill_loop d w h target (fill_fuel w h)
                (fill_start (data (newImageData w h)) sx sy)) as [st|] eqn:Hloop;
      [| done].
    cbn in Hrun. inversion Hrun; subst m. clear Hrun.
    destruct (fill_inv_loop _ _ _ fill_inv_start Hloop) as [Hinv Hq].
    pose proof Hinv as (_ & _ & Hvs & _ & Hlen & Hmask).
    split; [done |]. intros x y c Hin Hc. rewrite (Hmask x y c Hin Hc).
    unfold painted.
    destruct (bool_decide (y * w + x ∈ visited st)) eqn:Hv; cbn [andb].
    - apply bool_decide_eq_true in Hv.
      destruct (js_same (class_at img x y) target) eqn:Hcl.
      + left. split; [done |]. apply js_same_true in Hcl. by apply Hvs.
      + right. split; [done |]. intros Hconn.
        apply connected_class in Hconn as [_ Hconn].
        apply js_same_true in Hconn. congruence.
    - right. split; [done |]. intros Hconn.
      apply bool_decide_eq_false in Hv. apply Hv.
      by apply fill_inv_complete.
  Qed.
End FillCorrect.

Lemma background_step_frame m i j :
  ~ (i <= j <= i + 3) -> aget (Segmentation.background_step m i) j = aget m j.
Proof. unfold Segmentation.background_step. step_frame_tac. Qed.

Lemma background_step_local m m' i :
  (forall j, i <= j <= i + 3 -> aget m j = aget m' j) ->
  forall j, i <= j <= i + 3 ->
  aget (Segmentation.background_step m i) j
  = aget (Segmentation.background_step m' i) j.
Proof. intros Hag j Hj. unfold Segmentation.background_step. step_local_tac Hag. Qed.

Lemma Qfloor_in_range (q : Q) (n : Z) :
  (0 <= q)%Q -> (q < inject_Z n)%Q -> 0 <= Qfloor q < n.
Proof.
  intros H0 Hn. split.
  - apply (Qfloor_resp_le 0 q H0).
  - rewrite Zlt_Qlt. eapply Qle_lt_trans; [apply Qfloor_le | exact Hn].
Qed.

Definition example_classes : ImageData :=
  mkImageData 3 1 [7; 7; 7; 255; 0; 0; 0; 255; 9; 9; 9; 255].

(** ** The earlier click mask *)

Lemma class_step_frame d m i j :
  ~ (i <= j <= i + 3) -> aget (Segmentation.class_step d m i) j = aget m j.
Proof. unfold Segmentation.class_step. step_frame_tac. Qed.

Lemma class_step_local d m m' i :
  (forall j, i <= j <= i + 3 -> aget m j = aget m' j) ->
  forall j, i <= j <= i + 3 ->
  aget (Segmentation.class_step d m i) j = aget (Segmentation.class_step d m' i) j.
Proof. intros Hag j Hj. unfold Segmentation.class_step. step_local_tac Hag. Qed.

Lemma background_step_length m i :
  length (Segmentation.background_step m i) = length m.
Proof. unfold Segmentation.background_step. step_length_tac. Qed.

Lemma class_step_length d m i :
  length (Segmentation.class_step d m i) = length m.
Proof. unfold Segmentation.class_step. step_length_tac. Qed.

Lemma length_newImageData (w h : Z) :
  0 <= w -> 0 <= h -> Z.of_nat (length (data (newImageData w h))) = 4 * w * h.
Proof. intros Hw Hh. cbn. rewrite length_replicate. nia. Qed.

(** The mask of a background click: opaque black everywhere. *)
Lemma background_mask_pixel (w h x y : Z) :
  0 <= x < w -> 0 <= y < h ->
  pixel_at (fold_left Segmentation.background_step
              (pixel_offsets (length (data (newImageData w h))))
              (data (newImageData w h)))
           ((y * w + x) * 4) (0, 0, 0, 255).
Proof.
  intros Hx Hy.
  assert (Hw : 0 <= w) by lia. assert (Hh : 0 <= h) by lia.
  pose proof (index_in_range w h Hw Hh x y Hx Hy).
  pose proof (length_newImageData w h Hw Hh) as Hlen.
  apply (pixel_loop_pixel _ background_step_frame background_step_local);
    [lia | apply Z_mod_mult | lia |].
  unfold Segmentation.background_step, pixel_at. array_pixel.
Qed.

(** The mask of an object click in the earlier segmentation.js. *)
Lemma class_mask_pixel (img : ImageData) (x y r g b a : Z) :
  wf_image img -> in_bounds img x y ->
  pixel_at (data img) ((y * width img + x) * 4) (r, g, b, a) ->
  let v := if bool_decide (0 < r) then 255 else 0 in
  pixel_at (fold_left (Segmentation.class_step (data img))
              (pixel_offsets (length (data img)))
              (data (newImageData (width img) (height img))))
           ((y * width img + x) * 4) (v, v, v, 255).
Proof.
  intros (Hw & Hh & Hlen) [Hx Hy] Hp. cbn zeta.
  pose proof (index_in_range _ _ Hw Hh x y Hx Hy).
  pose proof (length_newImageData _ _ Hw Hh) as Hlen'.
  assert (Hsame : length (data img)
                  = length (data (newImageData (width img) (height img)))) by lia.
  rewrite Hsame.
  apply (pixel_loop_pixel _ (class_step_frame (data img))
           (class_step_local (data img))); [lia | apply Z_mod_mult | lia |].
  destruct Hp as (Hr & _).
  unfold Segmentation.class_step, pixel_at. rewrite Hr. cbn [js_gt].
  destruct (bool_decide (0 < r)); array_pixel.
Qed.

(** What the earlier [createClickMask] selects. On a well-formed class
    buffer and an in-bounds click it returns an opaque mask of the buffer's
    size: empty when the clicked class is 0, and otherwise holding every
    pixel whose class is above 0, whatever its class and wherever it lies.
    Every pixel of the mask has alpha 255. *)
Lemma class_mask_foreground (img : ImageData) (clickX clickY : Q) :
  wf_image img ->
  (0 <= clickX)%Q -> (clickX < inject_Z (width img))%Q ->
  (0 <= clickY)%Q -> (clickY < inject_Z (height img))%Q ->
  let mask := Segmentation.createClickMask img clickX clickY in
  wf_image mask /\ width mask = width img /\ height mask = height img /\
  forall x y, in_bounds img x y ->
    (selected mask x y = true <->
     class_at img (Qfloor clickX) (Qfloor clickY) <> Some 0 /\
     exists c, class_at img x y = Some c /\ 0 < c) /\
    aget (data mask) ((y * width img + x) * 4 + 3) = Some 255.
Proof.
  intros Hwf Hx0 Hx1 Hy0 Hy1. cbn zeta.
  pose proof Hwf as (Hw & Hh & Hlen).
  assert (Hseed : in_bounds img (Qfloor clickX) (Qfloor clickY)).
  { split; by apply Qfloor_in_range. }
  unfold Segmentation.createClickMask.
  change (aget (data img) ((Qfloor clickY * width img + Qfloor clickX) * 4))
    with (class_at img (Qfloor clickX) (Qfloor clickY)).
  pose proof (length_newImageData _ _ Hw Hh) as Hlen'.
  destruct (js_eq (class_at img (Qfloor clickX) (Qfloor clickY)) 0) eqn:Hbg.
  - assert (Hzero : class_at img (Qfloor clickX) (Qfloor clickY) = Some 0).
    { unfold js_eq in Hbg.
      destruct (class_at img (Qfloor clickX) (Qfloor clickY)) as [v|]; [| done].
      apply bool_decide_eq_true in Hbg. by subst. }
    split.
    { unfold wf_image. cbn [width height data].
      rewrite pixel_loop_length by apply background_step_length. done. }
    split; [done |]. split; [done |].
    intros x y [Hx Hy].
    destruct (background_mask_pixel (width img) (height img) x y Hx Hy)
      as (Hr & _ & _ & Ha).
    unfold selected, pixel_index. cbn [data width]. rewrite Hr, Ha. cbn.
    split; [| done]. split; [done |]. intros [Hne _]. done.
  - assert (Hne : class_at img (Qfloor clickX) (Qfloor clickY) <> Some 0).
    { intros Hz. rewrite Hz in Hbg. cbn in Hbg.
      by rewrite bool_decide_eq_true_2 in Hbg. }
    split.
    { unfold wf_image. cbn [width height data].
      rewrite pixel_loop_length by apply class_step_length. done. }
    split; [done |]. split; [done |].
    intros x y Hin.
    destruct (pixel_at_exists (data img) ((y * width img + x) * 4))
      as ([[[r g] b] a] & Hp).
    { destruct Hin as [Hx Hy]. pose proof (index_in_range _ _ Hw Hh x y Hx Hy). lia. }
    { destruct Hin as [Hx Hy]. pose proof (index_in_range _ _ Hw Hh x y Hx Hy). lia. }
    pose proof Hp as (Hcls & _).
    destruct (class_mask_pixel img x y r g b a Hwf Hin Hp) as (Hr & _ & _ & Ha).
    unfold selected, pixel_index, class_at, pixel_index. cbn [data width].
    rewrite Hr, Ha, Hcls. split; [| done].
    destruct (bool_decide (0 < r)) eqn:Hpos; cbn.
    + apply bool_decide_eq_true in Hpos. split; [| done].
      intros _. split; [done |]. by exists r.
    + apply bool_decide_eq_false in Hpos. split; [done |].
      intros (_ & c & Hc & Hc0). inversion Hc; subst. lia.
Qed.

(** C1, for the two variants of segmentation.js. On a well-formed class
    buffer and an in-bounds click, the [createClickMask] that finds
    connected components returns a mask of the buffer's size in which a
    pixel is selected exactly when the clicked pixel's class is not 0 and
    the pixel is reachable from the clicked pixel by steps to 4-neighbours
    through pixels of that class; a selected pixel therefore has the class
    of the clicked pixel. The [createClickMask] of the earlier
    segmentation.js returns a mask of the buffer's size in which a pixel is
    selected exactly when the clicked pixel's class is not 0 and the pixel's
    own class is above 0. *)
Theorem click_mask_is_component (img : ImageData) (clickX clickY : Q) :
  wf_image img ->
  (0 <= clickX)%Q -> (clickX < inject_Z (width img))%Q ->
  (0 <= clickY)%Q -> (clickY < inject_Z (height img))%Q ->
  let sx := Qfloor clickX in
  let sy := Qfloor clickY in
  (exists mask,
     SegmentationCC.createClickMask img clickX clickY = Some mask /\
     width mask = width img /\ height mask = height img /\
     forall x y, in_bounds img x y ->
       (selected mask x y = true <->
        class_at img sx sy <> Some 0 /\ connected img sx sy x y) /\
       (selected mask x y = true -> class_at img x y = class_at img sx sy)) /\
  (let mask := Segmentation.createClickMask img clickX clickY in
   width mask = width img /\ height mask = height img /\
   forall x y, in_bounds img x y ->
     (selected mask x y = true <->
      class_at img sx sy <> Some 0 /\
      exists c, class_at img x y = Some c /\ 0 < c)).
Proof.
  intros Hwf Hx0 Hx1 Hy0 Hy1 sx sy.
  split; [| destruct (class_mask_foreground img clickX clickY Hwf Hx0 Hx1 Hy0 Hy1)
              as (_ & Hmw & Hmh & Hpx);
            split; [done |]; split; [done |];
            intros x y Hin; by destruct (Hpx x y Hin) as [? _]].
  assert (Hseed : in_bounds img sx sy).
  { split; by apply Qfloor_in_range. }
  pose proof Hwf as (Hw & Hh & Hlen).
  unfold SegmentationCC.createClickMask. fold sx sy.
  change (aget (data img) ((sy * width img + sx) * 4)) with (class_at img sx sy).
  destruct (js_eq (class_at img sx sy) 0) eqn:Hbg.
  - (* background: nothing is selected *)
    assert (Hzero : class_at img sx sy = Some 0).
    { unfold js_eq in Hbg. destruct (class_at img sx sy) as [v|]; [| done].
      apply bool_decide_eq_true in Hbg. by subst. }
    eexists. split; [done |]. split; [done |]. split; [done |].
    intros x y [Hx Hy].
    assert (Hsel : selected
              (mkImageData (width img) (height img)
                 (fold_left Segmentation.background_step
                    (pixel_offsets (length (data (newImageData (width img) (height img)))))
                    (data (newImageData (width img) (height img))))) x y = false).
    { unfold selected, pixel_index. cbn [data width].
      pose proof (index_in_range _ _ Hw Hh x y Hx Hy).
      rewrite (pixel_loop_get _ background_step_frame background_step_local)
        by (cbn; rewrite length_replicate; lia).
      replace (4 * (((y * width img + x) * 4) `div` 4)) with ((y * width img + x) * 4)
        by (rewrite Z.div_mul; lia).
      unfold Segmentation.background_step. cbn [newImageData data].
      rewrite !aget_aset, !length_aset, length_replicate.
      repeat case_decide; try done; lia. }
    rewrite Hsel. split; [| done]. split; [done |]. intros [Hne _]. done.
  - (* an object: its connected component *)
    assert (Hne : class_at img sx sy <> Some 0).
    { intros Hz. rewrite Hz in Hbg. cbn in Hbg.
      by rewrite bool_decide_eq_true_2 in Hbg. }
    destruct (fill_start_measure (width img) (height img) Hw Hh
                (data (newImageData (width img) (height img))) sx sy) as [Hr Hm].
    destruct (fill_loop_drains (data img) (width img) (height img)
                (class_at img sx sy) Hw Hh _ _ Hr Hm) as (st & Hst & Hq).
    assert (Hfind : SegmentationCC._findConnectedComponent (data img) (width img)
                      (height img) (class_at img sx sy)
                      (data (newImageData (width img) (height img))) sx sy
                    = Some (SegmentationCC.maskArray st)).
    { unfold SegmentationCC._findConnectedComponent. by rewrite Hst. }
    rewrite Hfind. cbn [fmap option_fmap option_map].
    eexists. split; [done |]. split; [done |]. split; [done |].
    intros x y Hin.
    destruct (fill_result img sx sy Hwf Hseed _ Hfind) as [_ Hpx].
    specialize (Hpx x y 0 Hin ltac:(lia)). rewrite Z.add_0_r in Hpx.
    unfold selected, pixel_index. cbn [data width].
    assert (Hiff : js_gt (aget (SegmentationCC.maskArray st) ((y * width img + x) * 4)) 0
                   = true <-> connected img sx sy x y).
    { destruct Hpx as [[-> Hc] | [-> Hc]]; cbn; split; try done;
        intros _; by apply bool_decide_eq_true. }
    split.
    + rewrite Hiff. tauto.
    + intros Hs. apply Hiff in Hs. by apply connected_class in Hs as [_ ?].
Qed.

Lemma click_mask_is_component_witness :
  let img := mkImageData 2 1 [7; 7; 7; 255; 7; 7; 7; 255] in
  let sx := Qfloor (1 # 2) in
  let sy := Qfloor (1 # 2) in
  (exists mask,
     SegmentationCC.createClickMask img (1 # 2) (1 # 2) = Some mask /\
     width mask = width img /\ height mask = height img /\
     forall x y, in_bounds img x y ->
       (selected mask x y = true <->
        class_at img sx sy <> Some 0 /\ connected img sx sy x y) /\
       (selected mask x y = true -> class_at img x y = class_at img sx sy)) /\
  (let mask := Segmentation.createClickMask img (1 # 2) (1 # 2) in
   width mask = width img /\ height mask = height img /\
   forall x y, in_bounds img x y ->
     (selected mask x y = true <->
      class_at img sx sy <> Some 0 /\
      exists c, class_at img x y = Some c /\ 0 < c)).
  apply (click_mask_is_component
           (mkImageData 2 1 [7; 7; 7; 255; 7; 7; 7; 255]) (1 # 2) (1 # 2)).
  - vm_compute. repeat split; discriminate.
  - vm_compute. discriminate.
  - vm_compute. reflexivity.
  - vm_compute. discriminate.
  - vm_compute. reflexivity.
Defined.

(** The earlier segmentation.js selects every pixel that is not
    background: clicking the object of class 7 also selects the pixel of
    class 9, which is neither of the clicked class nor connected to the
    click. *)
Lemma click_mask_whole_class_counterexample :
  let mask := Segmentation.createClickMask example_classes 0 0 in
  in_bounds example_classes 2 0 /\
  class_at example_classes 0 0 = Some 7 /\
  selected mask 2 0 = true /\
  class_at example_classes 2 0 <> class_at example_classes 0 0 /\
  ~ connected example_classes 0 0 2 0.
Proof.
  cbn zeta. split; [vm_compute; repeat split; discriminate |].
  split; [reflexivity |]. split; [reflexivity |].
  split; [vm_compute; discriminate |].
  intros Hc. apply connected_class in Hc as [_ Hc]. vm_compute in Hc. discriminate.
Qed.

Lemma flood_fill_terminates_witness :
  let d := data example_classes in
  let m := data (newImageData 3 1) in
  (exists st,
     SegmentationCC.fill_loop d 3 1 (Some 7) (SegmentationCC.fill_fuel 3 1)
       (SegmentationCC.fill_start m 0 0) = Some st /\
     SegmentationCC.queue st = [] /\
     SegmentationCC._findConnectedComponent d 3 1 (Some 7) m 0 0
     = Some (SegmentationCC.maskArray st)) /\
  (forall (st : SegmentationCC.FillState) (x y : Z) (rest : list (Z * Z)),
     visited_in_range 3 1 st ->
     SegmentationCC.queue st = (x, y) :: rest ->
     let st' := SegmentationCC.fill_body d 3 1 (Some 7) x y rest st in
     visited_in_range 3 1 st' /\
     (fill_measure 3 1 st' < fill_measure 3 1 st)%nat /\
     ((SegmentationCC.visited st' = SegmentationCC.visited st /\
       SegmentationCC.queue st' = rest) \/
      ((y * 3 + x ∉ SegmentationCC.visited st) /\
       SegmentationCC.visited st' = {[y * 3 + x]} ∪ SegmentationCC.visited st /\
       (length (SegmentationCC.queue st') <= length rest + 4)%nat))).
Proof.
  apply (flood_fill_terminates (data example_classes) (data (newImageData 3 1))
           3 1 (Some 7) 0 0); lia.
Defined.

(** ** The click tool *)

Definition example_segmentation : ImageData := mkImageData 1 1 [15; 15; 15; 255].

Definition example_click_tools : MaskTools.t :=
  MaskTools.create example_blank example_blank.

Definition example_click_app (ctrl : bool) : AppEnhanced.t :=
  AppEnhanced.mk (Some example_click_tools) true true false
    (Some example_segmentation) ctrl 0.

Definition example_toggle_app : App.t :=
  App.mk (Some example_click_tools) true true false (Some example_segmentation).

Section ClickTool.
  Context `{Canvas2D}.

  (** The segmentation a click works on: the cached one, else the one the
      model returns. *)
Definition segmentation_for (cached fresh : option ImageData) : option ImageData :=
    match cached with Some r => Some r | None => fresh end.

Lemma toggle_click (fresh : option ImageData) (x y : Q) (app : App.t)
        (mt : MaskTools.t) (seg : ImageData) :
    App.currentImage app = true -> App.modelLoaded app = true ->
    App.isProcessing app = false ->
    App.maskTools app = Some mt ->
    MaskTools.currentTool mt = MaskTools.Click ->
    segmentation_for (App.cachedSegmentation app) fresh = Some seg ->
    let objectMask := Segmentation.createClickMask seg x y in
    let maskData := MaskTools.getMaskData mt in
    let isInSelection :=
      js_gt (aget (data maskData) ((Qfloor y * width maskData + Qfloor x) * 4)) 128 in
    let app1 := App.set_cachedSegmentation seg app in
    App.handleCanvasClick fresh x y app =
    if hasSelection objectMask then
      if isInSelection
      then App.set_maskTools
             (commit (drawImage DestinationOut objectMask (MaskTools.maskCanvas mt)) mt)
             app1
      else App.set_maskTools
             (commit (drawImage Lighter
                        (MaskTools.convertToGreenOverlay MaskTools.classic objectMask)
                        (MaskTools.maskCanvas mt)) mt)
             app1
    else app1.
  Proof.
    intros Himg Hmodel Hproc Hmt Htool Hseg. cbn zeta.
    unfold App.handleCanvasClick, segmentation_for in *.
    rewrite Himg, Hmodel, Hproc, Hmt, Htool. cbn [negb orb].
    rewrite bool_decide_eq_true_2 by done. cbn [negb].
    rewrite Hseg. done.
  Qed.

Lemma modifier_click (theme : MaskTools.Theme) (fresh : option ImageData)
        (x y : Q) (app : AppEnhanced.t) (mt : MaskTools.t)
        (seg objectMask : ImageData) :
    AppEnhanced.currentImage app = true -> AppEnhanced.modelLoaded app = true ->
    AppEnhanced.isProcessing app = false ->
    AppEnhanced.maskTools app = Some mt ->
    MaskTools.currentTool mt = MaskTools.Click ->
    segmentation_for (AppEnhanced.cachedSegmentation app) fresh = Some seg ->
    SegmentationCC.createClickMask seg x y = Some objectMask ->
    let app1 := AppEnhanced.set_cachedSegmentation seg app in
    let app2 := AppEnhanced.set_clickCount (AppEnhanced.clickCount app + 1) app1 in
    let greenMask := MaskTools.convertToGreenOverlay theme objectMask in
    AppEnhanced.handleCanvasClick theme fresh x y app =
    Some (if hasSelection objectMask then
            AppEnhanced.set_maskTools
              (commit (drawImage
                         (if AppEnhanced.isCtrlPressed app
                          then DestinationOut else Lighter)
                         greenMask (MaskTools.maskCanvas mt)) mt)
              app2
          else app1).
  Proof.
    intros Himg Hmodel Hproc Hmt Htool Hseg Hobj. cbn zeta.
    unfold AppEnhanced.handleCanvasClick, segmentation_for in *.
    rewrite Himg, Hmodel, Hproc, Hmt, Htool. cbn [negb orb].
    rewrite bool_decide_eq_true_2 by done. cbn [negb].
    rewrite Hseg, Hobj.
    destruct (hasSelection objectMask); [| done].
    destruct (AppEnhanced.isCtrlPressed app); done.
  Qed.
End ClickTool.


(** ** Edge refinement *)

(** The offset of the pixel a loop over coordinates works on. *)
Definition pixel_off (w : Z) (p : Z * Z) : Z := (p.2 * w + p.1) * 4.

(** The shape all four passes share: at each pixel either nothing is
    written, or the three colour channels are. *)
Definition write_rgb (w : Z) (write : Z * Z -> option (Z * Z * Z))
           (acc : list Z) (p : Z * Z) : list Z :=
  match write p with
  | None => acc
  | Some (v0, v1, v2) =>
      aset (aset (aset acc (pixel_off w p) v0) (pixel_off w p + 1) v1)
           (pixel_off w p + 2) v2
  end.

Lemma write_rgb_frame w write acc p j :
  ~ (pixel_off w p <= j <= pixel_off w p + 3) ->
  aget (write_rgb w write acc p) j = aget acc j.
Proof.
  intros Hj. unfold write_rgb. destruct (write p) as [[[v0 v1] v2]|]; [| done].
  rewrite !aget_aset_fmap. repeat case_decide; first [done | lia].
Qed.

Lemma write_rgb_local w write acc acc' p :
  (forall j, pixel_off w p <= j <= pixel_off w p + 3 -> aget acc j = aget acc' j) ->
  forall j, pixel_off w p <= j <= pixel_off w p + 3 ->
  aget (write_rgb w write acc p) j = aget (write_rgb w write acc' p) j.
Proof.
  intros Hag j Hj. unfold write_rgb. destruct (write p) as [[[v0 v1] v2]|]; [| auto].
  rewrite !aget_aset_fmap. repeat case_decide; rewrite ?Hag by lia; done.
Qed.

Lemma write_rgb_length w write acc p :
  length (write_rgb w write acc p) = length acc.
Proof.
  unfold write_rgb. destruct (write p) as [[[v0 v1] v2]|]; [| done].
  by rewrite !length_aset.
Qed.

Lemma fold_left_ext {A B} (f g : A -> B -> A) (l : list B) (a : A) :
  (forall a b, f a b = g a b) -> fold_left f l a = fold_left g l a.
Proof.
  intros Hfg. revert a. induction l as [|b l IH]; intros a; [done |].
  cbn. by rewrite Hfg, IH.
Qed.

Lemma elem_of_interior (w h x y : Z) :
  (x, y) ∈ interior w h <-> 1 <= x < w - 1 /\ 1 <= y < h - 1.
Proof.
  unfold interior. rewrite list_elem_of_bind. split.
  - intros (y0 & Hx & Hy). apply list_elem_of_bind in Hx as (x0 & Hp & Hx).
    apply list_elem_of_singleton in Hp. inversion Hp; subst.
    apply elem_of_seqZ in Hx, Hy. lia.
  - intros [Hx Hy]. exists y. split; [| apply elem_of_seqZ; lia].
    apply list_elem_of_bind. exists x. split; [by apply list_elem_of_singleton |].
    apply elem_of_seqZ. lia.
Qed.

Lemma NoDup_interior (w h : Z) : NoDup (interior w h).
Proof.
  unfold interior. apply NoDup_bind; [| | apply NoDup_seqZ].
  - intros y1 y2 [x y] _ _ H1 H2.
    apply list_elem_of_bind in H1 as (x1 & Hp1 & _).
    apply list_elem_of_bind in H2 as (x2 & Hp2 & _).
    apply list_elem_of_singleton in Hp1, Hp2. congruence.
  - intros y _. apply NoDup_bind; [| | apply NoDup_seqZ].
    + intros x1 x2 p _ _ H1 H2.
      apply list_elem_of_singleton in H1, H2. congruence.
    + intros x _. apply NoDup_singleton.
Qed.

Lemma NoDup_interior_off (w h : Z) : NoDup (pixel_off w <$> interior w h).
Proof.
  apply NoDup_fmap_2_strong; [| apply NoDup_interior].
  intros [x y] [x' y'] Hp Hp' Heq.
  apply elem_of_interior in Hp, Hp'. unfold pixel_off in Heq. cbn in Heq.
  assert (Hi : y * w + x = y' * w + x') by lia.
  apply pixel_index_inj in Hi as [-> ->]; [done | lia | lia].
Qed.

Section RgbPass.
  Variables (w h : Z) (write : Z * Z -> option (Z * Z * Z)).

Definition rgb_pass (acc : list Z) : list Z :=
    fold_left (write_rgb w write) (interior w h) acc.

Lemma rgb_pass_length (acc : list Z) : length (rgb_pass acc) = length acc.
  Proof. apply fold_pixels_length. intros. apply write_rgb_length. Qed.

  (** An interior pixel holds what its own step wrote on the initial
      array. *)
Lemma rgb_pass_interior (acc : list Z) (x y c : Z) :
    1 <= x < w - 1 -> 1 <= y < h - 1 -> 0 <= c <= 3 ->
    aget (rgb_pass acc) ((y * w + x) * 4 + c)
    = aget (write_rgb w write acc (x, y)) ((y * w + x) * 4 + c).
  Proof.
    intros Hx Hy Hc. unfold rgb_pass.
    apply (fold_pixels_at (pixel_off w) (write_rgb w write)
             (write_rgb_frame w write) (write_rgb_local w write)).
    - intros [a b] _. unfold pixel_off. cbn. apply Z_mod_mult.
    - apply NoDup_interior_off.
    - by apply elem_of_interior.
    - unfold pixel_off. cbn. lia.
  Qed.

  (** A pixel of the border ring is left as it is. *)
Lemma rgb_pass_border (acc : list Z) (x y c : Z) :
    0 <= x < w -> 0 <= y < h -> 0 <= c <= 3 ->
    is_interior w h x y = false ->
    aget (rgb_pass acc) ((y * w + x) * 4 + c) = aget acc ((y * w + x) * 4 + c).
  Proof.
    intros Hx Hy Hc Hb. unfold rgb_pass.
    apply (fold_pixels_frame (pixel_off w) (write_rgb w write)
             (write_rgb_frame w write)).
    intros [a b] Hp. apply elem_of_interior in Hp.
    apply bool_decide_eq_false in Hb. unfold pixel_off. cbn.
    intros Hr.
    assert (Hi : b * w + a = y * w + x) by lia.
    apply pixel_index_inj in Hi as [-> ->]; lia.
  Qed.
End RgbPass.

(** What each of the four loops writes at a pixel. *)
Definition grow_write (src : list Z) (w : Z) (p : Z * Z) : option (Z * Z * Z) :=
  let '(x, y) := p in
  if js_gt (aget src ((y * w + x) * 4)) 128 then None
  else if hasWhiteNeighbor src w x y then Some (255, 255, 255) else None.

Definition shrink_write (src : list Z) (w : Z) (p : Z * Z) : option (Z * Z * Z) :=
  let '(x, y) := p in
  if js_lt (aget src ((y * w + x) * 4)) 128 then None
  else if hasBlackNeighbor src w x y then Some (0, 0, 0) else None.

Definition copy_of (src : list Z) (i : Z) : Z * Z * Z :=
  (default 0 (aget src i), default 0 (aget src (i + 1)),
   default 0 (aget src (i + 2))).

Definition grow_copy_write (src : list Z) (w : Z) (p : Z * Z)
  : option (Z * Z * Z) :=
  let '(x, y) := p in
  if js_gt (aget src ((y * w + x) * 4)) 128 then None
  else if hasWhiteNeighbor src w x y then Some (255, 255, 255)
       else Some (copy_of src ((y * w + x) * 4)).

Definition shrink_copy_write (src : list Z) (w : Z) (p : Z * Z)
  : option (Z * Z * Z) :=
  let '(x, y) := p in
  if js_lt (aget src ((y * w + x) * 4)) 128 then None
  else if hasBlackNeighbor src w x y then Some (0, 0, 0)
       else Some (copy_of src ((y * w + x) * 4)).

Lemma closing_pass_rgb (w h : Z) (d : list Z) :
  App.closing_pass w h d =
  rgb_pass w h (shrink_copy_write (rgb_pass w h (grow_write d w) d) w) d.
Proof.
  unfold App.closing_pass, rgb_pass.
  rewrite (fold_left_ext (App.dilate_step d w) (write_rgb w (grow_write d w))).
  - apply fold_left_ext. intros acc [x y].
    unfold App.erode_step, write_rgb, shrink_copy_write, pixel_off. cbn [fst snd].
    by repeat match goal with |- context [if ?b then _ else _] => destruct b end.
  - intros acc [x y].
    unfold App.dilate_step, write_rgb, grow_write, pixel_off. cbn [fst snd].
    by repeat match goal with |- context [if ?b then _ else _] => destruct b end.
Qed.

Lemma opening_pass_rgb (w h : Z) (d : list Z) :
  AppEnhanced.opening_pass w h d =
  rgb_pass w h (grow_copy_write (rgb_pass w h (shrink_write d w) d) w) d.
Proof.
  unfold AppEnhanced.opening_pass, rgb_pass.
  rewrite (fold_left_ext (AppEnhanced.erode_step d w) (write_rgb w (shrink_write d w))).
  - apply fold_left_ext. intros acc [x y].
    unfold AppEnhanced.dilate_step, write_rgb, grow_copy_write, pixel_off.
    cbn [fst snd].
    by repeat match goal with |- context [if ?b then _ else _] => destruct b end.
  - intros acc [x y].
    unfold AppEnhanced.erode_step, write_rgb, shrink_write, pixel_off. cbn [fst snd].
    by repeat match goal with |- context [if ?b then _ else _] => destruct b end.
Qed.

Lemma neighborhood_eq :
  neighborhood =
  [(-1, -1); (-1, 0); (-1, 1); (0, -1); (0, 0); (0, 1); (1, -1); (1, 0); (1, 1)].
Proof. reflexivity. Qed.

Lemma hasWhiteNeighbor_spec (d : list Z) (w x y : Z) :
  hasWhiteNeighbor d w x y =
  sel w d x y || existsb (fun '(dy, dx) => sel w d (x + dx) (y + dy)) neighbours8.
Proof.
  unfold hasWhiteNeighbor, neighbours8. rewrite neighborhood_eq.
  unfold sel. cbn [existsb]. rewrite !Z.add_0_r.
  repeat match goal with
         | |- context [js_gt ?o 128] =>
             let b := fresh "b" in generalize (js_gt o 128); intros b
         end.
  btauto.
Qed.

Lemma js_lt_two_level (w h : Z) (d : list Z) (x y : Z) :
  two_level w h d -> 0 <= x < w -> 0 <= y < h ->
  js_lt (aget d ((y * w + x) * 4)) 128 = negb (sel w d x y).
Proof.
  intros Htl Hx Hy. unfold sel.
  destruct (Htl x y Hx Hy) as [-> | ->]; reflexivity.
Qed.

Lemma hasBlackNeighbor_spec (w h : Z) (d : list Z) (x y : Z) :
  two_level w h d -> 1 <= x < w - 1 -> 1 <= y < h - 1 ->
  hasBlackNeighbor d w x y =
  negb (sel w d x y &&
        forallb (fun '(dy, dx) => sel w d (x + dx) (y + dy)) neighbours8).
Proof.
  intros Htl Hx Hy.
  unfold hasBlackNeighbor, neighbours8. rewrite neighborhood_eq.
  cbn [existsb forallb].
  rewrite !(js_lt_two_level w h) by (done || lia).
  rewrite !Z.add_0_r.
  repeat match goal with
         | |- context [sel w d ?a ?b] =>
             let v := fresh "b" in generalize (sel w d a b); intros v
         end.
  btauto.
Qed.

Section Passes.
  Variables w h : Z.
  Hypothesis w_nonneg : 0 <= w.
  Hypothesis h_nonneg : 0 <= h.

Definition full_size (d : list Z) : Prop := Z.of_nat (length d) = 4 * w * h.

Lemma offset_in_range (d : list Z) (x y c : Z) :
    full_size d -> 0 <= x < w -> 0 <= y < h -> 0 <= c <= 3 ->
    0 <= (y * w + x) * 4 + c < Z.of_nat (length d).
  Proof using w_nonneg h_nonneg.
    intros Hd Hx Hy Hc. rewrite Hd.
    pose proof (index_in_range w h w_nonneg h_nonneg x y Hx Hy). lia.
  Qed.

Lemma interior_iff (x y : Z) :
    is_interior w h x y = true <-> 1 <= x < w - 1 /\ 1 <= y < h - 1.
  Proof. unfold is_interior. apply bool_decide_eq_true. Qed.

Lemma sel_two_level (d : list Z) (x y : Z) :
    two_level w h d -> 0 <= x < w -> 0 <= y < h ->
    aget d ((y * w + x) * 4) = Some (if sel w d x y then 255 else 0).
  Proof.
    intros Htl Hx Hy. unfold sel.
    destruct (Htl x y Hx Hy) as [Hv | Hv]; rewrite Hv; reflexivity.
  Qed.

  (** Reading the red channel of an interior pixel after a pass. *)
Lemma rgb_pass_red (write : Z * Z -> option (Z * Z * Z)) (acc : list Z)
        (x y : Z) :
    1 <= x < w - 1 -> 1 <= y < h - 1 ->
    aget (rgb_pass w h write acc) ((y * w + x) * 4)
    = aget (write_rgb w write acc (x, y)) ((y * w + x) * 4).
  Proof.
    intros Hx Hy.
    pose proof (rgb_pass_interior w h write acc x y 0 Hx Hy ltac:(lia)) as Hr.
    by rewrite Z.add_0_r in Hr.
  Qed.

Lemma rgb_pass_red_border (write : Z * Z -> option (Z * Z * Z)) (acc : list Z)
        (x y : Z) :
    0 <= x < w -> 0 <= y < h -> is_interior w h x y = false ->
    aget (rgb_pass w h write acc) ((y * w + x) * 4) = aget acc ((y * w + x) * 4).
  Proof.
    intros Hx Hy Hb.
    pose proof (rgb_pass_border w h write acc x y 0 Hx Hy ltac:(lia) Hb) as Hr.
    by rewrite Z.add_0_r in Hr.
  Qed.

  (** The red channel an interior step leaves, case by case. *)
Lemma write_rgb_red (write : Z * Z -> option (Z * Z * Z)) (acc : list Z)
        (x y : Z) :
    full_size acc -> 0 <= x < w -> 0 <= y < h ->
    aget (write_rgb w write acc (x, y)) ((y * w + x) * 4) =
    match write (x, y) with
    | None => aget acc ((y * w + x) * 4)
    | Some (v0, _, _) => Some (u8 v0)
    end.
  Proof using w_nonneg h_nonneg.
    intros Hd Hx Hy. unfold write_rgb, pixel_off. cbn [fst snd].
    destruct (write (x, y)) as [[[v0 v1] v2]|]; [| done].
    pose proof (offset_in_range acc x y 0 Hd Hx Hy ltac:(lia)).
    rewrite !aget_aset, !length_aset. repeat case_decide; try done; lia.
  Qed.

  Section Grow.
    Variable d : list Z.
    Hypothesis d_size : full_size d.

Lemma grow_sel (x y : Z) :
      0 <= x < w -> 0 <= y < h ->
      sel w (rgb_pass w h (grow_write d w) d) x y = dilation w h (sel w d) x y.
    Proof using w_nonneg h_nonneg d_size.
      intros Hx Hy. unfold dilation.
      destruct (is_interior w h x y) eqn:Hi.
      - apply interior_iff in Hi as [Hxi Hyi].
        unfold sel at 1. rewrite rgb_pass_red, write_rgb_red by done.
        rewrite <- hasWhiteNeighbor_spec. unfold grow_write.
        fold (sel w d x y).
        destruct (sel w d x y) eqn:Hs.
        + by rewrite hasWhiteNeighbor_spec, Hs.
        + destruct (hasWhiteNeighbor d w x y); [done |]. exact Hs.
      - unfold sel at 1. by rewrite rgb_pass_red_border.
    Qed.

    (** Where dilation selects nothing new the buffer is unchanged. *)
Lemma grow_same (x y : Z) :
      0 <= x < w -> 0 <= y < h ->
      is_interior w h x y = false \/
      sel w (rgb_pass w h (grow_write d w) d) x y = false ->
      aget (rgb_pass w h (grow_write d w) d) ((y * w + x) * 4)
      = aget d ((y * w + x) * 4).
    Proof using w_nonneg h_nonneg d_size.
      intros Hx Hy Hcase.
      destruct (is_interior w h x y) eqn:Hi; [| by apply rgb_pass_red_border].
      destruct Hcase as [Hcase | Hcase]; [done |].
      apply interior_iff in Hi as [Hxi Hyi].
      unfold sel in Hcase. rewrite rgb_pass_red, write_rgb_red in Hcase |- * by done.
      unfold grow_write in *.
      destruct (js_gt (aget d ((y * w + x) * 4)) 128); [done |].
      destruct (hasWhiteNeighbor d w x y); [done | done].
    Qed.

Lemma grow_two_level :
      two_level w h d -> two_level w h (rgb_pass w h (grow_write d w) d).
    Proof using w_nonneg h_nonneg d_size.
      intros Htl x y Hx Hy.
      destruct (is_interior w h x y) eqn:Hi.
      - apply interior_iff in Hi as [Hxi Hyi].
        rewrite rgb_pass_red, write_rgb_red by done. unfold grow_write.
        destruct (js_gt (aget d ((y * w + x) * 4)) 128); [by apply Htl |].
        destruct (hasWhiteNeighbor d w x y); [by right | by apply Htl].
      - rewrite rgb_pass_red_border by done. by apply Htl.
    Qed.
  End Grow.

  Section Shrink.
    Variable d : list Z.
    Hypothesis d_size : full_size d.
    Hypothesis d_two_level : two_level w h d.

Lemma shrink_sel (x y : Z) :
      0 <= x < w -> 0 <= y < h ->
      sel w (rgb_pass w h (shrink_write d w) d) x y = erosion w h (sel w d) x y.
    Proof using w_nonneg h_nonneg d_size d_two_level.
      intros Hx Hy. unfold erosion.
      destruct (is_interior w h x y) eqn:Hi.
      - apply interior_iff in Hi as [Hxi Hyi].
        unfold sel at 1. rewrite rgb_pass_red, write_rgb_red by done.
        unfold shrink_write.
        rewrite (js_lt_two_level w h), (hasBlackNeighbor_spec w h) by done.
        fold (sel w d x y).
        destruct (sel w d x y) eqn:Hs; cbn [negb andb].
        + destruct (forallb _ neighbours8); cbn [negb]; [exact Hs | done].
        + exact Hs.
      - unfold sel at 1. by rewrite rgb_pass_red_border.
    Qed.

    (** Where erosion keeps the selection the buffer is unchanged. *)
Lemma shrink_same (x y : Z) :
      0 <= x < w -> 0 <= y < h ->
      is_interior w h x y = false \/
      sel w (rgb_pass w h (shrink_write d w) d) x y = true ->
      aget (rgb_pass w h (shrink_write d w) d) ((y * w + x) * 4)
      = aget d ((y * w + x) * 4).
    Proof using w_nonneg h_nonneg d_size d_two_level.
      intros Hx Hy Hcase.
      destruct (is_interior w h x y) eqn:Hi; [| by apply rgb_pass_red_border].
      destruct Hcase as [Hcase | Hcase]; [done |].
      apply interior_iff in Hi as [Hxi Hyi].
      unfold sel in Hcase. rewrite rgb_pass_red, write_rgb_red in Hcase |- * by done.
      unfold shrink_write in *.
      destruct (js_lt (aget d ((y * w + x) * 4)) 128); [done |].
      destruct (hasBlackNeighbor d w x y); [done | done].
    Qed.

Lemma shrink_two_level :
      two_level w h (rgb_pass w h (shrink_write d w) d).
    Proof using w_nonneg h_nonneg d_size d_two_level.
      intros x y Hx Hy.
      destruct (is_interior w h x y) eqn:Hi.
      - apply interior_iff in Hi as [Hxi Hyi].
        rewrite rgb_pass_red, write_rgb_red by done. unfold shrink_write.
        destruct (js_lt (aget d ((y * w + x) * 4)) 128); [by apply d_two_level |].
        destruct (hasBlackNeighbor d w x y); [by left | by apply d_two_level].
      - rewrite rgb_pass_red_border by done. by apply d_two_level.
    Qed.
  End Shrink.
End Passes.

Section CopyPasses.
  Variables w h : Z.
  Hypothesis w_nonneg : 0 <= w.
  Hypothesis h_nonneg : 0 <= h.
  (** [src] is the intermediate buffer, [d] the buffer written back to. *)
  Variables src d : list Z.
  Hypothesis src_size : full_size w h src.
  Hypothesis d_size : full_size w h d.
  Hypothesis src_two_level : two_level w h src.
  Hypothesis d_two_level : two_level w h d.

Lemma copy_red (x y : Z) :
    0 <= x < w -> 0 <= y < h ->
    Some (u8 (copy_of src ((y * w + x) * 4)).1.1) = aget src ((y * w + x) * 4).
  Proof using src_two_level.
    intros Hx Hy. unfold copy_of. cbn [fst].
    destruct (src_two_level x y Hx Hy) as [-> | ->]; reflexivity.
  Qed.

  Section ShrinkCopy.
    (** [d] agrees with [src] wherever the loop leaves [d] alone. *)
    Hypothesis agree : forall x y, 0 <= x < w -> 0 <= y < h ->
      is_interior w h x y = false \/ sel w src x y = false ->
      aget d ((y * w + x) * 4) = aget src ((y * w + x) * 4).

Lemma shrink_copy_sel (x y : Z) :
      0 <= x < w -> 0 <= y < h ->
      sel w (rgb_pass w h (shrink_copy_write src w) d) x y
      = erosion w h (sel w src) x y.
    Proof using All.
      intros Hx Hy. unfold erosion.
      destruct (is_interior w h x y) eqn:Hi.
      - apply interior_iff in Hi as [Hxi Hyi].
        unfold sel at 1. rewrite rgb_pass_red, (write_rgb_red w h w_nonneg h_nonneg) by done.
        unfold shrink_copy_write.
        rewrite (js_lt_two_level w h), (hasBlackNeighbor_spec w h) by done.
        destruct (sel w src x y) eqn:Hs; cbn [negb andb].
        + destruct (forallb _ neighbours8); cbn [negb]; [| done].
          pose proof (copy_red x y Hx Hy) as Hc.
          destruct (copy_of src ((y * w + x) * 4)) as [[v0 v1] v2].
          cbn [fst] in Hc. rewrite Hc. exact Hs.
        + rewrite agree by auto. exact Hs.
      - unfold sel at 1. rewrite rgb_pass_red_border by done.
        by rewrite agree by auto.
    Qed.

Lemma shrink_copy_two_level :
      two_level w h (rgb_pass w h (shrink_copy_write src w) d).
    Proof using All.
      intros x y Hx Hy.
      destruct (is_interior w h x y) eqn:Hi.
      - apply interior_iff in Hi as [Hxi Hyi].
        rewrite rgb_pass_red, (write_rgb_red w h w_nonneg h_nonneg) by done. unfold shrink_copy_write.
        destruct (js_lt (aget src ((y * w + x) * 4)) 128); [by apply d_two_level |].
        destruct (hasBlackNeighbor src w x y); [by left |].
        pose proof (copy_red x y Hx Hy) as Hc.
        destruct (copy_of src ((y * w + x) * 4)) as [[v0 v1] v2].
        cbn [fst] in Hc. rewrite Hc. by apply src_two_level.
      - rewrite rgb_pass_red_border by done. by apply d_two_level.
    Qed.
  End ShrinkCopy.

  Section GrowCopy.
    Hypothesis agree : forall x y, 0 <= x < w -> 0 <= y < h ->
      is_interior w h x y = false \/ sel w src x y = true ->
      aget d ((y * w + x) * 4) = aget src ((y * w + x) * 4).

Lemma grow_copy_sel (x y : Z) :
      0 <= x < w -> 0 <= y < h ->
      sel w (rgb_pass w h (grow_copy_write src w) d) x y
      = dilation w h (sel w src) x y.
    Proof using All.
      intros Hx Hy. unfold dilation.
      destruct (is_interior w h x y) eqn:Hi.
      - apply interior_iff in Hi as [Hxi Hyi].
        unfold sel at 1. rewrite rgb_pass_red, (write_rgb_red w h w_nonneg h_nonneg) by done.
        rewrite <- hasWhiteNeighbor_spec. unfold grow_copy_write.
        fold (sel w src x y).
        destruct (sel w src x y) eqn:Hs.
        + rewrite agree by auto. rewrite hasWhiteNeighbor_spec, Hs. exact Hs.
        + destruct (hasWhiteNeighbor src w x y); [done |].
          pose proof (copy_red x y Hx Hy) as Hc.
          destruct (copy_of src ((y * w + x) * 4)) as [[v0 v1] v2].
          cbn [fst] in Hc. rewrite Hc. exact Hs.
      - unfold sel at 1. rewrite rgb_pass_red_border by done.
        by rewrite agree by auto.
    Qed.

Lemma grow_copy_two_level :
      two_level w h (rgb_pass w h (grow_copy_write src w) d).
    Proof using All.
      intros x y Hx Hy.
      destruct (is_interior w h x y) eqn:Hi.
      - apply interior_iff in Hi as [Hxi Hyi].
        rewrite rgb_pass_red, (write_rgb_red w h w_nonneg h_nonneg) by done. unfold grow_copy_write.
        destruct (js_gt (aget src ((y * w + x) * 4)) 128); [by apply d_two_level |].
        destruct (hasWhiteNeighbor src w x y); [by right |].
        pose proof (copy_red x y Hx Hy) as Hc.
        destruct (copy_of src ((y * w + x) * 4)) as [[v0 v1] v2].
        cbn [fst] in Hc. rewrite Hc. by apply src_two_level.
      - rewrite rgb_pass_red_border by done. by apply d_two_level.
    Qed.
  End GrowCopy.
End CopyPasses.

Section Refine.
  Variables w h : Z.
  Hypothesis w_nonneg : 0 <= w.
  Hypothesis h_nonneg : 0 <= h.

Lemma interior_neighbour (x y dy dx : Z) :
    1 <= x < w - 1 -> 1 <= y < h - 1 -> (dy, dx) ∈ neighbours8 ->
    0 <= x + dx < w /\ 0 <= y + dy < h.
  Proof.
    intros Hx Hy Hn. unfold neighbours8 in Hn.
    repeat (apply elem_of_cons in Hn as [Hn | Hn]; [inversion Hn; subst; lia |]).
    by apply elem_of_nil in Hn.
  Qed.

Lemma neighbours_ext (S S' : Z -> Z -> bool) (x y : Z) :
    (forall a b, 0 <= a < w -> 0 <= b < h -> S a b = S' a b) ->
    1 <= x < w - 1 -> 1 <= y < h - 1 ->
    (fun '(dy, dx) => S (x + dx) (y + dy)) <$> neighbours8
    = (fun '(dy, dx) => S' (x + dx) (y + dy)) <$> neighbours8.
  Proof.
    intros Hag Hx Hy. apply list_fmap_ext. intros i [dy dx] Hl.
    apply list_elem_of_lookup_2 in Hl.
    destruct (interior_neighbour x y dy dx Hx Hy Hl). by apply Hag.
  Qed.

Lemma existsb_fmap {A} (f : A -> bool) (l : list A) :
    existsb f l = existsb id (f <$> l).
  Proof. induction l as [|a l IH]; [done |]. cbn. by rewrite IH. Qed.

Lemma forallb_fmap {A} (f : A -> bool) (l : list A) :
    forallb f l = forallb id (f <$> l).
  Proof. induction l as [|a l IH]; [done |]. cbn. by rewrite IH. Qed.

Lemma dilation_ext (S S' : Z -> Z -> bool) (x y : Z) :
    (forall a b, 0 <= a < w -> 0 <= b < h -> S a b = S' a b) ->
    0 <= x < w -> 0 <= y < h ->
    dilation w h S x y = dilation w h S' x y.
  Proof.
    intros Hag Hx Hy. unfold dilation.
    destruct (is_interior w h x y) eqn:Hi; [| by apply Hag].
    apply interior_iff in Hi as [Hxi Hyi].
    rewrite (Hag x y) by done. f_equal.
    rewrite existsb_fmap, (existsb_fmap (fun '(dy, dx) => S' _ _)).
    by rewrite (neighbours_ext S S').
  Qed.

Lemma erosion_ext (S S' : Z -> Z -> bool) (x y : Z) :
    (forall a b, 0 <= a < w -> 0 <= b < h -> S a b = S' a b) ->
    0 <= x < w -> 0 <= y < h ->
    erosion w h S x y = erosion w h S' x y.
  Proof.
    intros Hag Hx Hy. unfold erosion.
    destruct (is_interior w h x y) eqn:Hi; [| by apply Hag].
    apply interior_iff in Hi as [Hxi Hyi].
    rewrite (Hag x y) by done. f_equal.
    rewrite forallb_fmap, (forallb_fmap (fun '(dy, dx) => S' _ _)).
    by rewrite (neighbours_ext S S').
  Qed.

Lemma dilation_extensive (S : Z -> Z -> bool) (x y : Z) :
    S x y = true -> dilation w h S x y = true.
  Proof. intros Hs. unfold dilation. rewrite Hs. by destruct (is_interior w h x y). Qed.

Lemma erosion_antiextensive (S : Z -> Z -> bool) (x y : Z) :
    erosion w h S x y = true -> S x y = true.
  Proof.
    unfold erosion. destruct (is_interior w h x y); [| done].
    intros Hs. by apply andb_true_iff in Hs as [? _].
  Qed.

  (** One round of [refineMaskEdges]: a closing of the selection, with the
      border ring, all four channels, left as it was. *)
Lemma closing_pass_spec (d : list Z) :
    full_size w h d -> two_level w h d ->
    full_size w h (App.closing_pass w h d) /\
    two_level w h (App.closing_pass w h d) /\
    (forall x y, 0 <= x < w -> 0 <= y < h ->
       sel w (App.closing_pass w h d) x y = closing w h (sel w d) x y) /\
    (forall x y c, 0 <= x < w -> 0 <= y < h -> 0 <= c <= 3 ->
       is_interior w h x y = false ->
       aget (App.closing_pass w h d) ((y * w + x) * 4 + c)
       = aget d ((y * w + x) * 4 + c)).
  Proof using w_nonneg h_nonneg.
    intros Hsize Htl. rewrite closing_pass_rgb.
    set (src := rgb_pass w h (grow_write d w) d).
    assert (Hsrc : full_size w h src).
    { unfold full_size, src. by rewrite rgb_pass_length. }
    assert (Htl' : two_level w h src)
      by by apply grow_two_level.
    assert (Hagree : forall x y, 0 <= x < w -> 0 <= y < h ->
              is_interior w h x y = false \/ sel w src x y = false ->
              aget d ((y * w + x) * 4) = aget src ((y * w + x) * 4)).
    { intros x y Hx Hy Hc. symmetry. by apply grow_same. }
    split; [unfold full_size; by rewrite rgb_pass_length |].
    split; [by apply shrink_copy_two_level |].
    split.
    - intros x y Hx Hy.
      rewrite (shrink_copy_sel w h w_nonneg h_nonneg src d) by done.
      unfold closing. apply erosion_ext; [| done | done].
      intros a b Ha Hb. by apply grow_sel.
    - intros x y c Hx Hy Hc Hb. by apply rgb_pass_border.
  Qed.

  (** One round of [refineMaskEdgesEnhanced]: an opening. *)
Lemma opening_pass_spec (d : list Z) :
    full_size w h d -> two_level w h d ->
    full_size w h (AppEnhanced.opening_pass w h d) /\
    two_level w h (AppEnhanced.opening_pass w h d) /\
    (forall x y, 0 <= x < w -> 0 <= y < h ->
       sel w (AppEnhanced.opening_pass w h d) x y = opening w h (sel w d) x y) /\
    (forall x y c, 0 <= x < w -> 0 <= y < h -> 0 <= c <= 3 ->
       is_interior w h x y = false ->
       aget (AppEnhanced.opening_pass w h d) ((y * w + x) * 4 + c)
       = aget d ((y * w + x) * 4 + c)).
  Proof using w_nonneg h_nonneg.
    intros Hsize Htl. rewrite opening_pass_rgb.
    set (src := rgb_pass w h (shrink_write d w) d).
    assert (Hsrc : full_size w h src).
    { unfold full_size, src. by rewrite rgb_pass_length. }
    assert (Htl' : two_level w h src)
      by by apply shrink_two_level.
    assert (Hagree : forall x y, 0 <= x < w -> 0 <= y < h ->
              is_interior w h x y = false \/ sel w src x y = true ->
              aget d ((y * w + x) * 4) = aget src ((y * w + x) * 4)).
    { intros x y Hx Hy Hc. symmetry. by apply shrink_same. }
    split; [unfold full_size; by rewrite rgb_pass_length |].
    split; [by apply grow_copy_two_level |].
    split.
    - intros x y Hx Hy.
      rewrite (grow_copy_sel w h w_nonneg h_nonneg src d) by done.
      unfold opening. apply dilation_ext; [| done | done].
      intros a b Ha Hb. by apply shrink_sel.
    - intros x y c Hx Hy Hc Hb. by apply rgb_pass_border.
  Qed.

  (** Iterating a pass iterates the operation on the selection. *)
Lemma iter_pass_spec (pass : list Z -> list Z)
        (op : (Z -> Z -> bool) -> Z -> Z -> bool) (n : nat) (d : list Z) :
    (forall d, full_size w h d -> two_level w h d ->
       full_size w h (pass d) /\ two_level w h (pass d) /\
       (forall x y, 0 <= x < w -> 0 <= y < h ->
          sel w (pass d) x y = op (sel w d) x y) /\
       (forall x y c, 0 <= x < w -> 0 <= y < h -> 0 <= c <= 3 ->
          is_interior w h x y = false ->
          aget (pass d) ((y * w + x) * 4 + c) = aget d ((y * w + x) * 4 + c))) ->
    (forall S S' x y,
       (forall a b, 0 <= a < w -> 0 <= b < h -> S a b = S' a b) ->
       0 <= x < w -> 0 <= y < h -> op S x y = op S' x y) ->
    full_size w h d -> two_level w h d ->
    full_size w h (Nat.iter n pass d) /\ two_level w h (Nat.iter n pass d) /\
    (forall x y, 0 <= x < w -> 0 <= y < h ->
       sel w (Nat.iter n pass d) x y = Nat.iter n op (sel w d) x y) /\
    (forall x y c, 0 <= x < w -> 0 <= y < h -> 0 <= c <= 3 ->
       is_interior w h x y = false ->
       aget (Nat.iter n pass d) ((y * w + x) * 4 + c)
       = aget d ((y * w + x) * 4 + c)).
  Proof.
    intros Hpass Hext Hsize Htl. induction n as [|n (IHs & IHt & IHsel & IHb)].
    - cbn. auto.
    - cbn [Nat.iter].
      destruct (Hpass _ IHs IHt) as (Hs & Ht & Hsel & Hb).
      split; [done |]. split; [done |]. split.
      + intros x y Hx Hy. rewrite Hsel by done. by apply Hext.
      + intros x y c Hx Hy Hc Hi. rewrite Hb by done. by apply IHb.
  Qed.

Lemma closing_ext (S S' : Z -> Z -> bool) (x y : Z) :
    (forall a b, 0 <= a < w -> 0 <= b < h -> S a b = S' a b) ->
    0 <= x < w -> 0 <= y < h -> closing w h S x y = closing w h S' x y.
  Proof.
    intros Hag Hx Hy. unfold closing. apply erosion_ext; [| done | done].
    intros a b Ha Hb. by apply dilation_ext.
  Qed.

Lemma opening_ext (S S' : Z -> Z -> bool) (x y : Z) :
    (forall a b, 0 <= a < w -> 0 <= b < h -> S a b = S' a b) ->
    0 <= x < w -> 0 <= y < h -> opening w h S x y = opening w h S' x y.
  Proof.
    intros Hag Hx Hy. unfold opening. apply dilation_ext; [| done | done].
    intros a b Ha Hb. by apply erosion_ext.
  Qed.
End Refine.

(** A 5x5 binary mask whose only selected pixel is the centre. *)
Definition example_dot : ImageData :=
  mkImageData 5 5
    (k ← seqZ 0 25; if decide (k = 12) then [255; 255; 255; 255] else [0; 0; 0; 255]).

Lemma example_dot_two_level : two_level 5 5 (data example_dot).
Proof.
  intros x y Hx Hy.
  assert (Hxs : x = 0 \/ x = 1 \/ x = 2 \/ x = 3 \/ x = 4) by lia.
  assert (Hys : y = 0 \/ y = 1 \/ y = 2 \/ y = 3 \/ y = 4) by lia.
  destruct Hxs as [-> | [-> | [-> | [-> | ->]]]];
    destruct Hys as [-> | [-> | [-> | [-> | ->]]]];
    vm_compute; auto.
Qed.

Lemma example_dot_wf : wf_image example_dot.
Proof. vm_compute. repeat split; discriminate. Qed.

(** C2, as the two variants of app.js implement it. On a binary mask, [n]
    rounds of [refineMaskEdges] are [n] closings of the selection (dilation,
    then erosion of the dilated mask), while [n] rounds of
    [refineMaskEdgesEnhanced] are [n] openings (erosion, then dilation of the
    eroded mask). In both, every pixel of the outermost ring keeps all four
    of its bytes. *)
Theorem refine_is_morphology (img : ImageData) (n : nat) :
  wf_image img ->
  two_level (width img) (height img) (data img) ->
  let w := width img in
  let h := height img in
  let closed := App.refineMaskEdges img n in
  let opened := AppEnhanced.refineMaskEdgesEnhanced img n in
  (forall x y, in_bounds img x y ->
     sel w (data closed) x y = Nat.iter n (closing w h) (sel w (data img)) x y) /\
  (forall x y, in_bounds img x y ->
     sel w (data opened) x y = Nat.iter n (opening w h) (sel w (data img)) x y) /\
  (forall x y c, in_bounds img x y -> 0 <= c <= 3 ->
     is_interior w h x y = false ->
     aget (data closed) ((y * w + x) * 4 + c) = aget (data img) ((y * w + x) * 4 + c) /\
     aget (data opened) ((y * w + x) * 4 + c) = aget (data img) ((y * w + x) * 4 + c)).
Proof.
  intros (Hw & Hh & Hlen) Htl. cbn zeta.
  unfold App.refineMaskEdges, AppEnhanced.refineMaskEdgesEnhanced. cbn [data].
  destruct (iter_pass_spec (width img) (height img)
              (App.closing_pass (width img) (height img))
              (closing (width img) (height img)) n (data img))
    as (_ & _ & Hc & Hcb); try done.
  { intros d. by apply closing_pass_spec. }
  { intros S S' x y. apply closing_ext. }
  destruct (iter_pass_spec (width img) (height img)
              (AppEnhanced.opening_pass (width img) (height img))
              (opening (width img) (height img)) n (data img))
    as (_ & _ & Ho & Hob); try done.
  { intros d. by apply opening_pass_spec. }
  { intros S S' x y. apply opening_ext. }
  split; [intros x y [Hx Hy]; by apply Hc |].
  split; [intros x y [Hx Hy]; by apply Ho |].
  intros x y c [Hx Hy] Hcr Hi. split; [by apply Hcb | by apply Hob].
Qed.

Lemma refine_is_morphology_witness :
  let w := 5 in
  let h := 5 in
  let closed := App.refineMaskEdges example_dot 1 in
  let opened := AppEnhanced.refineMaskEdgesEnhanced example_dot 1 in
  (forall x y, in_bounds example_dot x y ->
     sel w (data closed) x y
     = Nat.iter 1 (closing w h) (sel w (data example_dot)) x y) /\
  (forall x y, in_bounds example_dot x y ->
     sel w (data opened) x y
     = Nat.iter 1 (opening w h) (sel w (data example_dot)) x y) /\
  (forall x y c, in_bounds example_dot x y -> 0 <= c <= 3 ->
     is_interior w h x y = false ->
     aget (data closed) ((y * w + x) * 4 + c)
     = aget (data example_dot) ((y * w + x) * 4 + c) /\
     aget (data opened) ((y * w + x) * 4 + c)
     = aget (data example_dot) ((y * w + x) * 4 + c)).
Proof.
  apply (refine_is_morphology example_dot 1).
  - vm_compute. repeat split; discriminate.
  - exact example_dot_two_level.
Defined.

(** [refineMaskEdgesEnhanced] does not perform a closing: on the centre
    dot one round unselects the dot, which a closing keeps. *)
Lemma refine_enhanced_counterexample :
  sel 5 (data (AppEnhanced.refineMaskEdgesEnhanced example_dot 1)) 2 2 = false /\
  Nat.iter 1 (closing 5 5) (sel 5 (data example_dot)) 2 2 = true.
Proof. split; vm_compute; reflexivity. Qed.

Section IsolatedPixel.
  Variables (w h x0 y0 : Z) (S : Z -> Z -> bool).
  Hypothesis x0_inside : 2 <= x0 < w - 2.
  Hypothesis y0_inside : 2 <= y0 < h - 2.
  Hypothesis only : forall x y, 0 <= x < w -> 0 <= y < h ->
    S x y = true -> x = x0 /\ y = y0.
  Hypothesis dot : S x0 y0 = true.

Lemma isolated_eroded (x y : Z) :
    0 <= x < w -> 0 <= y < h -> erosion w h S x y = false.
  Proof using x0_inside y0_inside only.
    intros Hx Hy. destruct (erosion w h S x y) eqn:He; [| done].
    pose proof (erosion_antiextensive w h S x y He) as Hs.
    destruct (only x y Hx Hy Hs) as [-> ->].
    unfold erosion in He.
    rewrite (proj2 (interior_iff w h x0 y0)) in He by lia.
    apply andb_true_iff in He as [_ He]. cbn [forallb neighbours8] in He.
    apply andb_true_iff in He as [He _].
    destruct (only (x0 + -1) (y0 + -1) ltac:(lia) ltac:(lia) He). lia.
  Qed.

Lemma isolated_opened (x y : Z) :
    0 <= x < w -> 0 <= y < h -> opening w h S x y = false.
  Proof using x0_inside y0_inside only.
    intros Hx Hy. unfold opening.
    rewrite (dilation_ext w h _ (fun _ _ => false)); [| | done | done].
    - unfold dilation. by destruct (is_interior w h x y).
    - intros a b Ha Hb. by apply isolated_eroded.
  Qed.

Lemma isolated_closed : closing w h S x0 y0 = true.
  Proof using x0_inside y0_inside dot.
    unfold closing, erosion.
    rewrite (proj2 (interior_iff w h x0 y0)) by lia.
    rewrite dilation_extensive by done. cbn [andb].
    apply forallb_forall. intros [dy dx] Hin. cbn in Hin.
    unfold dilation.
    repeat (destruct Hin as [Hin | Hin];
            [inversion Hin; subst dy dx;
             rewrite (proj2 (interior_iff w h _ _)) by lia;
             apply orb_true_iff; right; apply existsb_exists;
             match goal with
             | |- context [S (x0 + ?a + _) (y0 + ?b + _)] =>
                 exists (- b, - a)
             end;
             (split; [cbn; auto 10 |]);
             match goal with
             | |- S ?a ?b = true =>
                 replace a with x0 by lia; replace b with y0 by lia; exact dot
             end |]).
    destruct Hin.
  Qed.
End IsolatedPixel.

(** C3, as the two variants of app.js implement it. On a binary mask whose
    only selected pixel lies at least two pixels away from every edge, one
    round of [refineMaskEdgesEnhanced] (erosion first) leaves no pixel
    selected, so the isolated pixel is removed; one round of
    [refineMaskEdges] (dilation first) leaves that pixel selected. *)
Theorem isolated_pixel_refined (img : ImageData) (x0 y0 : Z) :
  wf_image img ->
  two_level (width img) (height img) (data img) ->
  2 <= x0 < width img - 2 -> 2 <= y0 < height img - 2 ->
  sel (width img) (data img) x0 y0 = true ->
  (forall x y, in_bounds img x y -> sel (width img) (data img) x y = true ->
               x = x0 /\ y = y0) ->
  sel (width img) (data (AppEnhanced.refineMaskEdgesEnhanced img 1)) x0 y0 = false /\
  (forall x y, in_bounds img x y ->
     sel (width img) (data (AppEnhanced.refineMaskEdgesEnhanced img 1)) x y = false) /\
  sel (width img) (data (App.refineMaskEdges img 1)) x0 y0 = true.
Proof.
  intros Hwf Htl Hx0 Hy0 Hdot Honly.
  pose proof Hwf as (Hw & Hh & Hlen).
  unfold App.refineMaskEdges, AppEnhanced.refineMaskEdgesEnhanced.
  cbn [data Nat.iter].
  destruct (closing_pass_spec (width img) (height img) Hw Hh (data img) Hlen Htl)
    as (_ & _ & Hc & _).
  destruct (opening_pass_spec (width img) (height img) Hw Hh (data img) Hlen Htl)
    as (_ & _ & Ho & _).
  assert (Hall : forall x y, in_bounds img x y ->
            sel (width img) (AppEnhanced.opening_pass (width img) (height img) (data img))
                x y = false).
  { intros x y [Hx Hy]. rewrite Ho by done.
    apply (isolated_opened (width img) (height img) x0 y0); try done.
    intros a b Ha Hb. by apply Honly. }
  split; [apply Hall; split; lia |]. split; [exact Hall |].
  rewrite Hc by lia.
  by apply (isolated_closed (width img) (height img) x0 y0).
Qed.

Lemma example_dot_only (x y : Z) :
  in_bounds example_dot x y -> sel 5 (data example_dot) x y = true -> x = 2 /\ y = 2.
Proof.
  intros [Hx Hy]. cbn in Hx, Hy.
  assert (Hxs : x = 0 \/ x = 1 \/ x = 2 \/ x = 3 \/ x = 4) by lia.
  assert (Hys : y = 0 \/ y = 1 \/ y = 2 \/ y = 3 \/ y = 4) by lia.
  destruct Hxs as [-> | [-> | [-> | [-> | ->]]]];
    destruct Hys as [-> | [-> | [-> | [-> | ->]]]];
    vm_compute; intros; (discriminate || (split; reflexivity)).
Qed.

Lemma isolated_pixel_refined_witness :
  sel 5 (data (AppEnhanced.refineMaskEdgesEnhanced example_dot 1)) 2 2 = false /\
  (forall x y, in_bounds example_dot x y ->
     sel 5 (data (AppEnhanced.refineMaskEdgesEnhanced example_dot 1)) x y = false) /\
  sel 5 (data (App.refineMaskEdges example_dot 1)) 2 2 = true.
Proof.
  apply (isolated_pixel_refined example_dot 2 2).
  - vm_compute. repeat split; discriminate.
  - exact example_dot_two_level.
  - vm_compute. repeat split; discriminate.
  - vm_compute. repeat split; discriminate.
  - vm_compute. reflexivity.
  - exact example_dot_only.
Defined.

(** [refineMaskEdges] keeps an isolated pixel: the closing it performs
    fills the pixel's neighbourhood before it erodes. *)
Lemma refine_closing_counterexample :
  sel 5 (data example_dot) 2 2 = true /\
  (forall x y, in_bounds example_dot x y ->
     sel 5 (data example_dot) x y = true -> x = 2 /\ y = 2) /\
  sel 5 (data (App.refineMaskEdges example_dot 1)) 2 2 = true.
Proof.
  split; [reflexivity |]. split; [exact example_dot_only |]. reflexivity.
Qed.

(** * Further properties of the history *)

Section HistoryMore.
Import MaskTools.

Lemma undo_inv (s : t) :
  hist_inv s ->
  exists s1, undo s = Some (s1, canUndo s) /\ hist_inv s1 /\
             maxHistorySize s1 = maxHistorySize s /\
             history s1 = history s /\
             (canUndo s = false -> s1 = s) /\
             (canUndo s = true -> historyStep s1 = historyStep s - 1).
Proof.
  intros (Hcap & Hstep & Hlen & Hcur). unfold undo, canUndo.
  case_decide as Hpos.
  - destruct (lookup_lt_is_Some_2 (history s) (Z.to_nat (historyStep s - 1)))
      as [img Himg]; [lia |].
    rewrite Himg, bool_decide_eq_true_2 by done.
    eexists. split; [done |].
    unfold hist_inv, putImageData. cbn. repeat split; try lia; done.
  - rewrite bool_decide_eq_false_2 by done.
    exists s. repeat split; try done; lia.
Qed.

Lemma redo_inv (s : t) :
  hist_inv s ->
  exists s1, redo s = Some (s1, canRedo s) /\ hist_inv s1 /\
             maxHistorySize s1 = maxHistorySize s /\
             history s1 = history s /\
             (canRedo s = false -> s1 = s) /\
             (canRedo s = true -> historyStep s1 = historyStep s + 1).
Proof.
  intros (Hcap & Hstep & Hlen & Hcur). unfold redo, canRedo.
  case_decide as Hpos.
  - case_decide; [| lia].
    destruct (lookup_lt_is_Some_2 (history s) (Z.to_nat (historyStep s + 1)))
      as [img Himg]; [lia |].
    rewrite Himg, bool_decide_eq_true_2 by done.
    eexists. split; [done |].
    unfold hist_inv, putImageData. cbn. repeat split; try lia; done.
  - rewrite bool_decide_eq_false_2 by done.
    exists s. repeat split; try done; lia.
Qed.

Lemma run_op_inv (op : HistoryOp) (s : t) :
  hist_inv s -> exists s', run_op op s = Some s' /\ hist_inv s' /\
                           maxHistorySize s' = maxHistorySize s.
Proof.
  intros Hinv. destruct op as [m | | |]; cbn [run_op].
  - exists (commit m s). split; [done |].
    destruct (commit_inv m s Hinv) as (? & _ & _ & ? & _). done.
  - destruct (undo_inv s Hinv) as (s1 & -> & Hinv1 & Hm & _). by exists s1.
  - destruct (redo_inv s Hinv) as (s1 & -> & Hinv1 & Hm & _). by exists s1.
  - exists (clearMask s). split; [done |].
    destruct (commit_inv (clearRect (maskCanvas s)) s Hinv) as (? & _ & _ & ? & _).
    done.
Qed.

Lemma run_ops_inv (ops : list HistoryOp) (s : t) :
  hist_inv s -> exists s', run_ops ops s = Some s' /\ hist_inv s' /\
                           maxHistorySize s' = maxHistorySize s.
Proof.
  revert s. induction ops as [|op ops IH]; intros s Hinv.
  - by exists s.
  - cbn [run_ops].
    destruct (run_op_inv op s Hinv) as (s1 & -> & Hinv1 & Hm1).
    destruct (IH s1 Hinv1) as (s2 & Hs2 & Hinv2 & Hm2).
    exists s2. split; [done |]. split; [done | congruence].
Qed.

(** X1: the history never breaks. Whatever sequence of commits, undos,
    redos and clears is run on a fresh [MaskTools] of capacity at least 1,
    no call throws, the cursor stays a valid index, the stack stays within
    its capacity, the snapshot under the cursor is the canvas on screen, and
    [undo()] and [redo()] return exactly what [canUndo()] and [canRedo()]
    announce. *)
Theorem history_always_consistent (C : Z) (mask overlay : ImageData)
        (ops : list HistoryOp) :
  1 <= C ->
  exists s,
    run_ops ops (create_with C mask overlay) = Some s /\
    0 <= historyStep s < Z.of_nat (length (history s)) /\
    Z.of_nat (length (history s)) <= C /\
    history s !! Z.to_nat (historyStep s) = Some (maskCanvas s) /\
    (exists s1, undo s = Some (s1, canUndo s)) /\
    (exists s2, redo s = Some (s2, canRedo s)).
Proof.
  intros HC.
  destruct (create_with_inv C mask overlay HC) as (Hinv & _ & Hcap & _).
  destruct (run_ops_inv ops _ Hinv) as (s & Hs & Hinv' & Hm).
  exists s. split; [done |].
  pose proof Hinv' as (_ & Hstep & Hlen & Hcur).
  split; [done |]. split; [lia |]. split; [done |].
  destruct (undo_inv s Hinv') as (s1 & Hu & _).
  destruct (redo_inv s Hinv') as (s2 & Hr & _).
  split; eauto.
Qed.

Lemma history_always_consistent_witness :
  exists s,
    run_ops [OpCommit example_green; OpUndo; OpRedo; OpClear; OpUndo]
            (create_with 2 example_blank example_blank) = Some s /\
    0 <= historyStep s < Z.of_nat (length (history s)) /\
    Z.of_nat (length (history s)) <= 2 /\
    history s !! Z.to_nat (historyStep s) = Some (maskCanvas s) /\
    (exists s1, undo s = Some (s1, canUndo s)) /\
    (exists s2, redo s = Some (s2, canRedo s)).
Proof.
  apply (history_always_consistent 2 example_blank example_blank
           [OpCommit example_green; OpUndo; OpRedo; OpClear; OpUndo]).
  lia.
Defined.

(** X2: a commit after an undo discards the undone states for good. If
    [undo()] succeeded, the next commit keeps the snapshots up to the
    restored one, appends the new one and leaves nothing to redo. *)
Theorem commit_after_undo_discards_redo (s s1 : t) (m : ImageData) :
  hist_inv s ->
  undo s = Some (s1, true) ->
  let s2 := commit m s1 in
  history s2 = take (Z.to_nat (historyStep s)) (history s) ++ [m] /\
  historyStep s2 = historyStep s /\
  canRedo s2 = false /\
  redo s2 = Some (s2, false).
Proof.
  intros Hinv Hundo. cbn zeta.
  destruct (undo_inv s Hinv) as (s1' & Hu & Hinv1 & Hm1 & Hh1 & _ & Hs1).
  rewrite Hundo in Hu. inversion Hu as [[Heq Hcan]]. subst s1'.
  specialize (Hs1 (eq_sym Hcan)).
  pose proof Hinv as (Hcap & Hstep & Hlen & Hcur).
  pose proof Hinv1 as (Hcap1 & Hstep1 & Hlen1 & Hcur1).
  unfold commit.
  destruct (saveState_spec (set_maskCanvas m s1)
              ltac:(cbn; lia) ltac:(cbn; lia) ltac:(cbn; lia))
    as (_ & _ & Htip & _ & _ & Hpush & _).
  cbn in Hpush. destruct Hpush as [Hh Hs]; [lia |].
  rewrite Hh, Hs, Hs1, Hh1.
  replace (historyStep s - 1 + 1) with (historyStep s) by lia.
  split; [done |]. split; [done |].
  assert (Hno : canRedo (saveState (set_maskCanvas m s1)) = false).
  { unfold canRedo. apply bool_decide_eq_false. unfold at_tip in Htip. lia. }
  split; [done |].
  unfold redo. case_decide as Hr; [| done].
  unfold at_tip in Htip. lia.
Qed.

Lemma commit_after_undo_discards_redo_witness :
  let s1 := set_maskCanvas example_blank
              (set_history [example_blank; example_green] 0 example_tools) in
  let s2 := commit example_segmentation s1 in
  history s2 = take (Z.to_nat (historyStep example_tools)) (history example_tools)
               ++ [example_segmentation] /\
  historyStep s2 = historyStep example_tools /\
  canRedo s2 = false /\
  redo s2 = Some (s2, false).
Proof.
  apply (commit_after_undo_discards_redo example_tools).
  - vm_compute. repeat split; (discriminate || reflexivity).
  - reflexivity.
Defined.

(** X3: undo takes back a commit. With room for at least two snapshots,
    [undo()] right after a committed mutation succeeds and puts the canvas
    that preceded the mutation back on screen, also when the commit evicted
    the oldest snapshot. *)
Theorem undo_after_commit (s : t) (m : ImageData) :
  hist_inv s ->
  2 <= maxHistorySize s ->
  exists s', undo (commit m s) = Some (s', true) /\
             maskCanvas s' = maskCanvas s /\
             canRedo s' = true.
Proof.
  intros Hinv Hcap2.
  pose proof Hinv as (Hcap & Hstep & Hlen & Hcur).
  unfold commit.
  destruct (saveState_spec (set_maskCanvas m s)
              ltac:(cbn; lia) ltac:(cbn; lia) ltac:(cbn; lia))
    as (_ & _ & Htip & Hl & _ & Hpush & Hevict).
  cbn in Hl, Hpush, Hevict. unfold at_tip in Htip.
  set (s2 := saveState (set_maskCanvas m s)) in *.
  assert (Hprev : 0 < historyStep s2 /\
                  history s2 !! Z.to_nat (historyStep s2 - 1) = Some (maskCanvas s)).
  { destruct (decide (historyStep s + 2 <= maxHistorySize s)) as [Hroom | Hfull].
    - destruct (Hpush Hroom) as [Hh Hs]. rewrite Hh, Hs. split; [lia |].
      replace (historyStep s + 1 - 1) with (historyStep s) by lia.
      rewrite lookup_app_l by (rewrite length_take; lia).
      rewrite lookup_take_lt by lia. done.
    - destruct (Hevict ltac:(lia)) as [Hh Hs]. rewrite Hh, Hs. split; [lia |].
      destruct (history s) as [|h0 hs] eqn:Hhist; [cbn in Hstep; lia |].
      cbn [tail length] in *.
      rewrite lookup_app_l by lia.
      replace (Z.to_nat (historyStep s)) with (S (Z.to_nat (historyStep s - 1)))
        in Hcur by lia.
      done. }
  destruct Hprev as [Hpos Hlook].
  unfold undo. case_decide; [| lia]. rewrite Hlook.
  eexists. split; [done |]. split; [done |].
  unfold canRedo. cbn. apply bool_decide_eq_true. lia.
Qed.

Lemma undo_after_commit_witness :
  exists s', undo (commit example_segmentation example_tools) = Some (s', true) /\
             maskCanvas s' = maskCanvas example_tools /\
             canRedo s' = true.
Proof.
  apply (undo_after_commit example_tools example_segmentation).
  - vm_compute. repeat split; (discriminate || reflexivity).
  - vm_compute. discriminate.
Defined.

Lemma commits_history (ms : list ImageData) (s : t) :
  hist_inv s -> at_tip s ->
  Z.of_nat (length (history s)) + Z.of_nat (length ms) <= maxHistorySize s ->
  history (commits ms s) = history s ++ ms /\
  historyStep (commits ms s) = historyStep s + Z.of_nat (length ms) /\
  hist_inv (commits ms s).
Proof.
  revert s. induction ms as [|m ms IH]; intros s Hinv Htip Hroom.
  - cbn. rewrite app_nil_r. split; [done |]. split; [lia | done].
  - cbn [commits fold_left]. fold (commits ms (commit m s)).
    pose proof Hinv as (Hcap & Hstep & Hlen & Hcur).
    destruct (commit_inv m s Hinv) as (Hinv' & Htip' & _ & Hm & _).
    unfold at_tip in Htip. cbn [length] in Hroom.
    assert (Hc : history (commit m s) = history s ++ [m] /\
                 historyStep (commit m s) = historyStep s + 1).
    { unfold commit.
      destruct (saveState_spec (set_maskCanvas m s)
                  ltac:(cbn; lia) ltac:(cbn; lia) ltac:(cbn; lia))
        as (_ & _ & _ & _ & _ & Hpush & _).
      cbn in Hpush. destruct Hpush as [Hh Hs]; [lia |].
      rewrite Hh, Hs. rewrite take_ge by lia. done. }
    destruct Hc as [Hh Hs].
    destruct (IH (commit m s) Hinv' Htip') as (IHh & IHs & IHi).
    { rewrite Hm, Hh, length_app. cbn [length]. lia. }
    rewrite IHh, IHs, Hh, Hs, <- app_assoc. cbn [app length].
    split; [done |]. split; [lia | done].
Qed.

Lemma undo_times_spec (n : nat) (s : t) :
  hist_inv s -> Z.of_nat n <= historyStep s ->
  exists s', undo_times n s = Some s' /\ hist_inv s' /\
             history s' = history s /\
             historyStep s' = historyStep s - Z.of_nat n.
Proof.
  revert s. induction n as [|n IH]; intros s Hinv Hn.
  - exists s. cbn. split; [done |]. split; [done |]. split; [done | lia].
  - cbn [undo_times].
    destruct (undo_inv s Hinv) as (s1 & Hu & Hinv1 & _ & Hh1 & _ & Hs1).
    assert (Hcan : canUndo s = true).
    { unfold canUndo. apply bool_decide_eq_true. lia. }
    rewrite Hu, Hcan. specialize (Hs1 Hcan).
    destruct (IH s1 Hinv1 ltac:(lia)) as (s' & Hs' & Hinv' & Hh' & Hst').
    exists s'. split; [done |]. split; [done |]. split; [congruence | lia].
Qed.

(** X4: undoing everything walks back through the session. After [N]
    commits that fit the capacity, [k <= N] successful undos put the canvas
    of the commit [k] steps back on screen; [N] undos restore the initial
    mask, and then nothing is left to undo. *)
Theorem undo_walks_back (C : Z) (mask overlay : ImageData)
        (ms : list ImageData) (k : nat) :
  1 <= C ->
  Z.of_nat (length ms) + 1 <= C ->
  (k <= length ms)%nat ->
  exists s',
    undo_times k (commits ms (create_with C mask overlay)) = Some s' /\
    Some (maskCanvas s') = (mask :: ms) !! (length ms - k)%nat /\
    (k = length ms -> maskCanvas s' = mask /\ canUndo s' = false).
Proof.
  intros HC Hfit Hk.
  destruct (create_with_inv C mask overlay HC) as (Hinv & Htip & Hcap & Hone).
  destruct (commits_history ms _ Hinv Htip) as (Hh & Hs & Hinv').
  { rewrite Hcap, Hone. cbn [length]. lia. }
  rewrite Hone in Hh. cbn [app] in Hh.
  assert (Hs0 : historyStep (create_with C mask overlay) = 0).
  { unfold at_tip in Htip. rewrite Hone in Htip. cbn in Htip. lia. }
  rewrite Hs0 in Hs.
  destruct (undo_times_spec k _ Hinv' ltac:(lia)) as (s' & Hs' & Hinv'' & Hh' & Hst').
  exists s'. split; [done |].
  pose proof Hinv'' as (_ & _ & _ & Hcur).
  rewrite Hh', Hh, Hst', Hs in Hcur.
  replace (Z.to_nat (0 + Z.of_nat (length ms) - Z.of_nat k))
    with (length ms - k)%nat in Hcur by lia.
  split; [done |].
  intros ->. rewrite Nat.sub_diag in Hcur. cbn in Hcur.
  split; [congruence |].
  unfold canUndo. apply bool_decide_eq_false. lia.
Qed.

Lemma undo_walks_back_witness :
  exists s',
    undo_times 2 (commits [example_green; example_segmentation]
                    (create_with 3 example_blank example_blank)) = Some s' /\
    Some (maskCanvas s')
    = (example_blank :: [example_green; example_segmentation]) !! (2 - 2)%nat /\
    (2%nat = length [example_green; example_segmentation] ->
     maskCanvas s' = example_blank /\ canUndo s' = false).
Proof.
  apply (undo_walks_back 3 example_blank example_blank
           [example_green; example_segmentation] 2).
  - lia.
  - cbn. lia.
  - cbn. lia.
Defined.

End HistoryMore.

(** * Further properties of the mask conversions *)

Section Conversions.
Import MaskTools.

Lemma wf_mod4 (img : ImageData) :
  wf_image img -> Z.of_nat (length (data img)) `mod` 4 = 0.
Proof.
  intros (_ & _ & ->).
  replace (4 * width img * height img) with (width img * height img * 4) by lia.
  apply Z_mod_mult.
Qed.

Lemma wf_pixel (img : ImageData) (x y : Z) :
  wf_image img -> in_bounds img x y ->
  exists p, pixel_at (data img) ((y * width img + x) * 4) p.
Proof.
  intros (Hw & Hh & Hlen) [Hx Hy].
  pose proof (index_in_range _ _ Hw Hh x y Hx Hy).
  apply pixel_at_exists; lia.
Qed.

Lemma wf_getMaskData (s : t) :
  wf_image (maskCanvas s) -> wf_image (getMaskData s).
Proof.
  intros (Hw & Hh & Hlen). unfold wf_image.
  rewrite length_getMaskData. done.
Qed.

Lemma wf_convertToGreenOverlay theme (img : ImageData) :
  wf_image img -> wf_image (convertToGreenOverlay theme img).
Proof.
  intros (Hw & Hh & Hlen). unfold wf_image.
  rewrite length_convertToGreenOverlay. done.
Qed.

(** The reading of a pixel: selected when the canvas's green is above 50. *)
Lemma getMaskData_sel (s : t) (x y r g b a : Z) :
  pixel_at (data (maskCanvas s)) ((y * width (maskCanvas s) + x) * 4) (r, g, b, a) ->
  sel (width (maskCanvas s)) (data (getMaskData s)) x y = bool_decide (50 < g).
Proof.
  intros Hp. apply getMaskData_pixel in Hp; [| apply Z_mod_mult].
  cbn zeta in Hp. destruct Hp as (Hr & _). unfold sel. rewrite Hr.
  by destruct (bool_decide (50 < g)).
Qed.

(** A pure pixel: black or white, opaque or not. *)
Definition pure_pixel (d : list Z) (off : Z) : Prop :=
  exists v a, (v = 0 \/ v = 255) /\ pixel_at d off (v, v, v, a).

(** A binary image: every pixel is pure. The masks the tools exchange
    ([getMaskData], [createClickMask], [createBinaryMask], the refined masks)
    are of this kind. *)
Definition binary_image (img : ImageData) : Prop :=
  forall x y, in_bounds img x y ->
    pure_pixel (data img) ((y * width img + x) * 4).

Lemma pure_pixel_sel (w : Z) (d : list Z) (x y v a : Z) :
  (v = 0 \/ v = 255) ->
  pixel_at d ((y * w + x) * 4) (v, v, v, a) ->
  sel w d x y = bool_decide (v = 255).
Proof.
  intros Hv (Hr & _). unfold sel. rewrite Hr.
  destruct Hv as [-> | ->]; reflexivity.
Qed.

Lemma binary_getMaskData (s : t) :
  wf_image (maskCanvas s) -> binary_image (getMaskData s).
Proof.
  intros Hwf x y Hin.
  destruct (wf_pixel (maskCanvas s) x y Hwf Hin) as ([[[r g] b] a] & Hp).
  apply getMaskData_pixel in Hp; [| apply Z_mod_mult]. cbn zeta in Hp.
  exists (if bool_decide (50 < g) then 255 else 0), 255.
  split; [by destruct (bool_decide (50 < g)); auto | done].
Qed.

Lemma binary_createBinaryMask (img : ImageData) :
  wf_image img -> binary_image (createBinaryMask img).
Proof.
  intros Hwf x y Hin.
  destruct (wf_pixel img x y Hwf Hin) as ([[[r g] b] a] & Hp).
  apply createBinaryMask_pixel in Hp; [| apply Z_mod_mult]. cbn zeta in Hp.
  exists (if bool_decide (128 < r) then 255 else 0), 255.
  split; [by destruct (bool_decide (128 < r)); auto | done].
Qed.

(** X5: the display form and the binary form are consistent. A binary
    mask put on the canvas as a green overlay reads back, through
    [getMaskData()], as the same selection, for every overlay colour whose
    green is above 50; read back twice, it is the same image byte for
    byte. *)
Theorem overlay_reads_back (theme : Theme) (mt : t) (img : ImageData) :
  50 < overlayG theme ->
  wf_image img ->
  binary_image img ->
  maskCanvas mt = convertToGreenOverlay theme img ->
  (forall x y, in_bounds img x y ->
     sel (width img) (data (getMaskData mt)) x y = sel (width img) (data img) x y) /\
  (forall mt', maskCanvas mt' = convertToGreenOverlay theme (getMaskData mt) ->
     getMaskData mt' = getMaskData mt).
Proof.
  intros Hgreen Hwf Hbin Hcanvas.
  assert (Hread : forall (m : t) (i : ImageData),
            wf_image i -> binary_image i ->
            maskCanvas m = convertToGreenOverlay theme i ->
            forall x y, in_bounds i x y ->
              exists v a, (v = 0 \/ v = 255) /\
                pixel_at (data i) ((y * width i + x) * 4) (v, v, v, a) /\
                pixel_at (data (getMaskData m)) ((y * width i + x) * 4)
                         (v, v, v, 255)).
  { intros m i Hwfi Hbi Hc x y Hin.
    destruct (Hbi x y Hin) as (v & a & Hv & Hp).
    exists v, a. split; [done |]. split; [done |].
    pose proof Hp as Hp'.
    apply (convertToGreenOverlay_pixel theme) in Hp'; [| apply Z_mod_mult].
    rewrite <- Hc in Hp'.
    destruct Hv as [-> | ->]; cbn in Hp';
      apply getMaskData_pixel in Hp'; try apply Z_mod_mult; cbn zeta in Hp'.
    - exact Hp'.
    - rewrite bool_decide_eq_true_2 in Hp' by (unfold u8; lia). exact Hp'. }
  split.
  - intros x y Hin.
    destruct (Hread mt img Hwf Hbin Hcanvas x y Hin) as (v & a & Hv & Hp & Hp').
    by rewrite (pure_pixel_sel _ _ x y v a Hv Hp),
               (pure_pixel_sel _ _ x y v 255 Hv Hp').
  - intros mt' Hc'.
    assert (Hwfc : wf_image (maskCanvas mt)).
    { rewrite Hcanvas. by apply wf_convertToGreenOverlay. }
    pose proof (wf_getMaskData mt Hwfc) as Hwfg.
    pose proof (binary_getMaskData mt Hwfc) as Hbg.
    assert (Hd : data (getMaskData mt') = data (getMaskData mt)).
    { apply pixels_eq.
      - rewrite length_getMaskData, Hc', length_convertToGreenOverlay. done.
      - rewrite length_getMaskData, Hc', length_convertToGreenOverlay.
        by apply wf_mod4.
      - intros i Hm Hi Hlen.
        rewrite length_getMaskData, Hc', length_convertToGreenOverlay in Hlen.
        destruct Hwfg as (Hw & Hh & Hl). rewrite Hl in Hlen.
        set (w := width (getMaskData mt)) in *.
        set (h := height (getMaskData mt)) in *.
        assert (Hpos : 0 < w) by nia.
        assert (Hxy : in_bounds (getMaskData mt) ((i `div` 4) `mod` w)
                        ((i `div` 4) `div` w)).
        { split; fold w h.
          - apply Z.mod_pos_bound. lia.
          - split; [apply Z.div_pos; [apply Z.div_pos |]; lia |].
            apply Z.div_lt_upper_bound; [lia |].
            apply Z.div_lt_upper_bound; lia. }
        destruct (Hread mt' (getMaskData mt)
                    ltac:(split; [exact Hw | split; [exact Hh | exact Hl]])
                    Hbg Hc' _ _ Hxy) as (v & a & Hv & Hp & Hp').
        fold w in Hp, Hp'.
        replace (((i `div` 4) `div` w * w + (i `div` 4) `mod` w) * 4) with i
          in Hp, Hp'.
        2:{ rewrite (Z.mul_comm _ w), <- Z.div_mod by lia.
            apply Z_div_exact_full_2 in Hm; lia. }
        destruct (Hbg _ _ Hxy) as (v2 & a2 & _ & Hp2). fold w in Hp2.
        replace (((i `div` 4) `div` w * w + (i `div` 4) `mod` w) * 4) with i
          in Hp2.
        2:{ rewrite (Z.mul_comm _ w), <- Z.div_mod by lia.
            apply Z_div_exact_full_2 in Hm; lia. }
        pose proof (binary_getMaskData mt Hwfc) as _.
        assert (Ha : a = 255).
        { pose proof Hxy as Hxy'.
          destruct (wf_pixel (maskCanvas mt) _ _ Hwfc Hxy') as ([[[r g] b] a0] & Hq).
          apply getMaskData_pixel in Hq; [| apply Z_mod_mult]. cbn zeta in Hq.
          change (width (maskCanvas mt)) with w in Hq.
          replace (((i `div` 4) `div` w * w + (i `div` 4) `mod` w) * 4) with i in Hq.
          2:{ rewrite (Z.mul_comm _ w), <- Z.div_mod by lia.
              apply Z_div_exact_full_2 in Hm; lia. }
          pose proof (pixel_at_inj _ _ _ _ Hp Hq) as Heq. congruence. }
        subst a. eexists. split; [exact Hp' | exact Hp]. }
    unfold getMaskData, getImageData in *. cbn [data] in Hd.
    rewrite Hd, Hc'. done.
Qed.

End Conversions.

Definition example_white : ImageData := mkImageData 1 1 [255; 255; 255; 255].

Definition example_overlay_tools : MaskTools.t :=
  commit (MaskTools.convertToGreenOverlay MaskTools.dark example_white)
         example_click_tools.

Lemma example_white_binary : binary_image example_white.
Proof.
  intros x y [Hx Hy]. cbn in Hx, Hy.
  assert (x = 0) by lia. assert (y = 0) by lia. subst.
  exists 255, 255. split; [auto |]. vm_compute. auto.
Qed.

Lemma overlay_reads_back_witness :
  (forall x y, in_bounds example_white x y ->
     sel (width example_white) (data (MaskTools.getMaskData example_overlay_tools)) x y
     = sel (width example_white) (data example_white) x y) /\
  (forall mt',
     MaskTools.maskCanvas mt'
     = MaskTools.convertToGreenOverlay MaskTools.dark
         (MaskTools.getMaskData example_overlay_tools) ->
     MaskTools.getMaskData mt' = MaskTools.getMaskData example_overlay_tools).
Proof.
  apply (overlay_reads_back MaskTools.dark example_overlay_tools example_white).
  - vm_compute. reflexivity.
  - vm_compute. repeat split; discriminate.
  - exact example_white_binary.
  - reflexivity.
Defined.

Section Conversions2.
Import MaskTools.

(** X6: the export adds nothing to the binary reading. On a canvas of
    whole pixels, [createBinaryMask(getMaskData())] is [getMaskData()]
    itself, byte for byte: the second thresholding of [handleDownload] finds
    the mask already two-level. *)
Theorem export_equals_reading (s : t) :
  wf_image (maskCanvas s) ->
  createBinaryMask (getMaskData s) = getMaskData s.
Proof.
  intros Hwf.
  assert (Hd : data (createBinaryMask (getMaskData s)) = data (getMaskData s)).
  { apply pixels_eq.
    - apply length_createBinaryMask.
    - rewrite length_createBinaryMask, length_getMaskData. by apply wf_mod4.
    - intros i Hm Hi Hlen.
      rewrite length_createBinaryMask, length_getMaskData in Hlen.
      destruct (pixel_at_exists (data (maskCanvas s)) i Hi Hlen)
        as ([[[r g] b] a] & Hp).
      apply getMaskData_pixel in Hp; [| done]. cbn zeta in Hp.
      pose proof Hp as Hq.
      apply createBinaryMask_pixel in Hq; [| done]. cbn zeta in Hq.
      eexists. split; [exact Hq |].
      destruct (bool_decide (50 < g)); exact Hp. }
  unfold createBinaryMask in *. cbn [data width height] in *.
  rewrite Hd. by destruct (getMaskData s).
Qed.

Lemma export_equals_reading_witness :
  createBinaryMask (getMaskData example_tools) = getMaskData example_tools.
Proof.
  apply (export_equals_reading example_tools).
  vm_compute. repeat split; discriminate.
Defined.

(** X7: inversion is the complement. [handleInvert] commits one snapshot,
    and in the mask it leaves every pixel is selected exactly when it was
    not selected before. *)
Theorem invert_complements (theme : Theme) (app : AppEnhanced.t) (mt : t) :
  AppEnhanced.maskTools app = Some mt ->
  wf_image (maskCanvas mt) ->
  50 < overlayG theme ->
  exists mt',
    AppEnhanced.maskTools (AppEnhanced.handleInvert theme app) = Some mt' /\
    mt' = commit (inverted_canvas theme mt) mt /\
    forall x y, in_bounds (maskCanvas mt) x y ->
      sel (width (maskCanvas mt)) (data (getMaskData mt')) x y
      = negb (sel (width (maskCanvas mt)) (data (getMaskData mt)) x y).
Proof.
  intros Hmt Hwf Hgreen.
  exists (commit (inverted_canvas theme mt) mt).
  split; [unfold AppEnhanced.handleInvert; by rewrite Hmt |].
  split; [done |].
  intros x y Hin.
  destruct (wf_pixel _ x y Hwf Hin) as ([[[r g] b] a] & Hp).
  destruct (inverted_canvas_pixel theme Hgreen mt _ r g b a
              ltac:(apply Z_mod_mult) Hp) as (r' & g' & b' & a' & Hp' & Hflip).
  rewrite (getMaskData_sel mt x y r g b a Hp).
  assert (Hc : maskCanvas (commit (inverted_canvas theme mt) mt)
               = inverted_canvas theme mt).
  { unfold commit. by rewrite maskCanvas_saveState. }
  assert (Hw : width (maskCanvas (commit (inverted_canvas theme mt) mt))
               = width (maskCanvas mt)) by by rewrite Hc.
  rewrite <- Hw. rewrite <- Hc, <- Hw in Hp'.
  by rewrite (getMaskData_sel _ x y r' g' b' a' Hp').
Qed.

Lemma invert_complements_witness :
  exists mt',
    AppEnhanced.maskTools (AppEnhanced.handleInvert dark example_app) = Some mt' /\
    mt' = commit (inverted_canvas dark example_tools) example_tools /\
    forall x y, in_bounds (maskCanvas example_tools) x y ->
      sel (width (maskCanvas example_tools)) (data (getMaskData mt')) x y
      = negb (sel (width (maskCanvas example_tools))
                  (data (getMaskData example_tools)) x y).
Proof.
  apply (invert_complements dark example_app example_tools).
  - reflexivity.
  - vm_compute. repeat split; discriminate.
  - vm_compute. reflexivity.
Defined.

(** X8: clearing selects nothing. After [clearMask()] no pixel of the
    mask is selected, the canvas keeps its size, and the cleared canvas is
    committed as one snapshot. *)
Theorem clearMask_selects_nothing (s : t) :
  wf_image (maskCanvas s) ->
  clearMask s = commit (clearRect (maskCanvas s)) s /\
  wf_image (maskCanvas (clearMask s)) /\
  width (maskCanvas (clearMask s)) = width (maskCanvas s) /\
  height (maskCanvas (clearMask s)) = height (maskCanvas s) /\
  forall x y, in_bounds (maskCanvas s) x y ->
    sel (width (maskCanvas s)) (data (getMaskData (clearMask s))) x y = false.
Proof.
  intros Hwf. pose proof Hwf as (Hw & Hh & Hlen).
  assert (Hc : maskCanvas (clearMask s) = clearRect (maskCanvas s)).
  { unfold clearMask. by rewrite maskCanvas_saveState. }
  split; [done |].
  assert (Hwf' : wf_image (clearRect (maskCanvas s))).
  { unfold wf_image, clearRect. cbn. rewrite length_replicate. done. }
  rewrite Hc. split; [done |]. split; [done |]. split; [done |].
  intros x y Hin.
  destruct (wf_pixel _ x y Hwf' Hin) as ([[[r g] b] a] & Hp).
  pose proof Hp as (_ & Hg & _).
  cbn [clearRect data width] in Hg. rewrite aget_replicate in Hg.
  case_decide; [| done]. inversion Hg; subst g.
  assert (Hp2 : pixel_at (data (maskCanvas (clearMask s)))
                  ((y * width (maskCanvas (clearMask s)) + x) * 4) (r, 0, b, a))
    by (rewrite Hc; exact Hp).
  assert (Hwidth : width (maskCanvas (clearMask s)) = width (maskCanvas s))
    by by rewrite Hc.
  rewrite <- Hwidth.
  by rewrite (getMaskData_sel _ x y r 0 b a Hp2).
Qed.

Lemma clearMask_selects_nothing_witness :
  clearMask example_tools = commit (clearRect (maskCanvas example_tools)) example_tools /\
  wf_image (maskCanvas (clearMask example_tools)) /\
  width (maskCanvas (clearMask example_tools)) = width (maskCanvas example_tools) /\
  height (maskCanvas (clearMask example_tools)) = height (maskCanvas example_tools) /\
  forall x y, in_bounds (maskCanvas example_tools) x y ->
    sel (width (maskCanvas example_tools))
        (data (getMaskData (clearMask example_tools))) x y = false.
Proof.
  apply (clearMask_selects_nothing example_tools).
  vm_compute. repeat split; discriminate.
Defined.

End Conversions2.

(** * Further properties of the refinement *)

Section PassPixels.
Variables w h : Z.
Hypothesis w_nonneg : 0 <= w.
Hypothesis h_nonneg : 0 <= h.

Definition written (write : option (Z * Z * Z)) (p : Z * Z * Z * Z)
  : Z * Z * Z * Z :=
  match write with
  | None => p
  | Some (v0, v1, v2) => (u8 v0, u8 v1, u8 v2, p.2)
  end.

Lemma write_rgb_pixel (write : Z * Z -> option (Z * Z * Z)) (acc : list Z)
      (x y : Z) (p : Z * Z * Z * Z) :
  pixel_at acc ((y * w + x) * 4) p ->
  pixel_at (write_rgb w write acc (x, y)) ((y * w + x) * 4) (written (write (x, y)) p).
Proof.
  intros Hp. pose proof (pixel_at_range _ _ _ Hp) as [Hi Hlen].
  destruct p as [[[r g] b] a]. destruct Hp as (Hr & Hg & Hb & Ha).
  unfold write_rgb, written, pixel_off. cbn [fst snd].
  destruct (write (x, y)) as [[[v0 v1] v2]|]; [| done].
  unfold pixel_at. array_pixel.
Qed.

Lemma rgb_pass_pixel (write : Z * Z -> option (Z * Z * Z)) (acc : list Z)
      (x y : Z) (p : Z * Z * Z * Z) :
  0 <= x < w -> 0 <= y < h ->
  pixel_at acc ((y * w + x) * 4) p ->
  pixel_at (rgb_pass w h write acc) ((y * w + x) * 4)
    (if is_interior w h x y then written (write (x, y)) p else p).
Proof.
  intros Hx Hy Hp.
  destruct (is_interior w h x y) eqn:Hi.
  - apply interior_iff in Hi as [Hxi Hyi].
    apply (write_rgb_pixel write) in Hp.
    destruct (written (write (x, y)) p) as [[[r g] b] a].
    destruct Hp as (Hr & Hg & Hb & Ha). unfold pixel_at.
    rewrite <- (Z.add_0_r ((y * w + x) * 4)) at 1.
    rewrite !rgb_pass_interior by (done || lia).
    by rewrite Z.add_0_r.
  - destruct p as [[[r g] b] a]. destruct Hp as (Hr & Hg & Hb & Ha).
    unfold pixel_at.
    rewrite <- (Z.add_0_r ((y * w + x) * 4)) at 1.
    rewrite !rgb_pass_border by (done || lia).
    by rewrite Z.add_0_r.
Qed.

(** Every pixel of the buffer is pure. *)
Definition binary_buf (d : list Z) : Prop :=
  forall x y, 0 <= x < w -> 0 <= y < h -> pure_pixel d ((y * w + x) * 4).

Lemma binary_buf_two_level (d : list Z) : binary_buf d -> two_level w h d.
Proof.
  intros Hb x y Hx Hy. destruct (Hb x y Hx Hy) as (v & a & Hv & Hr & _).
  rewrite Hr. destruct Hv as [-> | ->]; auto.
Qed.

Definition pure_write (o : option (Z * Z * Z)) : Prop :=
  match o with
  | None => True
  | Some (v0, v1, v2) => v0 = v1 /\ v1 = v2 /\ (v0 = 0 \/ v0 = 255)
  end.

Lemma rgb_pass_binary (write : Z * Z -> option (Z * Z * Z)) (acc : list Z) :
  binary_buf acc ->
  (forall x y, 1 <= x < w - 1 -> 1 <= y < h - 1 -> pure_write (write (x, y))) ->
  binary_buf (rgb_pass w h write acc).
Proof.
  intros Hb Hwr x y Hx Hy.
  destruct (Hb x y Hx Hy) as (v & a & Hv & Hp).
  apply (rgb_pass_pixel write) in Hp; [| done | done].
  destruct (is_interior w h x y) eqn:Hi; [| by exists v, a].
  apply interior_iff in Hi as [Hxi Hyi].
  specialize (Hwr x y Hxi Hyi). unfold written in Hp.
  destruct (write (x, y)) as [[[v0 v1] v2]|]; [| by exists v, a].
  destruct Hwr as (-> & -> & Hv2). cbn [snd] in Hp.
  exists v2, a. split; [done |].
  destruct Hv2 as [-> | ->]; exact Hp.
Qed.

Lemma copy_of_pure (src : list Z) (x y : Z) :
  binary_buf src -> 0 <= x < w -> 0 <= y < h ->
  pure_write (Some (copy_of src ((y * w + x) * 4))).
Proof.
  intros Hb Hx Hy. destruct (Hb x y Hx Hy) as (v & a & Hv & Hr & Hg & Hbl & _).
  unfold copy_of, pure_write. rewrite Hr, Hg, Hbl. cbn. auto.
Qed.

Lemma closing_pass_binary (d : list Z) :
  binary_buf d -> binary_buf (App.closing_pass w h d).
Proof.
  intros Hb. rewrite closing_pass_rgb.
  assert (Hsrc : binary_buf (rgb_pass w h (grow_write d w) d)).
  { apply rgb_pass_binary; [done |]. intros x y _ _. unfold grow_write.
    repeat match goal with |- context [if ?b then _ else _] => destruct b end;
      cbn; auto. }
  apply rgb_pass_binary; [done |]. intros x y Hx Hy. unfold shrink_copy_write.
  repeat match goal with |- context [if ?b then _ else _] => destruct b end;
    try (cbn; auto; fail).
  apply copy_of_pure; [done | lia | lia].
Qed.

Lemma opening_pass_binary (d : list Z) :
  binary_buf d -> binary_buf (AppEnhanced.opening_pass w h d).
Proof.
  intros Hb. rewrite opening_pass_rgb.
  assert (Hsrc : binary_buf (rgb_pass w h (shrink_write d w) d)).
  { apply rgb_pass_binary; [done |]. intros x y _ _. unfold shrink_write.
    repeat match goal with |- context [if ?b then _ else _] => destruct b end;
      cbn; auto. }
  apply rgb_pass_binary; [done |]. intros x y Hx Hy. unfold grow_copy_write.
  repeat match goal with |- context [if ?b then _ else _] => destruct b end;
    try (cbn; auto; fail).
  apply copy_of_pure; [done | lia | lia].
Qed.

Lemma iter_binary (pass : list Z -> list Z) (n : nat) (d : list Z) :
  (forall d, binary_buf d -> binary_buf (pass d)) ->
  binary_buf d -> binary_buf (Nat.iter n pass d).
Proof. intros Hp Hb. induction n as [|n IH]; [done |]. cbn. by apply Hp. Qed.

End PassPixels.

Section RefineHandlers.
Import MaskTools.

Lemma reading_of_binary (mt' : t) (img : ImageData) (x y : Z) :
  wf_image img -> binary_image img -> maskCanvas mt' = img ->
  in_bounds img x y ->
  sel (width img) (data (getMaskData mt')) x y = sel (width img) (data img) x y.
Proof.
  intros Hwf Hbin Hc Hin. destruct (Hbin x y Hin) as (v & a & Hv & Hp).
  rewrite (pure_pixel_sel _ _ x y v a Hv Hp).
  rewrite <- Hc in Hp |- *.
  rewrite (getMaskData_sel mt' x y v v v a Hp).
  destruct Hv as [-> | ->]; reflexivity.
Qed.

Lemma reading_of_overlay (theme : Theme) (mt' : t) (img : ImageData) (x y : Z) :
  50 < overlayG theme ->
  wf_image img -> binary_image img ->
  maskCanvas mt' = convertToGreenOverlay theme img ->
  in_bounds img x y ->
  sel (width img) (data (getMaskData mt')) x y = sel (width img) (data img) x y.
Proof.
  intros Hgreen Hwf Hbin Hc Hin. destruct (Hbin x y Hin) as (v & a & Hv & Hp).
  rewrite (pure_pixel_sel _ _ x y v a Hv Hp).
  apply (convertToGreenOverlay_pixel theme) in Hp; [| apply Z_mod_mult].
  change (width img) with (width (convertToGreenOverlay theme img)) in Hp |- *.
  rewrite <- Hc in Hp |- *.
  destruct Hv as [-> | ->]; cbn in Hp;
    rewrite (getMaskData_sel mt' x y _ _ _ _ Hp); [reflexivity |].
  apply bool_decide_eq_true. unfold u8. lia.
Qed.

Lemma binary_image_buf (img : ImageData) :
  binary_image img <-> binary_buf (width img) (height img) (data img).
Proof.
  split.
  - intros Hb x y Hx Hy. by apply Hb.
  - intros Hb x y [Hx Hy]. by apply Hb.
Qed.

Lemma refined_images (img : ImageData) (n : nat) :
  wf_image img -> binary_image img ->
  wf_image (App.refineMaskEdges img n) /\
  binary_image (App.refineMaskEdges img n) /\
  wf_image (AppEnhanced.refineMaskEdgesEnhanced img n) /\
  binary_image (AppEnhanced.refineMaskEdgesEnhanced img n).
Proof.
  intros Hwf Hbin. pose proof Hwf as (Hw & Hh & Hlen).
  assert (Htl : two_level (width img) (height img) (data img))
    by (apply binary_buf_two_level; by apply binary_image_buf).
  destruct (iter_pass_spec (width img) (height img)
              (App.closing_pass (width img) (height img))
              (closing (width img) (height img)) n (data img))
    as (Hc & _); try done.
  { intros d. by apply closing_pass_spec. }
  { intros S S' x y. apply closing_ext. }
  destruct (iter_pass_spec (width img) (height img)
              (AppEnhanced.opening_pass (width img) (height img))
              (opening (width img) (height img)) n (data img))
    as (Ho & _); try done.
  { intros d. by apply opening_pass_spec. }
  { intros S S' x y. apply opening_ext. }
  split; [split; [done | split; [done | exact Hc]] |].
  split.
  { apply binary_image_buf.
    apply (iter_binary (width img) (height img));
      [apply closing_pass_binary | by apply binary_image_buf]. }
  split; [split; [done | split; [done | exact Ho]] |].
  apply binary_image_buf.
  apply (iter_binary (width img) (height img));
    [apply opening_pass_binary | by apply binary_image_buf].
Qed.

(** X9: what the Refine button does to the selection. In the original
    app.js [handleRefine] replaces the selection by its closing (one round of
    dilation then erosion); in the enhanced app.js it replaces it by its
    opening applied twice (two rounds of erosion then dilation). Both read
    the mask with [getMaskData()], put the refined mask back on the canvas
    and commit one snapshot. *)
Theorem handleRefine_reading (theme : Theme) (app : App.t)
        (app' : AppEnhanced.t) (mt : t) :
  App.maskTools app = Some mt ->
  AppEnhanced.maskTools app' = Some mt ->
  wf_image (maskCanvas mt) ->
  50 < overlayG theme ->
  let w := width (maskCanvas mt) in
  let h := height (maskCanvas mt) in
  let S := sel w (data (getMaskData mt)) in
  (exists mt1,
     App.maskTools (App.handleRefine app) = Some mt1 /\
     mt1 = commit (App.refineMaskEdges (getMaskData mt) 1) mt /\
     forall x y, in_bounds (maskCanvas mt) x y ->
       sel w (data (getMaskData mt1)) x y = closing w h S x y) /\
  (exists mt2,
     AppEnhanced.maskTools (AppEnhanced.handleRefine theme app') = Some mt2 /\
     mt2 = commit (convertToGreenOverlay theme
                     (AppEnhanced.refineMaskEdgesEnhanced (getMaskData mt) 2)) mt /\
     forall x y, in_bounds (maskCanvas mt) x y ->
       sel w (data (getMaskData mt2)) x y = opening w h (opening w h S) x y).
Proof.
  intros Hmt Hmt' Hwf Hgreen. cbn zeta.
  pose proof (wf_getMaskData mt Hwf) as Hwfg.
  pose proof (binary_getMaskData mt Hwf) as Hbg.
  assert (Htl : two_level (width (getMaskData mt)) (height (getMaskData mt))
                  (data (getMaskData mt)))
    by (apply binary_buf_two_level; by apply binary_image_buf).
  destruct (refined_images (getMaskData mt) 1 Hwfg Hbg) as (Hwc & Hbc & _).
  destruct (refined_images (getMaskData mt) 2 Hwfg Hbg) as (_ & _ & Hwo & Hbo).
  pose proof Hwfg as (Hw & Hh & Hlen).
  split.
  - exists (commit (App.refineMaskEdges (getMaskData mt) 1) mt).
    split; [unfold App.handleRefine; by rewrite Hmt |].
    split; [done |]. intros x y Hin.
    assert (Hc : maskCanvas (commit (App.refineMaskEdges (getMaskData mt) 1) mt)
                 = App.refineMaskEdges (getMaskData mt) 1).
    { unfold commit. by rewrite maskCanvas_saveState. }
    pose proof (reading_of_binary _ _ x y Hwc Hbc Hc Hin) as Hread.
    cbn [width App.refineMaskEdges] in Hread.
    change (width (getMaskData mt)) with (width (maskCanvas mt)) in Hread.
    rewrite Hread. cbn [data Nat.iter].
    destruct (closing_pass_spec (width (getMaskData mt)) (height (getMaskData mt))
                Hw Hh (data (getMaskData mt)) Hlen Htl) as (_ & _ & Hsel & _).
    destruct Hin. by apply Hsel.
  - exists (commit (convertToGreenOverlay theme
                      (AppEnhanced.refineMaskEdgesEnhanced (getMaskData mt) 2)) mt).
    split; [unfold AppEnhanced.handleRefine; by rewrite Hmt' |].
    split; [done |]. intros x y Hin.
    assert (Hc : maskCanvas
                   (commit (convertToGreenOverlay theme
                              (AppEnhanced.refineMaskEdgesEnhanced (getMaskData mt) 2))
                           mt)
                 = convertToGreenOverlay theme
                     (AppEnhanced.refineMaskEdgesEnhanced (getMaskData mt) 2)).
    { unfold commit. by rewrite maskCanvas_saveState. }
    pose proof (reading_of_overlay theme _ _ x y Hgreen Hwo Hbo Hc Hin) as Hread.
    cbn [width AppEnhanced.refineMaskEdgesEnhanced] in Hread.
    change (width (getMaskData mt)) with (width (maskCanvas mt)) in Hread.
    rewrite Hread. cbn [data].
    destruct (iter_pass_spec (width (getMaskData mt)) (height (getMaskData mt))
                (AppEnhanced.opening_pass (width (getMaskData mt))
                                          (height (getMaskData mt)))
                (opening (width (getMaskData mt)) (height (getMaskData mt)))
                2 (data (getMaskData mt)))
      as (_ & _ & Hsel & _); try done.
    { intros d. by apply opening_pass_spec. }
    { intros S S' a b. apply opening_ext. }
    destruct Hin. by apply Hsel.
Qed.

Lemma handleRefine_reading_witness :
  let mt := example_tools in
  let w := width (maskCanvas mt) in
  let h := height (maskCanvas mt) in
  let S := sel w (data (getMaskData mt)) in
  (exists mt1,
     App.maskTools (App.handleRefine
                      (App.mk (Some mt) true true false None)) = Some mt1 /\
     mt1 = commit (App.refineMaskEdges (getMaskData mt) 1) mt /\
     forall x y, in_bounds (maskCanvas mt) x y ->
       sel w (data (getMaskData mt1)) x y = closing w h S x y) /\
  (exists mt2,
     AppEnhanced.maskTools (AppEnhanced.handleRefine dark example_app) = Some mt2 /\
     mt2 = commit (convertToGreenOverlay dark
                     (AppEnhanced.refineMaskEdgesEnhanced (getMaskData mt) 2)) mt /\
     forall x y, in_bounds (maskCanvas mt) x y ->
       sel w (data (getMaskData mt2)) x y = opening w h (opening w h S) x y).
Proof.
  apply (handleRefine_reading dark (App.mk (Some example_tools) true true false None)
           example_app example_tools).
  - reflexivity.
  - reflexivity.
  - vm_compute. repeat split; discriminate.
  - vm_compute. reflexivity.
Defined.

End RefineHandlers.

(** * Further properties of the click mask *)

(** ** Connected components *)

Lemma adjacent4_sym (x y x' y' : Z) : adjacent4 x y x' y' -> adjacent4 x' y' x y.
Proof. unfold adjacent4. lia. Qed.

Lemma connected_trans (img : ImageData) (px py qx qy zx zy : Z) :
  connected img px py qx qy -> connected img qx qy zx zy ->
  connected img px py zx zy.
Proof.
  intros Hpq Hqz.
  destruct (connected_class img px py qx qy Hpq) as [_ Hcl].
  induction Hqz as [| x y x' y' Hc IH Hadj Hin Hcl']; [done |].
  eapply connected_step; [exact IH | done | done | congruence].
Qed.

Lemma connected_sym (img : ImageData) (px py qx qy : Z) :
  connected img px py qx qy -> connected img qx qy px py.
Proof.
  induction 1 as [Hin | x y x' y' Hc IH Hadj Hin Hcl].
  - by apply connected_seed.
  - destruct (connected_class img px py x y Hc) as [Hinx Hclx].
    apply (connected_trans img x' y' x y); [| exact IH].
    eapply connected_step;
      [by apply connected_seed | by apply adjacent4_sym | done | congruence].
Qed.

Lemma connected_same_component (img : ImageData) (px py qx qy zx zy : Z) :
  connected img px py qx qy ->
  connected img px py zx zy <-> connected img qx qy zx zy.
Proof.
  intros Hpq. split; intros Hz.
  - apply (connected_trans img qx qy px py); [by apply connected_sym | done].
  - by apply (connected_trans img px py qx qy).
Qed.

(** Every in-range index of an RGBA buffer is a channel of a pixel. *)
Lemma byte_of_pixel (w h j : Z) :
  0 <= w -> 0 <= h -> 0 <= j < 4 * w * h ->
  exists x y c, 0 <= x < w /\ 0 <= y < h /\ 0 <= c <= 3 /\
                j = (y * w + x) * 4 + c.
Proof.
  intros Hw Hh Hj.
  assert (Hwpos : 0 < w) by nia.
  exists ((j `div` 4) `mod` w), ((j `div` 4) `div` w), (j `mod` 4).
  pose proof (Z.div_mod j 4 ltac:(lia)) as Hj4.
  pose proof (Z.mod_pos_bound j 4 ltac:(lia)) as Hc.
  pose proof (Z.div_mod (j `div` 4) w ltac:(lia)) as Hk.
  pose proof (Z.mod_pos_bound (j `div` 4) w Hwpos) as Hx.
  assert (Hk0 : 0 <= j `div` 4 < w * h) by (split; [apply Z.div_pos; lia | apply Z.div_lt_upper_bound; lia]).
  assert (Hy0 : 0 <= (j `div` 4) `div` w) by (apply Z.div_pos; lia).
  assert (Hy1 : (j `div` 4) `div` w < h) by (apply Z.div_lt_upper_bound; lia).
  repeat split; try lia.
Qed.

Section ComponentMask.
  Variables (img : ImageData) (clickX clickY : Q).
  Hypothesis img_wf : wf_image img.
  Hypothesis seed_in : in_bounds img (Qfloor clickX) (Qfloor clickY).

  Local Abbreviation sx := (Qfloor clickX).
  Local Abbreviation sy := (Qfloor clickY).

  (** The mask of a click on an object: the flood fill returns, and its
      bytes are 255 on the component of the click and 0 elsewhere. *)
Lemma object_click_mask :
    class_at img sx sy <> Some 0 ->
    exists m,
      SegmentationCC.createClickMask img clickX clickY
      = Some (mkImageData (width img) (height img) m) /\
      Z.of_nat (length m) = 4 * width img * height img /\
      forall x y c, in_bounds img x y -> 0 <= c <= 3 ->
        aget m ((y * width img + x) * 4 + c) = Some 255 /\ connected img sx sy x y \/
        aget m ((y * width img + x) * 4 + c) = Some 0 /\ ~ connected img sx sy x y.
  Proof using img_wf seed_in.
    intros Hne. pose proof img_wf as (Hw & Hh & Hlen).
    unfold SegmentationCC.createClickMask.
    change (aget (data img) ((sy * width img + sx) * 4)) with (class_at img sx sy).
    assert (Hbg : js_eq (class_at img sx sy) 0 = false).
    { unfold js_eq. destruct (class_at img sx sy) as [v|]; [| done].
      apply bool_decide_eq_false. intros ->. done. }
    rewrite Hbg.
    destruct (fill_start_measure (width img) (height img) Hw Hh
                (data (newImageData (width img) (height img))) sx sy) as [Hr Hm].
    destruct (fill_loop_drains (data img) (width img) (height img)
                (class_at img sx sy) Hw Hh _ _ Hr Hm) as (st & Hst & Hq).
    assert (Hfind : SegmentationCC._findConnectedComponent (data img) (width img)
                      (height img) (class_at img sx sy)
                      (data (newImageData (width img) (height img))) sx sy
                    = Some (SegmentationCC.maskArray st)).
    { unfold SegmentationCC._findConnectedComponent. by rewrite Hst. }
    rewrite Hfind. cbn [fmap option_fmap option_map].
    exists (SegmentationCC.maskArray st). split; [done |].
    exact (fill_result img sx sy img_wf seed_in _ Hfind).
  Qed.

  (** The mask of a click on the background: opaque black. *)
Lemma background_click_mask :
    class_at img sx sy = Some 0 ->
    SegmentationCC.createClickMask img clickX clickY
    = Some (mkImageData (width img) (height img)
              (fold_left Segmentation.background_step
                 (pixel_offsets (length (data (newImageData (width img) (height img)))))
                 (data (newImageData (width img) (height img))))).
  Proof using Type.
    intros Hz. unfold SegmentationCC.createClickMask.
    change (aget (data img) ((sy * width img + sx) * 4)) with (class_at img sx sy).
    rewrite Hz. cbn [js_eq]. by rewrite bool_decide_eq_true_2.
  Qed.
End ComponentMask.

(** ** The test for an empty region *)

Lemma hasSelection_intro (mask : ImageData) (x y : Z) :
  wf_image mask -> in_bounds mask x y -> selected mask x y = true ->
  hasSelection mask = true.
Proof.
  intros (Hw & Hh & Hlen) [Hx Hy] Hsel.
  pose proof (index_in_range _ _ Hw Hh x y Hx Hy).
  unfold hasSelection. apply existsb_exists.
  exists ((y * width mask + x) * 4). split; [| exact Hsel].
  apply list_elem_of_In, elem_of_pixel_offsets.
  split; [lia | apply Z_mod_mult].
Qed.

Lemma hasSelection_elim (mask : ImageData) :
  wf_image mask -> hasSelection mask = true ->
  exists x y, in_bounds mask x y /\ selected mask x y = true.
Proof.
  intros (Hw & Hh & Hlen) Hsel.
  unfold hasSelection in Hsel. apply existsb_exists in Hsel as (i & Hi & Hgt).
  apply list_elem_of_In, elem_of_pixel_offsets in Hi as [Hi Hm].
  destruct (byte_of_pixel (width mask) (height mask) i Hw Hh ltac:(lia))
    as (x & y & c & Hx & Hy & Hc & Heq).
  assert (c = 0).
  { subst i. rewrite Z.add_comm, Z_mod_plus_full in Hm.
    rewrite Z.mod_small in Hm by lia. done. }
  subst c. rewrite Z.add_0_r in Heq. subst i.
  exists x, y. split; [done |]. exact Hgt.
Qed.

(** X10: one component, one mask. In the segmentation.js that finds
    connected components, a click on any pixel of the 4-connected component
    of another click returns the very same mask. *)
Theorem same_component_same_mask (img : ImageData) (clickX clickY clickX' clickY' : Q) :
  wf_image img ->
  in_bounds img (Qfloor clickX) (Qfloor clickY) ->
  connected img (Qfloor clickX) (Qfloor clickY) (Qfloor clickX') (Qfloor clickY') ->
  SegmentationCC.createClickMask img clickX' clickY'
  = SegmentationCC.createClickMask img clickX clickY.
Proof.
  intros Hwf Hp Hconn.
  destruct (connected_class img _ _ _ _ Hconn) as [Hq Hcl].
  destruct (decide (class_at img (Qfloor clickX) (Qfloor clickY) = Some 0)) as [Hz | Hnz].
  - rewrite !background_click_mask by congruence. done.
  - destruct (object_click_mask img clickX clickY Hwf Hp Hnz) as (m & -> & Hlen & Hm).
    destruct (object_click_mask img clickX' clickY' Hwf Hq ltac:(congruence))
      as (m' & -> & Hlen' & Hm').
    do 2 f_equal. apply aget_ext. intros j Hj.
    destruct (decide (j < 4 * width img * height img)) as [Hin | Hout].
    + destruct Hwf as (Hw & Hh & _).
      destruct (byte_of_pixel _ _ j Hw Hh ltac:(lia))
        as (x & y & c & Hx & Hy & Hc & ->).
      pose proof (connected_same_component img _ _ _ _ x y Hconn) as Hiff.
      destruct (Hm x y c ltac:(done) Hc) as [[-> H1] | [-> H1]];
        destruct (Hm' x y c ltac:(done) Hc) as [[-> H2] | [-> H2]];
        try done; tauto.
    + unfold aget. rewrite !decide_True by lia.
      rewrite !lookup_ge_None_2 by lia. done.
Qed.

Lemma same_component_same_mask_witness :
  SegmentationCC.createClickMask
    (mkImageData 2 1 [7; 7; 7; 255; 7; 7; 7; 255]) (3 # 2) 0
  = SegmentationCC.createClickMask
      (mkImageData 2 1 [7; 7; 7; 255; 7; 7; 7; 255]) 0 0.
Proof.
  apply (same_component_same_mask (mkImageData 2 1 [7; 7; 7; 255; 7; 7; 7; 255])
           0 0 (3 # 2) 0).
  - vm_compute. repeat split; discriminate.
  - vm_compute. repeat split; discriminate.
  - apply (connected_step _ 0 0 0 0 1 0).
    + apply connected_seed. vm_compute. repeat split; discriminate.
    + left. split; reflexivity.
    + vm_compute. repeat split; discriminate.
    + reflexivity.
Defined.

(** X11: the region of a click is empty exactly on the background. In the
    segmentation.js that finds connected components, for an in-bounds click
    the returned mask is well formed, it has a selected pixel exactly when
    the clicked pixel's class is not 0, and then the clicked pixel itself is
    selected. *)
Theorem click_region_nonempty (img : ImageData) (clickX clickY : Q) :
  wf_image img ->
  in_bounds img (Qfloor clickX) (Qfloor clickY) ->
  exists mask,
    SegmentationCC.createClickMask img clickX clickY = Some mask /\
    wf_image mask /\
    (hasSelection mask = true <->
     class_at img (Qfloor clickX) (Qfloor clickY) <> Some 0) /\
    selected mask (Qfloor clickX) (Qfloor clickY) = hasSelection mask.
Proof.
  intros Hwf Hp. pose proof Hwf as (Hw & Hh & Hlen).
  destruct (decide (class_at img (Qfloor clickX) (Qfloor clickY) = Some 0)) as [Hz | Hnz].
  - rewrite background_click_mask by done. eexists. split; [done |].
    set (mask := mkImageData _ _ _).
    assert (Hwfm : wf_image mask).
    { unfold wf_image, mask. cbn [width height data].
      rewrite pixel_loop_length by apply background_step_length.
      split; [done |]. split; [done |]. by apply length_newImageData. }
    assert (Hnone : forall x y, in_bounds mask x y -> selected mask x y = false).
    { intros x y [Hx Hy].
      destruct (background_mask_pixel (width img) (height img) x y Hx Hy)
        as (Hr & _).
      unfold selected, pixel_index, mask. cbn [data width]. by rewrite Hr. }
    assert (Hempty : hasSelection mask = false).
    { destruct (hasSelection mask) eqn:Hs; [| done].
      apply hasSelection_elim in Hs as (x & y & Hin & Hsel); [| done].
      rewrite Hnone in Hsel by done. done. }
    split; [done |]. rewrite Hempty. split; [done |].
    by apply Hnone.
  - destruct (object_click_mask img clickX clickY Hwf Hp Hnz) as (m & -> & Hlenm & Hm).
    eexists. split; [done |].
    set (mask := mkImageData _ _ _).
    assert (Hwfm : wf_image mask) by done.
    assert (Hseed : selected mask (Qfloor clickX) (Qfloor clickY) = true).
    { unfold selected, pixel_index, mask. cbn [data width].
      destruct (Hm _ _ 0 Hp ltac:(lia)) as [[Hv _] | [_ Hn]].
      - rewrite Z.add_0_r in Hv. by rewrite Hv.
      - destruct Hn. by apply connected_seed. }
    assert (Hs : hasSelection mask = true).
    { by apply (hasSelection_intro mask (Qfloor clickX) (Qfloor clickY)). }
    split; [done |]. rewrite Hs. done.
Qed.

Lemma click_region_nonempty_witness :
  exists mask,
    SegmentationCC.createClickMask example_classes (5 # 2) 0 = Some mask /\
    wf_image mask /\
    (hasSelection mask = true <->
     class_at example_classes (Qfloor (5 # 2)) (Qfloor 0) <> Some 0) /\
    selected mask (Qfloor (5 # 2)) (Qfloor 0) = hasSelection mask.
Proof.
  apply (click_region_nonempty example_classes (5 # 2) 0).
  - vm_compute. repeat split; discriminate.
  - vm_compute. repeat split; discriminate.
Defined.

(** ** A click on the background *)

Lemma background_mask_empty (w h : Z) :
  0 <= w -> 0 <= h ->
  hasSelection
    (mkImageData w h
       (fold_left Segmentation.background_step
          (pixel_offsets (length (data (newImageData w h))))
          (data (newImageData w h)))) = false.
Proof.
  intros Hw Hh. set (mask := mkImageData _ _ _).
  assert (Hwfm : wf_image mask).
  { unfold wf_image, mask. cbn [width height data].
    rewrite pixel_loop_length by apply background_step_length.
    split; [done |]. split; [done |]. by apply length_newImageData. }
  destruct (hasSelection mask) eqn:Hs; [| done].
  apply hasSelection_elim in Hs as (x & y & [Hx Hy] & Hsel); [| done].
  destruct (background_mask_pixel w h x y Hx Hy) as (Hr & _).
  unfold selected, pixel_index, mask in Hsel. cbn [data width] in Hsel.
  by rewrite Hr in Hsel.
Qed.

Definition example_background : ImageData := mkImageData 1 1 [0; 0; 0; 255].

(** X12: a click on the background does nothing to the mask. With the
    click tool on a ready application, a click on a pixel whose class is 0
    only stores the segmentation in the cache: in the original app.js and in
    the enhanced one the mask canvas and the undo history stay as they were,
    and the enhanced app.js does not count the click. *)
Theorem background_click_is_noop `{Canvas2D} (theme : MaskTools.Theme)
        (fresh : option ImageData) (x y : Q)
        (app : App.t) (app' : AppEnhanced.t) (mt : MaskTools.t) (seg : ImageData) :
  App.currentImage app = true -> App.modelLoaded app = true ->
  App.isProcessing app = false -> App.maskTools app = Some mt ->
  segmentation_for (App.cachedSegmentation app) fresh = Some seg ->
  AppEnhanced.currentImage app' = true -> AppEnhanced.modelLoaded app' = true ->
  AppEnhanced.isProcessing app' = false -> AppEnhanced.maskTools app' = Some mt ->
  segmentation_for (AppEnhanced.cachedSegmentation app') fresh = Some seg ->
  MaskTools.currentTool mt = MaskTools.Click ->
  wf_image seg ->
  class_at seg (Qfloor x) (Qfloor y) = Some 0 ->
  App.handleCanvasClick fresh x y app = App.set_cachedSegmentation seg app /\
  AppEnhanced.handleCanvasClick theme fresh x y app'
  = Some (AppEnhanced.set_cachedSegmentation seg app').
Proof.
  intros Hi Hm Hp Hmt Hseg Hi' Hm' Hp' Hmt' Hseg' Htool (Hw & Hh & _) Hz.
  split.
  - rewrite (toggle_click fresh x y app mt seg) by done. cbn zeta.
    unfold Segmentation.createClickMask.
    change (aget (data seg) ((Qfloor y * width seg + Qfloor x) * 4))
      with (class_at seg (Qfloor x) (Qfloor y)).
    rewrite Hz. cbn [js_eq]. rewrite bool_decide_eq_true_2 by done.
    by rewrite background_mask_empty.
  - rewrite (modifier_click theme fresh x y app' mt seg _ Hi' Hm' Hp' Hmt' Htool Hseg'
               (background_click_mask seg x y Hz)).
    cbn zeta. by rewrite background_mask_empty.
Qed.

Lemma background_click_is_noop_witness :
  let app := App.mk (Some example_click_tools) true true false None in
  let app' := AppEnhanced.mk (Some example_click_tools) true true false None false 0 in
  App.handleCanvasClick (Some example_background) 0 0 app
  = App.set_cachedSegmentation example_background app /\
  AppEnhanced.handleCanvasClick MaskTools.bright (Some example_background) 0 0 app'
  = Some (AppEnhanced.set_cachedSegmentation example_background app').
Proof.
  apply (background_click_is_noop MaskTools.bright (Some example_background) 0 0
           (App.mk (Some example_click_tools) true true false None)
           (AppEnhanced.mk (Some example_click_tools) true true false None false 0)
           example_click_tools example_background); try reflexivity.
  vm_compute. repeat split; discriminate.
Defined.

(** * Further properties of the segmentation result *)

Section ClassStore.
  Import SegmentationData.
  Variable segData : list Z.

Lemma class_store_frame d i j :
    ~ (i * 4 <= j <= i * 4 + 3) -> aget (class_store segData d i) j = aget d j.
  Proof. unfold class_store, aput. step_frame_tac. Qed.

Lemma class_store_local d d' i :
    (forall j, i * 4 <= j <= i * 4 + 3 -> aget d j = aget d' j) ->
    forall j, i * 4 <= j <= i * 4 + 3 ->
    aget (class_store segData d i) j = aget (class_store segData d' i) j.
  Proof. intros Hag j Hj. unfold class_store, aput. step_local_tac Hag. Qed.

Lemma class_store_length d i : length (class_store segData d i) = length d.
  Proof. unfold class_store, aput. step_length_tac. Qed.

Lemma gray_store_frame d i j :
    ~ (i * 4 <= j <= i * 4 + 3) -> aget (gray_store segData d i) j = aget d j.
  Proof. unfold gray_store. step_frame_tac. Qed.

Lemma gray_store_local d d' i :
    (forall j, i * 4 <= j <= i * 4 + 3 -> aget d j = aget d' j) ->
    forall j, i * 4 <= j <= i * 4 + 3 ->
    aget (gray_store segData d i) j = aget (gray_store segData d' i) j.
  Proof. intros Hag j Hj. unfold gray_store. step_local_tac Hag. Qed.

Lemma gray_store_length d i : length (gray_store segData d i) = length d.
  Proof. unfold gray_store. step_length_tac. Qed.
End ClassStore.

Section StoreLoop.
  Variable store : list Z -> Z -> list Z.
  Hypothesis store_frame : forall d i j,
    ~ (i * 4 <= j <= i * 4 + 3) -> aget (store d i) j = aget d j.
  Hypothesis store_local : forall d d' i,
    (forall j, i * 4 <= j <= i * 4 + 3 -> aget d j = aget d' j) ->
    forall j, i * 4 <= j <= i * 4 + 3 -> aget (store d i) j = aget (store d' i) j.

  (** Each pixel of the result of the loop over [0 .. n - 1] is the one its
      own iteration writes on the initial array. *)
Lemma store_loop_pixel (n : Z) (d : list Z) (i : Z) (p : Z * Z * Z * Z) :
    0 <= i < n ->
    pixel_at (store d i) (i * 4) p ->
    pixel_at (fold_left store (seqZ 0 n) d) (i * 4) p.
  Proof using store_frame store_local.
    intros Hi. destruct p as [[[r g] b] a]. unfold pixel_at.
    assert (Hget : forall j, i * 4 <= j <= i * 4 + 3 ->
              aget (fold_left store (seqZ 0 n) d) j = aget (store d i) j).
    { intros j Hj.
      apply (fold_pixels_at (fun i => i * 4) store store_frame store_local).
      - intros q _. apply Z_mod_mult.
      - apply NoDup_fmap_2; [intros a1 a2; lia | apply NoDup_seqZ].
      - apply elem_of_seqZ. lia.
      - done. }
    rewrite !Hget by lia. done.
  Qed.
End StoreLoop.

(** X13: the class buffer a map of class indices becomes. When the model
    answers with one class index per pixel for an image of the canvas's own
    size, [_processSegmentationResult] returns a well-formed image of that
    size without resizing. In the later segmentation.js the pixel [(x, y)]
    holds the class index of entry [y * w + x], clamped to a byte, in its
    three colour channels; in the earlier one it is white when that index is
    above 0 and black otherwise. Every pixel is opaque. *)
Theorem class_indices_to_image (resize : ImageData -> Z -> Z -> ImageData)
        (segmentationMap : list Z) (pwidth pheight : option Z) (w h : Z) :
  0 < w -> 0 < h ->
  Z.of_nat (length segmentationMap) = w * h ->
  js_or pwidth w = w -> js_or pheight h = h ->
  let later := SegmentationData._processSegmentationResult resize
                 SegmentationData.class_store segmentationMap pwidth pheight w h in
  let earlier := SegmentationData._processSegmentationResult resize
                   SegmentationData.gray_store segmentationMap pwidth pheight w h in
  wf_image later /\ width later = w /\ height later = h /\
  wf_image earlier /\ width earlier = w /\ height earlier = h /\
  forall x y, 0 <= x < w -> 0 <= y < h ->
    exists v, aget segmentationMap (y * w + x) = Some v /\
      pixel_at (data later) ((y * w + x) * 4) (u8 v, u8 v, u8 v, 255) /\
      let g := if bool_decide (0 < v) then 255 else 0 in
      pixel_at (data earlier) ((y * w + x) * 4) (g, g, g, 255).
Proof.
  intros Hw Hh Hlen Hpw Hph. cbn zeta.
  unfold SegmentationData._processSegmentationResult.
  rewrite Hpw, Hph.
  rewrite (bool_decide_eq_false_2 (_ = _)) by nia.
  rewrite (bool_decide_eq_false_2 (_ \/ _)) by tauto.
  cbn [width height data].
  pose proof (length_newImageData w h ltac:(lia) ltac:(lia)) as Hnew.
  split.
  { unfold wf_image. cbn [width height data].
    rewrite fold_pixels_length by apply class_store_length. lia. }
  split; [done |]. split; [done |]. split.
  { unfold wf_image. cbn [width height data].
    rewrite fold_pixels_length by apply gray_store_length. lia. }
  split; [done |]. split; [done |].
  intros x y Hx Hy.
  pose proof (index_in_range w h ltac:(lia) ltac:(lia) x y Hx Hy) as Hi.
  destruct (lookup_lt_is_Some_2 segmentationMap (Z.to_nat (y * w + x)) ltac:(lia))
    as [v Hv].
  assert (Hag : aget segmentationMap (y * w + x) = Some v).
  { unfold aget. by rewrite decide_True by lia. }
  exists v. split; [done |]. split.
  - apply (store_loop_pixel _ (class_store_frame segmentationMap)
             (class_store_local segmentationMap)); [lia |].
    unfold SegmentationData.class_store, aput, pixel_at. rewrite Hag. cbn [default].
    array_pixel.
  - apply (store_loop_pixel _ (gray_store_frame segmentationMap)
             (gray_store_local segmentationMap)); [lia |].
    unfold SegmentationData.gray_store, pixel_at. rewrite Hag. cbn [js_gt].
    destruct (bool_decide (0 < v)); array_pixel.
Qed.

Lemma class_indices_to_image_witness :
  let resize := fun (img : ImageData) (_ _ : Z) => img in
  let later := SegmentationData._processSegmentationResult resize
                 SegmentationData.class_store [0; 15] None None 2 1 in
  let earlier := SegmentationData._processSegmentationResult resize
                   SegmentationData.gray_store [0; 15] None None 2 1 in
  wf_image later /\ width later = 2 /\ height later = 1 /\
  wf_image earlier /\ width earlier = 2 /\ height earlier = 1 /\
  forall x y, 0 <= x < 2 -> 0 <= y < 1 ->
    exists v, aget [0; 15] (y * 2 + x) = Some v /\
      pixel_at (data later) ((y * 2 + x) * 4) (u8 v, u8 v, u8 v, 255) /\
      let g := if bool_decide (0 < v) then 255 else 0 in
      pixel_at (data earlier) ((y * 2 + x) * 4) (g, g, g, 255).
Proof.
  apply (class_indices_to_image (fun img _ _ => img) [0; 15] None None 2 1);
    first [lia | reflexivity].
Defined.

(** ** The cache of [segmentImage] *)

Lemma _imageDataEqual_spec (data1 data2 : ImageData) :
  SegmentationData._imageDataEqual data1 data2 = true <->
  width data1 = width data2 /\ height data1 = height data2 /\
  forall idx i, idx ∈ SegmentationData.sampleIndices data1 -> 0 <= i <= 3 ->
    aget (data data1) (idx + i) = aget (data data2) (idx + i).
Proof.
  unfold SegmentationData._imageDataEqual.
  destruct (decide (width data1 = width data2)) as [Hw | Hw];
    [| rewrite bool_decide_eq_true_2 by tauto; split; [done | tauto]].
  destruct (decide (height data1 = height data2)) as [Hh | Hh];
    [| rewrite bool_decide_eq_true_2 by tauto; split; [done | tauto]].
  rewrite bool_decide_eq_false_2 by tauto.
  rewrite forallb_forall. split.
  - intros Hall. split; [done |]. split; [done |]. intros idx i Hidx Hi.
    apply list_elem_of_In in Hidx. specialize (Hall idx Hidx).
    rewrite forallb_forall in Hall.
    assert (Hin : In i [0; 1; 2; 3]) by (cbn; lia).
    specialize (Hall i Hin). by apply bool_decide_eq_true in Hall.
  - intros (_ & _ & Hall) idx Hidx. apply forallb_forall. intros i Hi.
    apply bool_decide_eq_true. apply Hall; [by apply list_elem_of_In |].
    cbn in Hi. lia.
Qed.

(** X14: a canvas that looks like the last one gets the cached
    segmentation. After [segmentImage] has returned a result for a canvas,
    a call for any canvas of the same size and length that agrees with it on
    the three sampled pixels (the first, the one at a quarter of the length
    and the last) returns the same result and leaves the cache as it is,
    whatever the model would answer and whatever the other pixels are. *)
Theorem segmentation_cache_hit (answer answer' : option ImageData)
        (canvas canvas' : ImageData) (st st' : SegmentationData.Cache)
        (result : option ImageData) :
  SegmentationData.segmentImage answer canvas st = Some (result, st') ->
  width canvas' = width canvas -> height canvas' = height canvas ->
  length (data canvas') = length (data canvas) ->
  (forall idx i, idx ∈ SegmentationData.sampleIndices canvas -> 0 <= i <= 3 ->
     aget (data canvas') (idx + i) = aget (data canvas) (idx + i)) ->
  SegmentationData.segmentImage answer' canvas' st' = Some (result, st').
Proof.
  intros Hfirst Hw Hh Hlen Hsame.
  assert (Hidx : SegmentationData.sampleIndices canvas'
                 = SegmentationData.sampleIndices canvas).
  { unfold SegmentationData.sampleIndices. by rewrite Hlen. }
  assert (Hcache : SegmentationData.isModelLoaded st' = true /\
                   SegmentationData.lastSegmentation st' = result /\
                   exists l, SegmentationData.lastImageData st' = Some l /\
                             SegmentationData._imageDataEqual canvas l = true).
  { unfold SegmentationData.segmentImage, getImageData in Hfirst.
    destruct (SegmentationData.isModelLoaded st) eqn:Hloaded; [| done].
    cbn [negb] in Hfirst.
    destruct (SegmentationData.lastImageData st) as [l|] eqn:Hlast.
    - destruct (SegmentationData._imageDataEqual canvas l) eqn:Heq.
      + inversion Hfirst; subst. split; [done |]. split; [done |]. by exists l.
      + destruct answer as [r|]; [| done]. inversion Hfirst; subst.
        cbn. split; [done |]. split; [done |]. exists canvas. split; [done |].
        by apply _imageDataEqual_spec.
    - destruct answer as [r|]; [| done]. inversion Hfirst; subst.
      cbn. split; [done |]. split; [done |]. exists canvas. split; [done |].
      by apply _imageDataEqual_spec. }
  destruct Hcache as (Hloaded & Hseg & l & Hlast & Heq).
  apply _imageDataEqual_spec in Heq as (Hwl & Hhl & Hl).
  unfold SegmentationData.segmentImage, getImageData.
  rewrite Hloaded, Hlast. cbn [negb].
  assert (Hhit : SegmentationData._imageDataEqual canvas' l = true).
  { apply _imageDataEqual_spec. split; [congruence |]. split; [congruence |].
    intros idx i Hi Hi3. rewrite Hidx in Hi.
    rewrite Hsame by done. by apply Hl. }
  rewrite Hhit. by rewrite Hseg.
Qed.

Lemma segmentation_cache_hit_witness :
  let canvas := mkImageData 4 1 [1; 1; 1; 255; 2; 2; 2; 255; 3; 3; 3; 255; 4; 4; 4; 255] in
  let canvas' := mkImageData 4 1 [1; 1; 1; 255; 2; 2; 2; 255; 9; 9; 9; 255; 4; 4; 4; 255] in
  let st := SegmentationData.mkCache true None None in
  let st' := SegmentationData.mkCache true (Some canvas) (Some example_classes) in
  SegmentationData.segmentImage None canvas' st' = Some (Some example_classes, st').
Proof.
  intros canvas canvas' st st'.
  apply (segmentation_cache_hit (Some example_classes) None canvas canvas' st st'
           (Some example_classes)); try reflexivity.
  intros idx i Hidx Hi.
  assert (Hcases : idx = 0 \/ idx = 4 \/ idx = 12).
  { apply elem_of_cons in Hidx as [-> | Hidx]; [by left |].
    apply elem_of_cons in Hidx as [-> | Hidx]; [right; by left |].
    apply elem_of_cons in Hidx as [-> | Hidx]; [right; by right |].
    by apply elem_of_nil in Hidx. }
  assert (Hi' : i = 0 \/ i = 1 \/ i = 2 \/ i = 3) by lia.
  destruct Hcases as [-> | [-> | ->]]; destruct Hi' as [-> | [-> | [-> | ->]]];
    reflexivity.
Defined.

(** * The click tool on the mask *)

Lemma maskCanvas_commit (c : ImageData) (mt : MaskTools.t) :
  MaskTools.maskCanvas (commit c mt) = c.
Proof. unfold commit. by rewrite maskCanvas_saveState. Qed.

(** On a binary mask the two tests for a selected pixel agree. *)
Lemma binary_selected (mask : ImageData) (x y : Z) :
  binary_image mask -> in_bounds mask x y ->
  exists v a, (v = 0 \/ v = 255) /\
    pixel_at (data mask) ((y * width mask + x) * 4) (v, v, v, a) /\
    selected mask x y = bool_decide (v = 255).
Proof.
  intros Hbin Hin. destruct (Hbin x y Hin) as (v & a & Hv & Hp).
  exists v, a. split; [done |]. split; [done |].
  destruct Hp as (Hr & _). unfold selected, pixel_index. rewrite Hr.
  destruct Hv as [-> | ->]; reflexivity.
Qed.

Section Overlay.
  Context {C : Canvas2D} {laws : Compositing C} (theme : MaskTools.Theme).
  Variables (mask : ImageData) (mt : MaskTools.t).
  Hypothesis canvas_ok : canvas_buffer (MaskTools.maskCanvas mt).
  Hypothesis mask_wf : wf_image mask.
  Hypothesis mask_size : same_size mask (MaskTools.maskCanvas mt).
  Hypothesis mask_binary : binary_image mask.

  Local Abbreviation canvas := (MaskTools.maskCanvas mt).
  Local Abbreviation overlay := (MaskTools.convertToGreenOverlay theme mask).

Lemma overlay_wf : wf_image overlay /\ same_size overlay canvas.
  Proof using mask_wf mask_size.
    split; [by apply wf_convertToGreenOverlay | exact mask_size].
  Qed.

  (** The overlay of a binary mask: the theme's pixel where the mask is
      selected, a transparent pixel elsewhere. *)
Lemma overlay_pixel (x y : Z) :
    in_bounds canvas x y ->
    exists r g b a,
      pixel_at (data overlay) ((y * width canvas + x) * 4) (r, g, b, a) /\
      if selected mask x y
      then g = u8 (MaskTools.overlayG theme) /\ a = u8 (MaskTools.overlayA theme)
      else a = 0.
  Proof using mask_size mask_binary.
    intros Hin. destruct mask_size as [Hw Hh].
    assert (Hin' : in_bounds mask x y).
    { unfold in_bounds in *. by rewrite Hw, Hh. }
    destruct (binary_selected mask x y mask_binary Hin')
      as (v & a & Hv & Hp & Hsel).
    rewrite Hw in Hp.
    apply (convertToGreenOverlay_pixel theme) in Hp; [| apply Z_mod_mult].
    rewrite Hsel.
    destruct Hv as [-> | ->]; cbn in Hp |- *; do 4 eexists; (split; [exact Hp |]); done.
  Qed.

  (** Drawing the overlay, under any composite operation, leaves the pixels
      outside the mask as they were. *)
Lemma overlay_drawn_within (op : CompositeOp) :
    drawn_within (selected mask) mt (commit (drawImage op overlay canvas) mt).
  Proof using laws canvas_ok mask_wf mask_size mask_binary.
    destruct overlay_wf as [Howf Hosize].
    destruct (drawImage_size op overlay canvas canvas_ok Howf Hosize)
      as [Hrwf [Hrw Hrh]].
    split; [by eexists |]. intros x y Hin Hout.
    assert (Hsame : same_pixel mt (commit (drawImage op overlay canvas) mt) x y).
    { intros p Hp. rewrite maskCanvas_commit, Hrw.
      destruct (overlay_pixel x y Hin) as (r & g & b & a & Ho & Ha).
      rewrite Hout in Ha. subst a. destruct Ho as (_ & _ & _ & Ho).
      by apply (drawImage_transparent op overlay canvas x y p). }
    split; [done |].
    destruct canvas_ok as (Hcwf & _).
    destruct (wf_pixel canvas x y Hcwf Hin) as ([[[r g] b] a] & Hp).
    pose proof (Hsame _ Hp) as Hp'.
    unfold reading. rewrite (getMaskData_sel _ x y r g b a Hp').
    by rewrite (getMaskData_sel _ x y r g b a Hp).
  Qed.

  (** Drawing the overlay under [lighter] unions the mask into the
      selection, when the overlay's green weighted by its alpha clears the
      threshold of [getMaskData()]. *)
Lemma overlay_unioned :
    0 <= MaskTools.overlayG theme <= 255 ->
    0 <= MaskTools.overlayA theme <= 255 ->
    52 * 255 <= MaskTools.overlayG theme * MaskTools.overlayA theme ->
    unioned (selected mask) mt (commit (drawImage Lighter overlay canvas) mt).
  Proof using laws canvas_ok mask_wf mask_size mask_binary.
    intros HG HA Hgreen. split; [apply overlay_drawn_within |].
    intros x y Hin Hsel.
    destruct overlay_wf as [Howf Hosize].
    destruct (drawImage_size Lighter overlay canvas canvas_ok Howf Hosize)
      as [Hrwf [Hrw Hrh]].
    destruct (overlay_pixel x y Hin) as (r & g & b & a & Ho & Hga).
    rewrite Hsel in Hga. destruct Hga as [-> ->].
    assert (Hu : forall v, 0 <= v <= 255 -> u8 v = v) by (unfold u8; lia).
    rewrite !Hu in Ho by done.
    destruct (drawImage_lighter overlay canvas x y _ _ _ _ canvas_ok Howf Hosize
                Hin Ho HG HA) as (g' & Hg' & Hbound).
    assert (Hin' : in_bounds (drawImage Lighter overlay canvas) x y).
    { unfold in_bounds in *. by rewrite Hrw, Hrh. }
    destruct (wf_pixel _ x y Hrwf Hin') as ([[[r1 g1] b1] a1] & Hp).
    assert (g1 = g').
    { destruct Hp as (_ & Hg1 & _). rewrite Hrw in Hg1. congruence. }
    subst g1.
    rewrite <- (maskCanvas_commit (drawImage Lighter overlay canvas) mt) in Hp.
    unfold reading. rewrite (getMaskData_sel _ x y r1 g' b1 a1 Hp).
    apply bool_decide_eq_true. lia.
  Qed.
End Overlay.

(** The click masks are binary masks of the segmentation's size. *)
Lemma class_mask_binary (img : ImageData) (clickX clickY : Q) :
  wf_image img ->
  let mask := Segmentation.createClickMask img clickX clickY in
  wf_image mask /\ same_size mask img /\ binary_image mask /\
  forall x y, in_bounds img x y ->
    aget (data mask) ((y * width img + x) * 4 + 3) = Some 255.
Proof.
  intros Hwf. pose proof Hwf as (Hw & Hh & Hlen). cbn zeta.
  pose proof (length_newImageData _ _ Hw Hh) as Hlen'.
  unfold Segmentation.createClickMask.
  destruct (js_eq _ 0).
  - split.
    { unfold wf_image. cbn [width height data].
      by rewrite pixel_loop_length by apply background_step_length. }
    split; [done |].
    assert (Hpx : forall x y, 0 <= x < width img -> 0 <= y < height img ->
              pixel_at (fold_left Segmentation.background_step
                          (pixel_offsets (length (data (newImageData (width img) (height img)))))
                          (data (newImageData (width img) (height img))))
                       ((y * width img + x) * 4) (0, 0, 0, 255))
      by (intros; by apply background_mask_pixel).
    split.
    + intros x y [Hx Hy]. exists 0, 255. split; [by left |]. by apply Hpx.
    + intros x y [Hx Hy]. by destruct (Hpx x y Hx Hy) as (_ & _ & _ & Ha).
  - split.
    { unfold wf_image. cbn [width height data].
      by rewrite pixel_loop_length by apply class_step_length. }
    split; [done |].
    assert (Hpx : forall x y, in_bounds img x y ->
              exists v, (v = 0 \/ v = 255) /\
                pixel_at (fold_left (Segmentation.class_step (data img))
                            (pixel_offsets (length (data img)))
                            (data (newImageData (width img) (height img))))
                         ((y * width img + x) * 4) (v, v, v, 255)).
    { intros x y Hin.
      destruct (wf_pixel img x y Hwf Hin) as ([[[r g] b] a] & Hp).
      pose proof (class_mask_pixel img x y r g b a Hwf Hin Hp) as Hm.
      cbn zeta in Hm. eexists. split; [| exact Hm].
      destruct (bool_decide (0 < r)); auto. }
    split.
    + intros x y Hin. destruct (Hpx x y Hin) as (v & Hv & Hp).
      by exists v, 255.
    + intros x y Hin. destruct (Hpx x y Hin) as (v & Hv & _ & _ & _ & Ha). done.
Qed.

Lemma component_mask_binary (img : ImageData) (clickX clickY : Q) :
  wf_image img -> in_bounds img (Qfloor clickX) (Qfloor clickY) ->
  exists mask,
    SegmentationCC.createClickMask img clickX clickY = Some mask /\
    wf_image mask /\ same_size mask img /\ binary_image mask.
Proof.
  intros Hwf Hseed. pose proof Hwf as (Hw & Hh & Hlen).
  destruct (decide (class_at img (Qfloor clickX) (Qfloor clickY) = Some 0)) as [Hz | Hnz].
  - rewrite background_click_mask by done. eexists. split; [done |].
    split.
    { unfold wf_image. cbn [width height data].
      rewrite pixel_loop_length by apply background_step_length.
      split; [done |]. split; [done |]. by apply length_newImageData. }
    split; [done |].
    intros x y [Hx Hy]. exists 0, 255. split; [by left |].
    by apply background_mask_pixel.
  - destruct (object_click_mask img clickX clickY Hwf Hseed Hnz) as (m & -> & Hlenm & Hm).
    eexists. split; [done |]. split; [done |]. split; [done |].
    intros x y Hin. cbn [width data].
    assert (Hb : forall c, 0 <= c <= 3 ->
              (aget m ((y * width img + x) * 4 + c) = Some 255 <->
               connected img (Qfloor clickX) (Qfloor clickY) x y) /\
              (aget m ((y * width img + x) * 4 + c) = Some 0 <->
               ~ connected img (Qfloor clickX) (Qfloor clickY) x y)).
    { intros c Hc. destruct (Hm x y c Hin Hc) as [[Hv Hconn] | [Hv Hconn]];
        rewrite Hv; split; split; try done; intros; congruence. }
    pose proof (Hb 0 ltac:(lia)) as [H0 H0']. rewrite Z.add_0_r in H0, H0'.
    pose proof (Hb 1 ltac:(lia)) as [H1 H1'].
    pose proof (Hb 2 ltac:(lia)) as [H2 H2'].
    pose proof (Hb 3 ltac:(lia)) as [H3 H3'].
    destruct (Hm x y 0 Hin ltac:(lia)) as [[_ Hconn] | [_ Hconn]].
    + exists 255, 255. split; [by right |]. unfold pixel_at. tauto.
    + exists 0, 0. split; [by left |]. unfold pixel_at. tauto.
Qed.

(** ** The reference canvas composes as a canvas does *)

Lemma bind_length4 {A} (l : list A) (g : A -> list Z) :
  (forall a, length (g a) = 4%nat) -> length (l ≫= g) = (4 * length l)%nat.
Proof.
  intros Hg. induction l as [| a l IH]; [done |].
  rewrite bind_cons, length_app, Hg, IH. cbn [length]. lia.
Qed.

Lemma bind_lookup4 {A} (l : list A) (g : A -> list Z) (i c : nat) :
  (forall a, length (g a) = 4%nat) -> (c < 4)%nat ->
  (l ≫= g) !! (4 * i + c)%nat = l !! i ≫= (fun a => g a !! c).
Proof.
  intros Hg Hc. revert i. induction l as [| a l IH]; intros i; [done |].
  rewrite bind_cons. destruct i as [| i].
  - rewrite lookup_app_l by (rewrite Hg; lia). done.
  - rewrite lookup_app_r by (rewrite Hg; lia). rewrite Hg.
    replace (4 * S i + c - 4)%nat with (4 * i + c)%nat by lia.
    apply IH.
Qed.

Lemma pixel_bytes_length (p : Z * Z * Z * Z) :
  length (ReferenceCanvas.pixel_bytes p) = 4%nat.
Proof. by destruct p as [[[? ?] ?] ?]. Qed.

Lemma repaint_wf f (dst : ImageData) :
  wf_image dst ->
  wf_image (ReferenceCanvas.repaint f dst) /\
  same_size (ReferenceCanvas.repaint f dst) dst.
Proof.
  intros (Hw & Hh & Hlen). split; [| done].
  unfold wf_image, ReferenceCanvas.repaint. cbn [width height data].
  split; [done |]. split; [done |].
  rewrite bind_length4.
  - rewrite length_seqZ. nia.
  - intros k. apply pixel_bytes_length.
Qed.

Lemma repaint_pixel f (dst : ImageData) (x y : Z) :
  wf_image dst -> in_bounds dst x y ->
  let k := y * width dst + x in
  let '(r, g, b, a) := f x y (ReferenceCanvas.get_pixel (data dst) k) in
  pixel_at (data (ReferenceCanvas.repaint f dst)) (k * 4) (u8 r, u8 g, u8 b, u8 a).
Proof.
  intros (Hw & Hh & Hlen) [Hx Hy]. cbn zeta.
  pose proof (index_in_range _ _ Hw Hh x y Hx Hy) as Hk.
  assert (Hmod : (y * width dst + x) `mod` width dst = x).
  { rewrite Z.add_comm, Z_mod_plus_full. apply Z.mod_small. lia. }
  assert (Hdiv : (y * width dst + x) `div` width dst = y).
  { rewrite Z.add_comm, Z_div_plus_full by lia. rewrite Z.div_small by lia. lia. }
  destruct (f x y _) as [[[r g] b] a] eqn:Hf.
  assert (Hget : forall c : nat, (c < 4)%nat ->
            aget (data (ReferenceCanvas.repaint f dst))
                 ((y * width dst + x) * 4 + Z.of_nat c)
            = [u8 r; u8 g; u8 b; u8 a] !! c).
  { intros c Hc. unfold aget. rewrite decide_True by lia.
    replace (Z.to_nat ((y * width dst + x) * 4 + Z.of_nat c))
      with (4 * Z.to_nat (y * width dst + x) + c)%nat by lia.
    unfold ReferenceCanvas.repaint. cbn [data].
    rewrite bind_lookup4; [| | done].
    - rewrite lookup_seqZ_lt by lia. cbn [mbind option_bind].
      rewrite Z.add_0_l, Z2Nat.id by lia.
      rewrite Hmod, Hdiv, Hf. done.
    - intros k. apply pixel_bytes_length. }
  unfold pixel_at.
  pose proof (Hget 0%nat ltac:(lia)) as H0. rewrite Z.add_0_r in H0.
  pose proof (Hget 1%nat ltac:(lia)) as H1.
  pose proof (Hget 2%nat ltac:(lia)) as H2.
  pose proof (Hget 3%nat ltac:(lia)) as H3.
  done.
Qed.

Lemma get_pixel_at (d : list Z) (k : Z) (p : Z * Z * Z * Z) :
  pixel_at d (k * 4) p -> ReferenceCanvas.get_pixel d k = p.
Proof.
  destruct p as [[[r g] b] a]. intros (Hr & Hg & Hb & Ha).
  unfold ReferenceCanvas.get_pixel. rewrite (Z.mul_comm 4 k).
  by rewrite Hr, Hg, Hb, Ha.
Qed.

Lemma canvas_buffer_bytes (c : ImageData) (off r g b a : Z) :
  canvas_buffer c -> pixel_at (data c) off (r, g, b, a) ->
  0 <= r <= 255 /\ 0 <= g <= 255 /\ 0 <= b <= 255 /\ 0 <= a <= 255.
Proof.
  intros (_ & Hbytes & _) (Hr & Hg & Hb & Ha).
  assert (Hin : forall i v, aget (data c) i = Some v -> 0 <= v <= 255).
  { intros i v Hv. apply Hbytes. unfold aget in Hv.
    case_decide; [| done]. by eapply list_elem_of_lookup_2. }
  split; [by eapply Hin |]. split; [by eapply Hin |].
  split; by eapply Hin.
Qed.

(** One pixel of [drawImage] on the reference canvas. *)
Lemma reference_draw_pixel (op : CompositeOp) (src dst : ImageData)
      (x y : Z) (s d : Z * Z * Z * Z) :
  wf_image dst -> same_size src dst -> in_bounds dst x y ->
  pixel_at (data src) ((y * width dst + x) * 4) s ->
  pixel_at (data dst) ((y * width dst + x) * 4) d ->
  let '(r, g, b, a) := ReferenceCanvas.blend op s d in
  pixel_at (data (@drawImage ReferenceCanvas.canvas op src dst))
           ((y * width dst + x) * 4) (u8 r, u8 g, u8 b, u8 a).
Proof.
  intros Hwf [Hsw Hsh] Hin Hs Hd.
  pose proof (repaint_pixel
                (fun x y d =>
                   if bool_decide (x < width src /\ y < height src)
                   then ReferenceCanvas.blend op
                          (ReferenceCanvas.get_pixel (data src) (y * width src + x)) d
                   else d) dst x y Hwf Hin) as Hp.
  cbn zeta beta in Hp.
  rewrite bool_decide_eq_true_2 in Hp by (destruct Hin; lia).
  rewrite <- Hsw in Hs.
  rewrite (get_pixel_at _ _ _ Hs), (get_pixel_at _ _ _ Hd) in Hp.
  exact Hp.
Qed.

Lemma u8_byte (v : Z) : 0 <= v <= 255 -> u8 v = v.
Proof. unfold u8. lia. Qed.

(** A transparent source pixel leaves a canvas pixel as it is. *)
Lemma blend_transparent (op : CompositeOp) (sr sg sb dr dg db da : Z) :
  0 <= dr <= 255 -> 0 <= dg <= 255 -> 0 <= db <= 255 -> 0 <= da <= 255 ->
  (da = 0 -> dr = 0 /\ dg = 0 /\ db = 0) ->
  ReferenceCanvas.blend op (sr, sg, sb, 0) (dr, dg, db, da) = (dr, dg, db, da).
Proof.
  intros Hr Hg Hb Ha Hclear.
  assert (Hdiv : (da * 255) `div` 255 = da) by (apply Z.div_mul; lia).
  assert (Hc : forall c, da <> 0 -> (c * da * 255) `div` (255 * da) = c).
  { intros c Hda. replace (c * da * 255) with (c * (255 * da)) by lia.
    apply Z.div_mul. lia. }
  assert (Hl : forall c, da <> 0 -> (c * da) `div` da = c).
  { intros c Hda. by apply Z.div_mul. }
  destruct op; unfold ReferenceCanvas.blend;
    rewrite ?Z.mul_0_r, ?Z.mul_0_l, ?Z.add_0_l, ?Z.sub_0_r, ?Hdiv.
  - case_decide as Hz.
    + destruct (Hclear Hz) as (-> & -> & ->). by subst da.
    + by rewrite !Hc by done.
  - case_decide as Hz; [| done].
    destruct (Hclear Hz) as (-> & -> & ->). by subst da.
  - rewrite (Z.min_r 255 da) by lia. case_decide as Hz.
    + destruct (Hclear Hz) as (-> & -> & ->). by subst da.
    + rewrite !Hl by done. by rewrite !Z.min_r by lia.
Qed.

(** Under [lighter] the green of the result is at least the source's
    green weighted by its alpha, less one unit. *)
Lemma blend_lighter_green (sr sg sb sa dr dg db da : Z) :
  0 <= sg <= 255 -> 0 <= sa <= 255 -> 0 <= dg <= 255 -> 0 <= da <= 255 ->
  let '(r, g, b, a) := ReferenceCanvas.blend Lighter (sr, sg, sb, sa) (dr, dg, db, da) in
  sg * sa - 255 <= 255 * u8 g.
Proof.
  intros Hg Ha Hdg Hda. unfold ReferenceCanvas.blend.
  case_decide as Hz.
  - assert (sa = 0) by lia. subst sa. unfold u8. lia.
  - set (a' := Z.min 255 (sa + da)) in *.
    assert (Ha' : 0 < a' <= 255) by (unfold a' in *; lia).
    set (q := (sg * sa + dg * da) `div` a').
    assert (Hq : sg * sa + dg * da < (q + 1) * a').
    { unfold q. pose proof (Z.mul_succ_div_gt (sg * sa + dg * da) a' ltac:(lia)). lia. }
    assert (Hq0 : 0 <= q) by (unfold q; apply Z.div_pos; nia).
    unfold u8. destruct (decide (q <= 255)); nia.
Qed.

Lemma reference_compositing : Compositing ReferenceCanvas.canvas.
Proof.
  split.
  - intros op src dst (Hwf & _) _ _. apply repaint_wf, Hwf.
  - intros op src dst x y [[[dr dg] db] da] Hbuf Hswf Hsize Hin Halpha Hd.
    pose proof Hbuf as (Hwf & _ & Hclear).
    destruct (canvas_buffer_bytes _ _ _ _ _ _ Hbuf Hd) as (Hr & Hg & Hb & Ha).
    assert (Hin' : in_bounds src x y).
    { destruct Hsize as [Hsw Hsh]. unfold in_bounds in *. by rewrite Hsw, Hsh. }
    destruct (wf_pixel src x y Hswf Hin') as ([[[sr sg] sb] sa] & Hs).
    destruct Hsize as [Hsw Hsh]. rewrite Hsw in Hs.
    assert (sa = 0) by (destruct Hs as (_ & _ & _ & Hsa); congruence). subst sa.
    pose proof (reference_draw_pixel op src dst x y _ _ Hwf (conj Hsw Hsh) Hin Hs Hd)
      as Hp.
    rewrite blend_transparent in Hp; try done.
    + by rewrite !u8_byte in Hp by done.
    + intros ->. destruct Hd as (Hdr & Hdg & Hdb & Hda).
      destruct (Hclear x y Hin Hda) as (Hr0 & Hg0 & Hb0 & _).
      split; [congruence |]. split; congruence.
  - intros src dst x y r g b a Hbuf Hswf Hsize Hin Hs Hg Ha.
    pose proof Hbuf as (Hwf & _).
    destruct (wf_pixel dst x y Hwf Hin) as ([[[dr dg] db] da] & Hd).
    destruct (canvas_buffer_bytes _ _ _ _ _ _ Hbuf Hd) as (_ & Hdg & _ & Hda).
    pose proof (reference_draw_pixel Lighter src dst x y _ _ Hwf Hsize Hin Hs Hd) as Hp.
    pose proof (blend_lighter_green r g b a dr dg db da Hg Ha Hdg Hda) as Hbound.
    destruct (ReferenceCanvas.blend Lighter (r, g, b, a) (dr, dg, db, da))
      as [[[r' g'] b'] a'].
    exists (u8 g'). split; [| done]. by destruct Hp as (_ & Hg' & _).
  - intros src dst x y Hbuf Hswf Hsize Hin Halpha.
    pose proof Hbuf as (Hwf & _).
    destruct (wf_pixel dst x y Hwf Hin) as ([[[dr dg] db] da] & Hd).
    assert (Hin' : in_bounds src x y).
    { destruct Hsize as [Hsw Hsh]. unfold in_bounds in *. by rewrite Hsw, Hsh. }
    destruct (wf_pixel src x y Hswf Hin') as ([[[sr sg] sb] sa] & Hs).
    destruct Hsize as [Hsw Hsh]. rewrite Hsw in Hs.
    assert (sa = 255) by (destruct Hs as (_ & _ & _ & Hsa); congruence). subst sa.
    pose proof (reference_draw_pixel DestinationOut src dst x y _ _ Hwf
                  (conj Hsw Hsh) Hin Hs Hd) as Hp.
    unfold ReferenceCanvas.blend in Hp.
    rewrite Z.sub_diag, Z.mul_0_r in Hp. cbn in Hp. exact Hp.
Qed.

(** ** The click *)


(** Two pixels: an object of class 15 and the background. *)
Definition example_pair : ImageData :=
  mkImageData 2 1 [15; 15; 15; 255; 0; 0; 0; 255].

Definition example_pair_blank : ImageData :=
  mkImageData 2 1 [0; 0; 0; 0; 0; 0; 0; 0].

(** Both pixels selected, as a lasso of the classic tools.js leaves them. *)
Definition example_pair_selected : ImageData :=
  mkImageData 2 1 [255; 255; 255; 204; 255; 255; 255; 204].

Definition example_pair_tools (canvas : ImageData) : MaskTools.t :=
  commit canvas (MaskTools.create example_pair_blank example_pair_blank).

Lemma example_pair_buffer (canvas : ImageData) :
  canvas = example_pair_blank \/ canvas = example_pair_selected ->
  canvas_buffer (MaskTools.maskCanvas (example_pair_tools canvas)).
Proof.
  intros Hc. unfold example_pair_tools. rewrite maskCanvas_commit.
  split; [| split].
  - destruct Hc as [-> | ->]; vm_compute; repeat split; discriminate.
  - intros v Hv.
    destruct Hc as [-> | ->]; cbn [data example_pair_blank example_pair_selected] in Hv;
      repeat (apply elem_of_cons in Hv as [-> | Hv]; [lia |]);
      by apply elem_of_nil in Hv.
  - intros x y [Hx Hy] Ha.
    assert (y = 0) by (destruct Hc as [-> | ->]; cbn in Hy; lia). subst y.
    assert (Hx' : x = 0 \/ x = 1) by (destruct Hc as [-> | ->]; cbn in Hx; lia).
    destruct Hc as [-> | ->]; destruct Hx' as [-> | ->];
      first [by vm_compute | vm_compute in Ha; discriminate].
Qed.


(** ** Subtracting in the original app.js *)



(** On the two pixels: the background pixel is not in the region of a click
    on the object and it is selected before the click, yet the click
    unselects it. *)
Lemma toggle_off_example :
  let mt := example_pair_tools example_pair_selected in
  let app := App.mk (Some mt) true true false (Some example_pair) in
  selected (Segmentation.createClickMask example_pair 0 0) 1 0 = false /\
  reading mt 0 0 = true /\ reading mt 1 0 = true /\
  exists mt', App.maskTools (App.handleCanvasClick None 0 0 app) = Some mt' /\
              reading mt' 1 0 = false.
Proof.
  cbn zeta. split; [reflexivity |]. split; [reflexivity |]. split; [reflexivity |].
  eexists. split; reflexivity.
Qed.

(** * Further properties of the pointer handlers *)

Lemma set_maskCanvas_twice (c c' : ImageData) (mt : MaskTools.t) :
  MaskTools.set_maskCanvas c' (MaskTools.set_maskCanvas c mt)
  = MaskTools.set_maskCanvas c' mt.
Proof. done. Qed.

Lemma set_maskCanvas_same (mt : MaskTools.t) :
  MaskTools.set_maskCanvas (MaskTools.maskCanvas mt) mt = mt.
Proof. by destruct mt. Qed.

Section Gestures.
  Context `{Canvas2D} `{BrushCanvas} (theme : MaskTools.Theme).

Lemma run_events_app (es es' : list PointerEvent) (s : Pointer.t) :
    run_events theme (es ++ es') s = run_events theme es' (run_events theme es s).
  Proof. unfold run_events. apply fold_left_app. Qed.

Lemma run_events_cons (e : PointerEvent) (es : list PointerEvent) (s : Pointer.t) :
    run_events theme (e :: es) s = run_events theme es (run_event theme e s).
  Proof. done. Qed.

  (** The moves of a stroke in progress draw the polyline. *)
Lemma run_moves (erase : bool) (ps : list Point) (mt : MaskTools.t)
        (size : Z) (l : Point) :
    MaskTools.currentTool mt = (if erase then MaskTools.Erase else MaskTools.Brush) ->
    let op := if erase then DestinationOut else SourceOver in
    let style := if erase then defaultFill else MaskTools.lassoFill theme in
    run_events theme (Move <$> ps) (Pointer.mk mt size true (Some l)) =
    Pointer.mk (MaskTools.set_maskCanvas
                  (stroke_path op style size l ps (MaskTools.maskCanvas mt)) mt)
               size true (Some (default l (last ps))).
  Proof.
    intros Htool. cbn zeta. revert mt l Htool.
    induction ps as [| p ps IH]; intros mt l Htool.
    - cbn. by rewrite set_maskCanvas_same.
    - rewrite fmap_cons, run_events_cons. cbn [run_event].
      assert (Hstep : Pointer.handlePointerMove theme p (Pointer.mk mt size true (Some l))
                = Pointer.mk (MaskTools.set_maskCanvas
                                (strokeLine (if erase then DestinationOut else SourceOver)
                                   (if erase then defaultFill else MaskTools.lassoFill theme)
                                   size l p (MaskTools.maskCanvas mt)) mt)
                             size true (Some p)).
      { unfold Pointer.handlePointerMove. cbn [Pointer.tools]. rewrite Htool.
        destruct erase; cbn [Pointer.isDrawing Pointer.lastPoint andb];
          (rewrite bool_decide_eq_true_2 by by eexists); done. }
      rewrite Hstep, IH by (by destruct erase).
      rewrite set_maskCanvas_twice. cbn [stroke_path MaskTools.maskCanvas MaskTools.set_maskCanvas].
      f_equal. f_equal. destruct ps as [| q ps]; [done |].
      rewrite last_cons_cons.
      destruct (last (q :: ps)) as [z |] eqn:Hlast; [done |].
      by apply last_None in Hlast.
  Qed.

(** X16: one stroke, one snapshot. With the brush or the eraser, a press at
    [p0], moves through [ps] and a release draw the polyline from [p0]
    through [ps] on the mask canvas, with the brush size at the press, and
    commit exactly one snapshot, whatever the number of moves; afterwards
    no stroke is in progress. The eraser draws with destination-out. *)
Theorem brush_stroke_commits_once (s : Pointer.t) (p0 : Point) (ps : list Point) :
    MaskTools.currentTool (Pointer.tools s) = MaskTools.Brush \/
    MaskTools.currentTool (Pointer.tools s) = MaskTools.Erase ->
    let erase := bool_decide (MaskTools.currentTool (Pointer.tools s) = MaskTools.Erase) in
    let op := if erase then DestinationOut else SourceOver in
    let style := if erase then defaultFill else MaskTools.lassoFill theme in
    let drawn := stroke_path op style (Pointer.brushSize s) p0 (p0 :: ps)
                   (MaskTools.maskCanvas (Pointer.tools s)) in
    let s' := run_events theme (Down p0 :: (Move <$> ps) ++ [Up]) s in
    mask_state (Pointer.tools s') = mask_state (commit drawn (Pointer.tools s)) /\
    Pointer.isDrawing s' = false /\ Pointer.lastPoint s' = None /\
    Pointer.brushSize s' = Pointer.brushSize s.
  Proof.
    intros Htool. cbn zeta.
    set (erase := bool_decide (MaskTools.currentTool (Pointer.tools s) = MaskTools.Erase)).
    assert (Htool' : MaskTools.currentTool (Pointer.tools s)
                     = if erase then MaskTools.Erase else MaskTools.Brush).
    { unfold erase. destruct Htool as [Ht | Ht]; rewrite Ht; done. }
    change (Down p0 :: (Move <$> ps) ++ [Up]) with ([Down p0] ++ ((Move <$> ps) ++ [Up])).
    rewrite !run_events_app.
    assert (Hdown : run_events theme [Down p0] s
              = Pointer.mk (MaskTools.set_maskCanvas
                              (strokeLine (if erase then DestinationOut else SourceOver)
                                 (if erase then defaultFill else MaskTools.lassoFill theme)
                                 (Pointer.brushSize s) p0 p0
                                 (MaskTools.maskCanvas (Pointer.tools s)))
                              (Pointer.tools s))
                           (Pointer.brushSize s) true (Some p0)).
    { rewrite run_events_cons. cbn [run_events fold_left run_event].
      unfold Pointer.handlePointerDown. rewrite Htool'. by destruct erase. }
    rewrite Hdown, (run_moves erase) by (by destruct erase).
    rewrite set_maskCanvas_twice, run_events_cons.
    cbn [run_events fold_left run_event].
    unfold Pointer.handlePointerUp.
    cbn [Pointer.tools Pointer.isDrawing Pointer.brushSize Pointer.lastPoint
         MaskTools.currentTool MaskTools.set_maskCanvas MaskTools.maskCanvas].
    rewrite Htool'. by destruct erase.
  Qed.

(** X17: a pointer that only hovers changes nothing. While no stroke is in
    progress, moves and releases, in any number and order and with any
    tool, leave the mask canvas, the history and the polygon in progress
    as they are, and start no stroke. *)
Theorem hovering_is_inert (s : Pointer.t) (es : list PointerEvent) :
    Pointer.isDrawing s = false ->
    forallb hovers es = true ->
    let s' := run_events theme es s in
    mask_state (Pointer.tools s') = mask_state (Pointer.tools s) /\
    Pointer.isDrawing s' = false /\
    Pointer.brushSize s' = Pointer.brushSize s.
  Proof.
    intros Hidle Hes. cbn zeta.
    assert (Hsame : run_events theme es s = s).
    { revert Hes. induction es as [| e es IH]; intros Hes; [done |].
      cbn [forallb] in Hes. apply andb_true_iff in Hes as [He Hes].
      rewrite run_events_cons.
      assert (Hstep : run_event theme e s = s).
      { destruct e as [p | p | |]; try done.
        - unfold run_event, Pointer.handlePointerMove. rewrite Hidle.
          by destruct (MaskTools.currentTool (Pointer.tools s)).
        - unfold run_event, Pointer.handlePointerUp. rewrite Hidle.
          by destruct (MaskTools.currentTool (Pointer.tools s)). }
      rewrite Hstep. by apply IH. }
    by rewrite Hsame.
  Qed.
End Gestures.

Lemma brush_stroke_commits_once_witness :
  let mt := MaskTools.mk example_blank example_blank MaskTools.Erase
              [example_blank] 0 20 [] false in
  let s := Pointer.mk mt 25 false None in
  let p0 := mkPoint 0 0 in
  let ps := [mkPoint 1 0; mkPoint 1 1] in
  let erase := bool_decide (MaskTools.currentTool (Pointer.tools s) = MaskTools.Erase) in
  let op := if erase then DestinationOut else SourceOver in
  let style := if erase then defaultFill else MaskTools.lassoFill MaskTools.bright in
  let drawn := stroke_path op style (Pointer.brushSize s) p0 (p0 :: ps)
                 (MaskTools.maskCanvas (Pointer.tools s)) in
  let s' := run_events MaskTools.bright (Down p0 :: (Move <$> ps) ++ [Up]) s in
  mask_state (Pointer.tools s') = mask_state (commit drawn (Pointer.tools s)) /\
  Pointer.isDrawing s' = false /\ Pointer.lastPoint s' = None /\
  Pointer.brushSize s' = Pointer.brushSize s.
Proof.
  apply (brush_stroke_commits_once MaskTools.bright
           (Pointer.mk (MaskTools.mk example_blank example_blank MaskTools.Erase
                          [example_blank] 0 20 [] false) 25 false None)
           (mkPoint 0 0) [mkPoint 1 0; mkPoint 1 1]).
  right. reflexivity.
Defined.

Lemma hovering_is_inert_witness :
  let s := Pointer.mk example_click_tools 25 false None in
  let s' := run_events MaskTools.bright [Move (mkPoint 0 0); Up; Move (mkPoint 1 1)] s in
  mask_state (Pointer.tools s') = mask_state (Pointer.tools s) /\
  Pointer.isDrawing s' = false /\
  Pointer.brushSize s' = Pointer.brushSize s.
Proof.
  apply (hovering_is_inert MaskTools.bright
           (Pointer.mk example_click_tools 25 false None)
           [Move (mkPoint 0 0); Up; Move (mkPoint 1 1)]); reflexivity.
Defined.

Section LassoGesture.
  Context `{Canvas2D} `{BrushCanvas} (theme : MaskTools.Theme).

Lemma with_lasso_same (mt : MaskTools.t) :
    MaskTools.isLassoActive mt = true ->
    with_lasso (MaskTools.lassoPoints mt) mt = mt.
  Proof. destruct mt. cbn. by intros ->. Qed.

  (** With a lasso active, presses add vertices and nothing else happens. *)
Lemma run_lasso_active (es : list PointerEvent) (mt : MaskTools.t)
        (size : Z) (drawing : bool) (l : option Point) :
    MaskTools.currentTool mt = MaskTools.Lasso \/
    MaskTools.currentTool mt = MaskTools.LassoErase ->
    MaskTools.isLassoActive mt = true ->
    forallb no_double_click es = true ->
    run_events theme es (Pointer.mk mt size drawing l) =
    Pointer.mk (with_lasso (MaskTools.lassoPoints mt ++ downs es) mt) size drawing l.
  Proof.
    revert mt. induction es as [| e es IH]; intros mt Htool Hactive Hes.
    - cbn. by rewrite app_nil_r, with_lasso_same.
    - cbn [forallb] in Hes. apply andb_true_iff in Hes as [He Hes].
      rewrite run_events_cons.
      destruct e as [p | p | |]; [| | | done].
      + assert (Hstep : run_event theme (Down p) (Pointer.mk mt size drawing l)
                  = Pointer.mk (with_lasso (MaskTools.lassoPoints mt ++ [p]) mt)
                               size drawing l).
        { cbn [run_event]. unfold Pointer.handlePointerDown.
          cbn [Pointer.tools]. rewrite Hactive.
          destruct Htool as [Ht | Ht]; rewrite Ht; cbn [negb];
            unfold Pointer.set_tools, MaskTools.addLassoPoint, with_lasso;
            by rewrite Hactive. }
        rewrite Hstep, IH by done.
        cbn [downs omap]. fold (downs es).
        cbn [with_lasso MaskTools.lassoPoints]. unfold with_lasso.
        cbn [MaskTools.maskCanvas MaskTools.overlayCanvas MaskTools.currentTool
             MaskTools.history MaskTools.historyStep MaskTools.maxHistorySize].
        by rewrite <- app_assoc.
      + assert (Hstep : run_event theme (Move p) (Pointer.mk mt size drawing l)
                  = Pointer.mk mt size drawing l).
        { cbn [run_event]. unfold Pointer.handlePointerMove. cbn [Pointer.tools].
          by destruct Htool as [Ht | Ht]; rewrite Ht. }
        rewrite Hstep. by apply IH.
      + assert (Hstep : run_event theme Up (Pointer.mk mt size drawing l)
                  = Pointer.mk mt size drawing l).
        { cbn [run_event]. unfold Pointer.handlePointerUp. cbn [Pointer.tools].
          by destruct Htool as [Ht | Ht]; rewrite Ht. }
        rewrite Hstep. by apply IH.
  Qed.

  (** From an idle lasso tool: nothing until the first press, which starts
      the polygon. *)
Lemma run_lasso_idle (es : list PointerEvent) (s : Pointer.t) :
    MaskTools.currentTool (Pointer.tools s) = MaskTools.Lasso \/
    MaskTools.currentTool (Pointer.tools s) = MaskTools.LassoErase ->
    MaskTools.isLassoActive (Pointer.tools s) = false ->
    forallb no_double_click es = true ->
    run_events theme es s =
    if decide (downs es = []) then s
    else Pointer.set_tools (with_lasso (downs es) (Pointer.tools s)) s.
  Proof.
    intros Htool Hidle. induction es as [| e es IH]; intros Hes; [done |].
    cbn [forallb] in Hes. apply andb_true_iff in Hes as [He Hes].
    rewrite run_events_cons. destruct e as [p | p | |]; [| | | done].
    - assert (Hstep : run_event theme (Down p) s
                = Pointer.mk (with_lasso [p] (Pointer.tools s)) (Pointer.brushSize s)
                             (Pointer.isDrawing s) (Pointer.lastPoint s)).
      { cbn [run_event]. unfold Pointer.handlePointerDown. rewrite Hidle.
        by destruct Htool as [Ht | Ht]; rewrite Ht. }
      rewrite Hstep, run_lasso_active by done.
      cbn [downs omap]. fold (downs es). rewrite decide_False by done.
      done.
    - assert (Hstep : run_event theme (Move p) s = s).
      { cbn [run_event]. unfold Pointer.handlePointerMove.
        by destruct Htool as [Ht | Ht]; rewrite Ht. }
      rewrite Hstep. cbn [downs omap]. fold (downs es). by apply IH.
    - assert (Hstep : run_event theme Up s = s).
      { cbn [run_event]. unfold Pointer.handlePointerUp.
        by destruct Htool as [Ht | Ht]; rewrite Ht. }
      rewrite Hstep. cbn [downs omap]. fold (downs es). by apply IH.
  Qed.

(** X18: the lasso fills the polygon of the presses. With a lasso tool
    and no polygon in progress, presses, moves and releases followed by a
    double click fill, when there were at least three presses, the polygon
    through the pressed points in the order of the presses on the mask
    canvas and commit one snapshot; the erasing lasso fills it with
    destination-out. With one or two presses the polygon is dropped and
    nothing else changes; with none the double click does nothing. In
    every case no polygon is in progress afterwards. *)
Theorem lasso_gesture (s : Pointer.t) (es : list PointerEvent) :
    MaskTools.currentTool (Pointer.tools s) = MaskTools.Lasso \/
    MaskTools.currentTool (Pointer.tools s) = MaskTools.LassoErase ->
    MaskTools.isLassoActive (Pointer.tools s) = false ->
    forallb no_double_click es = true ->
    let points := downs es in
    let erase := bool_decide (MaskTools.currentTool (Pointer.tools s) = MaskTools.LassoErase) in
    let op := if erase then DestinationOut else SourceOver in
    let style := if erase then defaultFill else MaskTools.lassoFill theme in
    let filled := fillPath op style points (MaskTools.maskCanvas (Pointer.tools s)) in
    let s' := run_events theme (es ++ [DoubleClick]) s in
    MaskTools.isLassoActive (Pointer.tools s') = false /\
    mask_state (Pointer.tools s') =
    if decide (points = []) then mask_state (Pointer.tools s)
    else if decide (length points < 3)%nat
         then mask_state (MaskTools.cancelLasso (Pointer.tools s))
         else mask_state (commit filled (MaskTools.cancelLasso (Pointer.tools s))).
  Proof.
    intros Htool Hidle Hes. cbn zeta.
    rewrite run_events_app, (run_lasso_idle es s Htool Hidle Hes).
    rewrite run_events_cons. cbn [run_events fold_left run_event].
    unfold Pointer.handleDoubleClick, MaskTools.handleDoubleClick.
    destruct (decide (downs es = [])) as [Hnone | Hsome].
    - rewrite Hidle, andb_false_r. done.
    - cbn [Pointer.tools Pointer.set_tools with_lasso MaskTools.currentTool
           MaskTools.isLassoActive].
      rewrite bool_decide_eq_true_2 by done. cbn [andb].
      unfold MaskTools.completeLasso.
      change (MaskTools.lassoPoints (with_lasso (downs es) (Pointer.tools s)))
        with (downs es).
      change (MaskTools.currentTool (with_lasso (downs es) (Pointer.tools s)))
        with (MaskTools.currentTool (Pointer.tools s)).
      change (MaskTools.maskCanvas (with_lasso (downs es) (Pointer.tools s)))
        with (MaskTools.maskCanvas (Pointer.tools s)).
      destruct (decide (length (downs es) < 3)%nat) as [Hshort | Hlong].
      + split; reflexivity.
      + split; [unfold MaskTools.saveState; by repeat case_decide |].
        unfold commit, mask_state, MaskTools.saveState, MaskTools.cancelLasso,
          MaskTools.clearOverlay, MaskTools.set_maskCanvas, MaskTools.set_history,
          with_lasso.
        cbn. by repeat case_decide.
  Qed.
End LassoGesture.

Lemma lasso_gesture_witness :
  let mt := MaskTools.mk example_blank example_blank MaskTools.Lasso
              [example_blank] 0 20 [] false in
  let s := Pointer.mk mt 25 false None in
  let es := [Down (mkPoint 0 0); Move (mkPoint 1 0); Down (mkPoint 1 0);
             Up; Down (mkPoint 1 1)] in
  let points := downs es in
  let erase := bool_decide (MaskTools.currentTool (Pointer.tools s) = MaskTools.LassoErase) in
  let op := if erase then DestinationOut else SourceOver in
  let style := if erase then defaultFill else MaskTools.lassoFill MaskTools.dark in
  let filled := fillPath op style points (MaskTools.maskCanvas (Pointer.tools s)) in
  let s' := run_events MaskTools.dark (es ++ [DoubleClick]) s in
  MaskTools.isLassoActive (Pointer.tools s') = false /\
  mask_state (Pointer.tools s') =
  if decide (points = []) then mask_state (Pointer.tools s)
  else if decide (length points < 3)%nat
       then mask_state (MaskTools.cancelLasso (Pointer.tools s))
       else mask_state (commit filled (MaskTools.cancelLasso (Pointer.tools s))).
Proof.
  apply (lasso_gesture MaskTools.dark
           (Pointer.mk (MaskTools.mk example_blank example_blank MaskTools.Lasso
                          [example_blank] 0 20 [] false) 25 false None)
           [Down (mkPoint 0 0); Move (mkPoint 1 0); Down (mkPoint 1 0);
            Up; Down (mkPoint 1 1)]); first [reflexivity | by left].
Defined.

(** ** Subtracting in the enhanced app.js, on the reference canvas *)

(** The overlay is not opaque (alpha 250 of 255 in the dark theme), so on
    the reference canvas destination-out leaves the pixel its colour at
    alpha 4, and [getMaskData()], which looks at the green channel only,
    still reads it as selected. What is left depends on the arithmetic of
    the canvas. *)
Lemma ctrl_click_reference_example :
  let mt := example_overlay_tools in
  let app := AppEnhanced.mk (Some mt) true true false (Some example_segmentation) true 0 in
  reading mt 0 0 = true /\
  exists app' mt',
    AppEnhanced.handleCanvasClick MaskTools.dark None 0 0 app = Some app' /\
    AppEnhanced.maskTools app' = Some mt' /\
    data (MaskTools.maskCanvas mt') = [0; 180; 20; 4] /\
    reading mt' 0 0 = true.
Proof.
  cbn zeta. split; [reflexivity |].
  eexists. eexists. split; [reflexivity |]. split; [reflexivity |].
  split; reflexivity.
Qed.
